(** * Legate core runtime: field pools, attachments and launch shapes

    A shallow embedding of [legate/core/runtime.py].  Python integers are
    unbounded and are modelled by [Z]; tuples and lists by [list]; dicts by
    [gmap], or by an association list where the code iterates over them;
    attributes that the code resets to [None] by [option].  A Python
    call that can raise returns the state reached at the [raise] together
    with the exception, since Python keeps every mutation made before it. *)

From stdpp Require Import base numbers list option gmap strings pretty.
From Stdlib Require Import ZArith Lia.

Open Scope Z_scope.

(** ** Exceptions and results *)

Inductive exn : Set :=
| AssertionError
| TypeError
| AttributeError
| KeyError
| ValueError
| ZeroDivisionError
| OverflowError
| RuntimeError_aliased      (* "Illegal aliased attachments not supported by Legate" *)
| RuntimeError_no_attachment (* "Unable to find attachment to remove" *).

Inductive result (A : Type) : Type :=
| Ok (a : A)
| Raise (e : exn)
| Diverge.
Arguments Ok {A} a.
Arguments Raise {A} e.
Arguments Diverge {A}.

(** ** Shapes and element types *)

Abbreviation Shape := (list Z).

Record DType : Set := mkDType { dtype_num : Z; size : Z }.

#[global] Instance DType_eq_dec : EqDecision DType.
Proof. solve_decision. Defined.

#[global] Instance DType_countable : Countable DType.
Proof.
  refine (inj_countable' (fun d => (dtype_num d, size d))
                         (fun p => mkDType p.1 p.2) _).
  by intros [].
Defined.

(** [reduce(lambda x, y: x * y, shape)]: no initial value, so the empty
    tuple raises [TypeError]. *)
Definition reduce_mul (shape : Shape) : result Z :=
  match shape with
  | [] => Raise TypeError
  | x :: rest => Ok (fold_left Z.mul rest x)
  end.

(** ** The Legion collaborators

    [FieldSpace], region handles and the floating point square root live
    outside [runtime.py]; the code only relies on their interface.  They are
    taken as parameters. *)

Class Legion := {
  (** capacity of a field space, [LEGION_MAX_FIELDS] *)
  LEGION_MAX_FIELDS : Z;
  (** the id Legion hands out for a new field of a field space whose
      current field ids are given *)
  fresh_field_id : list Z -> Z;
  (** [int(math.floor(math.sqrt(float(a) / float(b)) + 1e-12))] *)
  sqrt_floor : Z -> Z -> Z;
  (** [int(math.ceil(math.sqrt(float(a) / float(b)) - 1e-12))] *)
  sqrt_ceil : Z -> Z -> Z;
}.

(** The one property of the field allocator the pool relies on. *)
Class LegionFresh `{Legion} : Prop :=
  fresh_field_id_fresh : forall ids : list Z, fresh_field_id ids ∉ ids.

(** A square root is not negative, and neither is what [math.ceil] makes of
    it after taking [1e-12] off. *)
Class LegionSqrt `{Legion} : Prop :=
  sqrt_ceil_nonneg : forall a b : Z, 0 <= sqrt_ceil a b.

(** ** numpy's scalars

    [get_transpose] computes with numpy [int64] scalars, whose arithmetic
    lives outside [runtime.py].  It is taken as a parameter, of which only
    this is relied on: a result that fits 64 bits is the exact one. *)
Class Numpy := {
  (** [x * n] for an [int64] scalar [x] and a Python int [n] *)
  int64_mul : Z -> Z -> result Z;
  (** [x + y] for a Python int or [int64] scalar [x] and an [int64] scalar [y] *)
  int64_add : Z -> Z -> result Z;
}.

Definition fits_int64 (x : Z) : Prop := - 2 ^ 63 <= x < 2 ^ 63.

Class NumpyExact `{Numpy} : Prop := {
  int64_mul_exact : forall a b : Z,
    fits_int64 a -> fits_int64 b -> fits_int64 (a * b) ->
    int64_mul a b = Ok (a * b);
  int64_add_exact : forall a b : Z,
    fits_int64 a -> fits_int64 b -> fits_int64 (a + b) ->
    int64_add a b = Ok (a + b);
}.

(** Modelled from the spec: [legion.FieldSpace], of which the pool uses
    [has_space], [allocate_field], [len] and [fields.keys()].  The field
    ids are kept in insertion order, as the keys of a Python dict are. *)
Module FieldSpace.
Record t : Set := mk { fields : list Z }.

Section with_legion.
Context `{Legion}.

Definition has_space (fs : t) : bool :=
      bool_decide (Z.of_nat (length (fields fs)) < LEGION_MAX_FIELDS).

Definition allocate_field (fs : t) : t * Z :=
      let fid := fresh_field_id (fields fs) in
      (mk (fields fs ++ [fid]), fid).
End with_legion.

#[global] Instance inhabited : Inhabited t := populate (mk []).
End FieldSpace.

(** A logical region: its tree id identifies it; [field_space] is the
    address of its (shared, mutable) field space in the runtime's store. *)
Record Region : Set := mkRegion {
  tree_id : Z;
  index_space : Shape;
  field_space : nat;
}.

#[global] Instance Region_eq_dec : EqDecision Region.
Proof. solve_decision. Defined.

(** The pair [(region, field_id)] the pool hands out. *)
Abbreviation FieldRef := (Region * Z)%type.

Definition ref_key (f : FieldRef) : Z * Z := (tree_id f.1, f.2).

(** ** FieldMatch *)

Module FieldMatch.
  (** [fields] is the submitted list, [input] the buffer of
      [(tree_id, field_id)] pairs built from it, and [future] the value the
      collective resolves to once launched: the agreed pairs, in the order
      the match returns them (the count prefix is their number). *)
Record t : Set := mk {
    fields : list FieldRef;
    input : list (Z * Z);
    future : option (list (Z * Z));
  }.

  (** The buffers are C [int] arrays (32 bits): cffi refuses, with
      [OverflowError], to store a number that does not fit. *)
Definition fits_int (x : Z) : bool := bool_decide (- 2 ^ 31 <= x < 2 ^ 31).

  (** [FieldMatch.__init__]: the input buffer is filled pair by pair. *)
Definition init (fields : list FieldRef) : result t :=
    if forallb (fun f => fits_int (tree_id f.1) && fits_int f.2) fields
    then Ok (mk fields (ref_key <$> fields) None)
    else Raise OverflowError.

  (** [launch]: asserts the match was not launched before, and records the
      future; [agreed] is what the collective will resolve to. *)
Definition launch (m : t) (agreed : list (Z * Z)) : result t :=
    match future m with
    | Some _ => Raise AssertionError
    | None => Ok (mk (fields m) (input m) (Some agreed))
    end.

Section update.
    (** [self.manager] is only used through its [free_field] method. *)
Context {M : Type} (free_field : M -> Region -> Z -> bool -> M).

    (** The first loop of [update_free_fields]: every submitted field is
        looked up in the returned pairs; a hit fills the slot of that index
        in [ordered_fields] (asserting it was empty), a miss goes back to
        the manager's unordered list. *)
Fixpoint place (output : list (Z * Z)) (submitted : list FieldRef)
        (ordered : list (option FieldRef)) (mgr : M)
        : list (option FieldRef) * M * result unit :=
      match submitted with
      | [] => (ordered, mgr, Ok tt)
      | f :: rest =>
          match list_find (fun k => k = ref_key f) output with
          | Some (idx, _) =>
              match ordered !! idx with
              | Some None => place output rest (<[idx := Some f]> ordered) mgr
              | _ => (ordered, mgr, Raise AssertionError)
              end
          | None => place output rest ordered (free_field mgr f.1 f.2 false)
          end
      end.

    (** The second loop: [for region, field_id in ordered_fields]; a slot
        still holding [None] cannot be unpacked. *)
Fixpoint push_ordered (ordered : list (option FieldRef)) (mgr : M)
        : M * result unit :=
      match ordered with
      | [] => (mgr, Ok tt)
      | None :: _ => (mgr, Raise TypeError)
      | Some f :: rest => push_ordered rest (free_field mgr f.1 f.2 true)
      end.

    (** The [else] branch: everything back to the unordered list. *)
Definition requeue_all (submitted : list FieldRef) (mgr : M) : M :=
      fold_left (fun m f => free_field m f.1 f.2 false) submitted mgr.

Definition update_free_fields (m : FieldMatch.t) (mgr : M)
        : M * result unit :=
      if bool_decide (length (fields m) = 0%nat) then (mgr, Ok tt)
      else
        match future m with
        | None => (mgr, Raise AttributeError)
        | Some output =>
            let num_fields := length output in
            if negb (bool_decide (num_fields <= length (fields m))%nat)
            then (mgr, Raise AssertionError)
            else if bool_decide (0 < num_fields)%nat then
              let '(ordered, mgr1, r) :=
                place output (fields m) (replicate num_fields None) mgr in
              match r with
              | Ok _ => push_ordered ordered mgr1
              | Raise e => (mgr1, Raise e)
              | Diverge => (mgr1, Diverge)
              end
            else (requeue_all (fields m) mgr, Ok tt)
        end.
End update.
End FieldMatch.

(** ** The part of the runtime the pools work on *)

Record Resources : Type := mkResources {
  (** [Runtime.index_spaces]: the bounds that already have an index space *)
  index_spaces : option (gset Shape);
  (** [Runtime.field_spaces]: element type to (the address of) its field space *)
  field_spaces : option (gmap DType nat);
  (** the [FieldSpace] objects, shared between the dict and the regions *)
  field_space_store : list FieldSpace.t;
  (** the tree id Legion gives to the next logical region *)
  next_tree_id : Z;
  (** the inputs of the consensus matches dispatched so far, oldest first *)
  collectives : list (list (Z * Z));
}.

Definition set_index_spaces v (r : Resources) :=
  mkResources v (field_spaces r) (field_space_store r) (next_tree_id r) (collectives r).
Definition set_field_spaces v (r : Resources) :=
  mkResources (index_spaces r) v (field_space_store r) (next_tree_id r) (collectives r).
Definition set_field_space_store v (r : Resources) :=
  mkResources (index_spaces r) (field_spaces r) v (next_tree_id r) (collectives r).
Definition set_next_tree_id v (r : Resources) :=
  mkResources (index_spaces r) (field_spaces r) (field_space_store r) v (collectives r).
Definition set_collectives v (r : Resources) :=
  mkResources (index_spaces r) (field_spaces r) (field_space_store r) (next_tree_id r) v.

(** [Runtime.find_or_create_index_space] *)
Definition find_or_create_index_space (bounds : Shape) (r : Resources)
    : Resources * result Shape :=
  match index_spaces r with
  | None => (r, Raise TypeError)
  | Some known =>
      if bool_decide (bounds ∈ known) then (r, Ok bounds)
      else (set_index_spaces (Some ({[bounds]} ∪ known)) r, Ok bounds)
  end.

(** [Runtime.find_or_create_field_space]; the result is the address of the
    field space. *)
Definition find_or_create_field_space (dtype : DType) (r : Resources)
    : Resources * result nat :=
  match field_spaces r with
  | None => (r, Raise TypeError)
  | Some known =>
      match known !! dtype with
      | Some a => (r, Ok a)
      | None =>
          let a := length (field_space_store r) in
          (set_field_spaces (Some (<[dtype := a]> known))
             (set_field_space_store (field_space_store r ++ [FieldSpace.mk []]) r),
           Ok a)
      end
  end.

(** [legion_logical_region_create] followed by [Region(...)] *)
Definition create_region (ispace : Shape) (fspace : nat) (r : Resources)
    : Resources * Region :=
  (set_next_tree_id (next_tree_id r + 1) r,
   mkRegion (next_tree_id r) ispace fspace).

(** ** FieldManager: the pool of one (shape, dtype) *)

Module FieldManager.
Record t : Type := mk {
    shape : Shape;
    dtype : DType;
    free_fields : option (list FieldRef);
    freed_fields : option (list FieldRef);
    matches : list FieldMatch.t;
    match_counter : Z;
    match_frequency : Z;
    top_regions : list Region;
  }.

Definition set_free_fields v (m : t) :=
    mk (shape m) (dtype m) v (freed_fields m) (matches m) (match_counter m)
       (match_frequency m) (top_regions m).
Definition set_freed_fields v (m : t) :=
    mk (shape m) (dtype m) (free_fields m) v (matches m) (match_counter m)
       (match_frequency m) (top_regions m).
Definition set_matches v (m : t) :=
    mk (shape m) (dtype m) (free_fields m) (freed_fields m) v (match_counter m)
       (match_frequency m) (top_regions m).
Definition set_match_counter v (m : t) :=
    mk (shape m) (dtype m) (free_fields m) (freed_fields m) (matches m) v
       (match_frequency m) (top_regions m).
Definition set_top_regions v (m : t) :=
    mk (shape m) (dtype m) (free_fields m) (freed_fields m) (matches m)
       (match_counter m) (match_frequency m) v.

  (** The match frequency computed by [__init__] from the runtime's
      [max_field_reuse_size] and [max_field_reuse_frequency]. *)
Definition compute_match_frequency (max_size base : Z) (shape : Shape)
      (dtype : DType) : result Z :=
    match reduce_mul shape with
    | Ok volume =>
        let sz := volume * size dtype in
        if bool_decide (sz > max_size) then
          if bool_decide (max_size = 0) then Raise ZeroDivisionError
          else
            let ratio := (sz + max_size - 1) `div` max_size in
            if negb (bool_decide (ratio >= 1)) then Raise AssertionError
            else Ok ((base + ratio - 1) `div` ratio)
        else Ok base
    | Raise e => Raise e
    | Diverge => Diverge
    end.

  (** [FieldManager.__init__] *)
Definition init (max_size base : Z) (shape : Shape) (dtype : DType)
      : result t :=
    match compute_match_frequency max_size base shape dtype with
    | Ok freq => Ok (mk shape dtype (Some []) (Some []) [] 0 freq [])
    | Raise e => Raise e
    | Diverge => Diverge
    end.

  (** [FieldManager.destroy]; destroying the regions themselves is Legion's
      business. *)
Definition destroy (m : t) : t :=
    mk (shape m) (dtype m) None None (matches m) (match_counter m)
       (match_frequency m) [].

  (** [FieldManager.free_field] *)
Definition free_field (m : t) (region : Region) (field_id : Z)
      (ordered : bool) : t :=
    if ordered then
      match free_fields m with
      | Some q => set_free_fields (Some (q ++ [(region, field_id)])) m
      | None => m
      end
    else
      match freed_fields m with
      | Some l => set_freed_fields (Some (l ++ [(region, field_id)])) m
      | None => m
      end.

  (** [match.update_free_fields()] for a match of this manager *)
Definition update_free_fields (fmatch : FieldMatch.t) (m : t)
      : t * result unit :=
    FieldMatch.update_free_fields free_field fmatch m.

  (** [Runtime.dispatch(match)]: [match.launch] hands the input buffer to the
      collective; [agreed] is what its future resolves to. *)
Definition dispatch (fmatch : FieldMatch.t) (agreed : list (Z * Z))
      (res : Resources) : Resources * result FieldMatch.t :=
    match FieldMatch.launch fmatch agreed with
    | Ok launched =>
        (set_collectives (collectives res ++ [FieldMatch.input fmatch]) res,
         Ok launched)
    | r => (res, r)
    end.

  (** The head of [allocate_field]: count the call and, on every
      [match_frequency]-th one, hand the freed fields to a new match. *)
Definition exchange (agreed : list (Z * Z)) (res : Resources) (m : t)
      : Resources * t * result unit :=
    let m1 := set_match_counter (match_counter m + 1) m in
    if bool_decide (match_counter m1 = match_frequency m1) then
      let local_freed_fields := freed_fields m1 in
      let m2 := set_freed_fields (Some []) m1 in
      match local_freed_fields with
      | None => (res, m2, Raise TypeError)   (* len(None) in FieldMatch.__init__ *)
      | Some local =>
          match FieldMatch.init local with
          | Ok fmatch =>
              match dispatch fmatch agreed res with
              | (res1, Ok launched) =>
                  (res1,
                   set_match_counter 0 (set_matches (matches m2 ++ [launched]) m2),
                   Ok tt)
              | (res1, Raise e) => (res1, m2, Raise e)
              | (res1, Diverge) => (res1, m2, Diverge)
              end
          | Raise e => (res, m2, Raise e)
          | Diverge => (res, m2, Diverge)
          end
      end
    else (res, m1, Ok tt).

  (** [while len(self.matches) > 0]: resolve the outstanding matches oldest
      first until one of them leaves a field on the free queue. *)
Fixpoint resolve (pending : list FieldMatch.t) (m : t)
      : t * result (option FieldRef) :=
    match pending with
    | [] => (m, Ok None)
    | fmatch :: rest =>
        let '(m1, r) := update_free_fields fmatch (set_matches rest m) in
        match r with
        | Ok _ =>
            match free_fields m1 with
            | None => (m1, Raise TypeError)
            | Some (f :: q) => (set_free_fields (Some q) m1, Ok (Some f))
            | Some [] => resolve rest m1
            end
        | Raise e => (m1, Raise e)
        | Diverge => (m1, Diverge)
        end
    end.

Section with_legion.
Context `{Legion}.

    (** [for reg in self.top_regions: if reg.field_space.has_space] *)
Definition find_region_with_space (store : list FieldSpace.t)
        (regions : list Region) : option Region :=
      List.find (fun reg => FieldSpace.has_space (store !!! field_space reg))
                regions.

    (** [reg.field_space.allocate_field(self.dtype)] on the shared object *)
Definition allocate_in (fspace : nat) (res : Resources)
        : Resources * Z :=
      let '(fs, fid) :=
        FieldSpace.allocate_field (field_space_store res !!! fspace) in
      (set_field_space_store (<[fspace := fs]> (field_space_store res)) res, fid).

    (** The tail of [allocate_field]: no region has room, make a new one. *)
Definition allocate_new_region (res : Resources) (m : t)
        : Resources * t * result FieldRef :=
      match find_or_create_index_space (shape m) res with
      | (res1, Ok ispace) =>
          match find_or_create_field_space (dtype m) res1 with
          | (res2, Ok fspace) =>
              let '(res3, region) := create_region ispace fspace res2 in
              let m1 := set_top_regions (top_regions m ++ [region]) m in
              match FieldSpace.fields (field_space_store res3 !!! fspace) with
              | fid :: others =>
                  match free_fields m1 with
                  | Some q =>
                      (res3,
                       set_free_fields
                         (Some (q ++ ((fun i => (region, i)) <$> others))) m1,
                       Ok (region, fid))
                  | None =>
                      match others with
                      | [] => (res3, m1, Ok (region, fid))
                      | _ => (res3, m1, Raise AttributeError)
                      end
                  end
              | [] =>
                  let '(res4, fid) := allocate_in fspace res3 in
                  (res4, m1, Ok (region, fid))
              end
          | (res2, Raise e) => (res2, m, Raise e)
          | (res2, Diverge) => (res2, m, Diverge)
          end
      | (res1, Raise e) => (res1, m, Raise e)
      | (res1, Diverge) => (res1, m, Diverge)
      end.

    (** [allocate_field] after its head: the call is served from the free
        queue, else from the matches in flight, else from a region with
        room, else from a new region. *)
Definition serve (res1 : Resources) (m1 : t)
        : Resources * t * result FieldRef :=
      match free_fields m1 with
      | None => (res1, m1, Raise TypeError)
      | Some (f :: q) => (res1, set_free_fields (Some q) m1, Ok f)
      | Some [] =>
          match resolve (matches m1) m1 with
          | (m2, Ok (Some f)) => (res1, m2, Ok f)
          | (m2, Ok None) =>
              match find_region_with_space (field_space_store res1)
                      (top_regions m2) with
              | Some reg =>
                  let '(res2, fid) := allocate_in (field_space reg) res1 in
                  (res2, m2, Ok (reg, fid))
              | None => allocate_new_region res1 m2
              end
          | (m2, Raise e) => (res1, m2, Raise e)
          | (m2, Diverge) => (res1, m2, Diverge)
          end
      end.

    (** [FieldManager.allocate_field] *)
Definition allocate_field (agreed : list (Z * Z)) (res : Resources) (m : t)
        : Resources * t * result FieldRef :=
      match exchange agreed res m with
      | (res1, m1, Ok _) => serve res1 m1
      | (res1, m1, Raise e) => (res1, m1, Raise e)
      | (res1, m1, Diverge) => (res1, m1, Diverge)
      end.
End with_legion.
End FieldManager.

(** ** Python dicts whose iteration order matters

    An insertion-ordered association list without duplicate keys. *)

Section dict.
Context {K V : Type} `{EqDecision K}.

Fixpoint dict_get (k : K) (d : list (K * V)) : option V :=
    match d with
    | [] => None
    | (k', v) :: rest => if decide (k = k') then Some v else dict_get k rest
    end.

Definition dict_mem (k : K) (d : list (K * V)) : bool :=
    bool_decide (is_Some (dict_get k d)).

  (** [d[k] = v]: in place for a known key, at the end for a new one *)
Fixpoint dict_set (k : K) (v : V) (d : list (K * V)) : list (K * V) :=
    match d with
    | [] => [(k, v)]
    | (k', v') :: rest =>
        if decide (k = k') then (k, v) :: rest else (k', v') :: dict_set k v rest
    end.

  (** [del d[k]] *)
Fixpoint dict_del (k : K) (d : list (K * V)) : list (K * V) :=
    match d with
    | [] => []
    | (k', v') :: rest =>
        if decide (k = k') then rest else (k', v') :: dict_del k rest
    end.

Definition dict_values (d : list (K * V)) : list V := d.*2.
End dict.

(** ** What [allocate_field] and [attach_array] hand to their callers *)

(** [Field]: the owning handle whose finalizer returns the field *)
Record Field : Type := mkField {
  f_region : Region;
  field_id : Z;
  f_dtype : DType;
  f_shape : Shape;
  own : bool;
}.

(** Modelled from the spec: [store.RegionField], a view of a field *)
Record RegionField : Type := mkRegionField {
  rf_region : Region;
  rf_field : Field;
  rf_shape : Shape;
}.

(** Modelled from the spec: [store.Store], of which only the constructor
    arguments matter here *)
Record Store : Type := mkStore {
  s_shape : Shape;
  s_dtype : DType;
  storage : RegionField;
}.

(** A NumPy array as [attach_array] sees it: [array.ctypes.data],
    [array.nbytes], [array.shape], and whether [array.base] is an ndarray. *)
Record NDArray : Type := mkNDArray {
  data : Z;
  nbytes : Z;
  a_shape : Shape;
  base_is_ndarray : bool;
}.

(** ** Attachment *)

Module Attachment.
Record t : Type := mk {
    ptr : Z;
    extent : Z;
    end_ : Z;
    count : Z;
    region : Region;
    field : Field;
  }.

Definition init (ptr extent : Z) (region : Region) (field : Field) : t :=
    mk ptr extent (ptr + extent - 1) 1 region field.

Definition overlaps (self other : t) : bool :=
    negb (bool_decide (end_ self < ptr other)
          || bool_decide (end_ other < ptr self)).

Definition equals (self other : t) : bool :=
    bool_decide (ptr self = ptr other) && bool_decide (extent self = extent other).

Definition set_count (c : Z) (a : t) : t :=
    mk (ptr a) (extent a) (end_ a) c (region a) (field a).

Definition add_reference (a : t) : t := set_count (count a + 1) a.

  (** [assert self.count > 0; self.count += 1] *)
Definition remove_reference (a : t) : result t :=
    if negb (bool_decide (count a > 0)) then Raise AssertionError
    else Ok (set_count (count a + 1) a).

Definition collectible (a : t) : bool := bool_decide (count a = 0).
End Attachment.

(** ** AttachmentManager *)

Module AttachmentManager.
  (** Only the registry of attachments is modelled; the bookkeeping of
      detachments is not. *)
Record t : Type := mk {
    attachments : option (list ((Z * Z) * Attachment.t));
  }.

Definition init : t := mk (Some []).

Definition attachment_key (array : NDArray) : Z * Z :=
    (data array, nbytes array).

Definition has_attachment (array : NDArray) (am : t) : result bool :=
    match attachments am with
    | None => Raise TypeError
    | Some d => Ok (dict_mem (attachment_key array) d)
    end.

  (** [for other in self._attachments.values(): if other.overlaps(...)] *)
Fixpoint check_aliases (others : list Attachment.t) (a : Attachment.t)
      : result unit :=
    match others with
    | [] => Ok tt
    | other :: rest =>
        if Attachment.overlaps other a then
          if Attachment.equals other a then Raise AssertionError
          else Raise RuntimeError_aliased
        else check_aliases rest a
    end.

Section attach.
    (** [self._runtime] is used through [allocate_field]; the field it
        returns is bound to the buffer by [attach_numpy_array]. *)
Context {R : Type}
      (allocate_field : Shape -> DType -> R -> R * result RegionField)
      (attach_numpy_array : RegionField -> NDArray -> bool -> R -> R).

Definition attach_array (array : NDArray) (dtype : DType) (share : bool)
        (rt : R) (am : t) : R * t * result Store :=
      if base_is_ndarray array then (rt, am, Raise AssertionError)
      else
        let key := attachment_key array in
        match attachments am with
        | None => (rt, am, Raise TypeError)
        | Some d =>
            match dict_get key d with
            | None =>
                match allocate_field (a_shape array) dtype rt with
                | (rt1, Ok region_field) =>
                    let rt2 := attach_numpy_array region_field array share rt1 in
                    let attachment :=
                      Attachment.init key.1 key.2 (rf_region region_field)
                                      (rf_field region_field) in
                    match check_aliases (dict_values d) attachment with
                    | Ok _ =>
                        (rt2, mk (Some (dict_set key attachment d)),
                         Ok (mkStore (a_shape array) dtype region_field))
                    | Raise e => (rt2, am, Raise e)
                    | Diverge => (rt2, am, Diverge)
                    end
                | (rt1, Raise e) => (rt1, am, Raise e)
                | (rt1, Diverge) => (rt1, am, Diverge)
                end
            | Some attachment =>
                let attachment' := Attachment.add_reference attachment in
                let region_field :=
                  mkRegionField (Attachment.region attachment')
                                (Attachment.field attachment') (a_shape array) in
                (rt, mk (Some (dict_set key attachment' d)),
                 Ok (mkStore (a_shape array) dtype region_field))
            end
        end.
End attach.

Definition remove_attachment (array : NDArray) (am : t) : t * result unit :=
    let key := attachment_key array in
    match attachments am with
    | None => (am, Raise TypeError)
    | Some d =>
        match dict_get key d with
        | None => (am, Raise RuntimeError_no_attachment)
        | Some attachment =>
            match Attachment.remove_reference attachment with
            | Ok attachment' =>
                if Attachment.collectible attachment'
                then (mk (Some (dict_del key d)), Ok tt)
                else (mk (Some (dict_set key attachment' d)), Ok tt)
            | Raise e => (am, Raise e)
            | Diverge => (am, Diverge)
            end
        end
    end.

  (** [destroy] ends with [self._attachments = None] *)
Definition destroy (am : t) : t := mk None.
End AttachmentManager.

(** ** Small Python built-ins on lists *)

(** [l.index(x)]: the first position of [x] *)
Definition py_index {A} `{EqDecision A} (x : A) (l : list A) : option nat :=
  fst <$> list_find (fun y => y = x) l.

(** [max(l)] of a non-empty list *)
Definition py_max (l : list Z) : option Z :=
  match l with
  | [] => None
  | x :: rest => Some (fold_left Z.max rest x)
  end.

(** Modelled from the spec: [Shape.volume()], the product of the extents *)
Definition volume (s : Shape) : Z := fold_left Z.mul s 1.

(** Modelled from the spec: [Shape.__floordiv__], extent by extent; [//]
    raises on a zero divisor. *)
Definition shape_floordiv (s t : Shape) : result Shape :=
  if bool_decide (0 ∈ take (length s) t) then Raise ZeroDivisionError
  else Ok (zip_with (fun x y => x `div` y) s t).

(** ** PartitionManager *)

Module PartitionManager.
Record t : Type := mk {
    num_pieces : Z;
    min_shard_volume : Z;
    launch_spaces : gmap Shape (option Shape);
    piece_factors : list Z;
  }.

Definition set_launch_spaces v (pm : t) : t :=
    mk (num_pieces pm) (min_shard_volume pm) v (piece_factors pm).

  (** [while pieces % p == 0: factors.append(p); pieces = pieces // p].
      The loop runs for ever on [pieces = 0]; otherwise every round at least
      halves [|pieces|], so [fuel] beyond [|pieces|] is never used up. *)
Fixpoint strip (fuel : nat) (p pieces : Z) (factors : list Z)
      : option (Z * list Z) :=
    match fuel with
    | O => None
    | S fuel' =>
        if bool_decide (pieces `mod` p = 0)
        then strip fuel' p (pieces `div` p) (factors ++ [p])
        else Some (pieces, factors)
    end.

Definition strip_all (pieces : Z) : option (Z * list Z) :=
    let fuel := S (Z.to_nat (Z.abs pieces)) in
    '(pieces, factors) ← strip fuel 2 pieces [];
    '(pieces, factors) ← strip fuel 3 pieces factors;
    '(pieces, factors) ← strip fuel 5 pieces factors;
    '(pieces, factors) ← strip fuel 7 pieces factors;
    strip fuel 11 pieces factors.

  (** [PartitionManager.__init__]; the two tunables are read from the core
      context. *)
Definition init (num_pieces min_shard_volume : Z) : result t :=
    match strip_all num_pieces with
    | None => Diverge
    | Some (pieces, factors) =>
        if bool_decide (pieces > 1) then Raise ValueError
        else Ok (mk num_pieces min_shard_volume ∅ (reverse factors))
    end.

  (** The pruning loop of [compute_launch_shape] *)
Fixpoint prune (shape : Shape) (dim : nat) (temp_shape : list Z)
      (temp_dims : list nat) (vol : Z) : result (list Z * list nat * Z) :=
    match shape with
    | [] => Ok (temp_shape, temp_dims, vol)
    | ext :: rest =>
        if negb (bool_decide (ext > 0)) then Raise AssertionError
        else if bool_decide (ext = 1) then prune rest (S dim) temp_shape temp_dims vol
        else prune rest (S dim) (temp_shape ++ [ext]) (temp_dims ++ [dim]) (vol * ext)
    end.

  (** [while max_pieces % n1 != 0: n1 -= 1] *)
Fixpoint search_down (fuel : nat) (max_pieces n1 : Z) : result Z :=
    match fuel with
    | O => Diverge
    | S fuel' =>
        if bool_decide (n1 = 0) then Raise ZeroDivisionError
        else if bool_decide (max_pieces `mod` n1 = 0) then Ok n1
        else search_down fuel' max_pieces (n1 - 1)
    end.

  (** [while max_pieces % n2 != 0: n2 += 1]; above [max_pieces] nothing
      divides it any more and the loop does not end. *)
Fixpoint search_up (fuel : nat) (max_pieces n2 : Z) : result Z :=
    match fuel with
    | O => Diverge
    | S fuel' =>
        if bool_decide (n2 = 0) then Raise ZeroDivisionError
        else if bool_decide (max_pieces `mod` n2 = 0) then Ok n2
        else search_up fuel' max_pieces (n2 + 1)
    end.

Section with_legion.
Context `{Legion}.

    (** The two dimensional case, for [volume >= max_pieces] *)
Definition square_pieces (max_pieces : Z) (s0 s1 : Z) : result (list Z) :=
      let swap := bool_decide (s0 > s1) in
      let nx := if swap then s1 else s0 in
      let ny := if swap then s0 else s1 in
      let n1 := Z.max (sqrt_floor (max_pieces * nx) ny) 1 in
      match search_down (Z.to_nat n1) max_pieces n1 with
      | Ok n1 =>
          let n2 := sqrt_ceil (max_pieces * nx) ny in
          match search_up (Z.to_nat (max_pieces - n2 + 1)) max_pieces n2 with
          | Ok n2 =>
              let side1 := Z.max (nx `div` n1) (ny `div` (max_pieces `div` n1)) in
              let side2 := Z.max (nx `div` n2) (ny `div` (max_pieces `div` n2)) in
              let px := if bool_decide (side1 <= side2) then n1 else n2 in
              let py := max_pieces `div` px in
              if swap then Ok [Z.min py s0; Z.min px s1]
              else Ok [Z.min px s0; Z.min py s1]
          | Raise e => Raise e
          | Diverge => Diverge
          end
      | Raise e => Raise e
      | Diverge => Diverge
      end.
End with_legion.

  (** [temp_result[i] *= factor] *)
Definition scale (i : nat) (factor : Z) (temp_result : list Z) : list Z :=
    alter (fun r => r * factor) i temp_result.

  (** One round of the loop over the prime factors, three dimensions or
      more: which dimension takes [factor]. *)
Definition choose_dim (factor : Z) (temp_shape temp_result : list Z)
      : result nat :=
    let remaining := zip_with (fun s r => (s + r - 1) `div` r) temp_shape temp_result in
    let last := (length temp_shape - 1)%nat in
    match py_max remaining ≫= fun mx => py_index mx remaining with
    | None => Raise ValueError
    | Some big_dim =>
        if bool_decide (big_dim < last)%nat then Ok big_dim
        else if bool_decide (length remaining = 1%nat)
                || bool_decide ((remaining !!! big_dim) `div` factor >= 32)
        then Ok big_dim
        else
          match py_max (take (length remaining - 1) remaining)
                  ≫= fun mx => py_index mx remaining with
          | None => Raise ValueError
          | Some big_dim =>
              if bool_decide ((remaining !!! big_dim) `div` factor > 0)
              then Ok big_dim
              else Ok last
          end
    end.

  (** [for factor in self._piece_factors: ...] *)
Fixpoint spread (factors : list Z) (max_pieces : Z) (temp_shape : list Z)
      (factor_prod : Z) (temp_result : list Z) : result (list Z) :=
    match factors with
    | [] => Ok temp_result
    | factor :: rest =>
        if bool_decide (factor * factor_prod > max_pieces) then Ok temp_result
        else
          match choose_dim factor temp_shape temp_result with
          | Ok i =>
              spread rest max_pieces temp_shape (factor_prod * factor)
                     (scale i factor temp_result)
          | Raise e => Raise e
          | Diverge => Diverge
          end
    end.

  (** Project back onto the original number of dimensions *)
Definition project (ndim : nat) (temp_dims : list nat) (temp_result : list Z)
      : Shape :=
    (fun dim => match py_index dim temp_dims with
                | Some i => temp_result !!! i
                | None => 1
                end) <$> seq 0 ndim.

Section with_legion.
Context `{Legion}.

    (** The piece counts of the pruned shape, for [max_pieces] pieces *)
Definition split (pm : t) (max_pieces vol : Z) (temp_shape : list Z)
        : result (list Z) :=
      match temp_shape with
      | [] => Ok []
      | [s0] => Ok [Z.min s0 max_pieces]
      | [s0; s1] =>
          if bool_decide (vol < max_pieces) then Ok temp_shape
          else square_pieces max_pieces s0 s1
      | _ =>
          spread (piece_factors pm) max_pieces temp_shape 1
                 (replicate (length temp_shape) 1)
      end.

    (** [PartitionManager.compute_launch_shape]; [None] is the answer "no
        parallel launch". *)
Definition compute_launch_shape (shape : Shape) (pm : t)
        : t * result (option Shape) :=
      if negb (bool_decide (num_pieces pm > 0)) then (pm, Raise AssertionError)
      else if bool_decide (num_pieces pm = 1) then (pm, Ok None)
      else if forallb (fun ext => bool_decide (ext <= 1)) shape then (pm, Ok None)
      else
        match launch_spaces pm !! shape with
        | Some cached => (pm, Ok cached)
        | None =>
            match prune shape 0 [] [] 1 with
            | Ok (temp_shape, temp_dims, vol) =>
                if bool_decide (min_shard_volume pm = 0)
                then (pm, Raise ZeroDivisionError)
                else
                  let max_pieces :=
                    (vol + min_shard_volume pm - 1) `div` min_shard_volume pm in
                  if negb (bool_decide (max_pieces > 0))
                  then (pm, Raise AssertionError)
                  else if bool_decide (max_pieces = 1)
                  then (set_launch_spaces (<[shape := None]> (launch_spaces pm)) pm,
                        Ok None)
                  else
                    let max_pieces := num_pieces pm in
                    match temp_shape with
                    | [] => (pm, Ok (Some (replicate (length shape) 1)))
                    | _ =>
                        match split pm max_pieces vol temp_shape with
                        | Ok temp_result =>
                            if negb (bool_decide (length temp_result = length temp_shape))
                            then (pm, Raise AssertionError)
                            else
                              let result := project (length shape) temp_dims temp_result in
                              (set_launch_spaces
                                 (<[shape := Some result]> (launch_spaces pm)) pm,
                               Ok (Some result))
                        | Raise e => (pm, Raise e)
                        | Diverge => (pm, Diverge)
                        end
                    end
            | Raise e => (pm, Raise e)
            | Diverge => (pm, Diverge)
            end
        end.
End with_legion.

  (** [compute_tile_shape] *)
Definition compute_tile_shape (shape launch_space : Shape) : result Shape :=
    if negb (bool_decide (length shape = length launch_space))
    then Raise AssertionError
    else if bool_decide (0 ∈ launch_space) then Raise ZeroDivisionError
    else Ok (zip_with (fun x y => (x + y - 1) `div` y) shape launch_space).

  (** [use_complete_tiling] *)
Definition use_complete_tiling (shape tile_shape : Shape) (pm : t)
      : result bool :=
    match shape_floordiv shape tile_shape with
    | Ok q =>
        let num_tiles := volume q in
        Ok (negb (bool_decide (num_tiles > 256)
                  && bool_decide (num_tiles > 16 * num_pieces pm)))
    | Raise e => Raise e
    | Diverge => Diverge
    end.
End PartitionManager.

(** ** Runtime *)

Module Runtime.
Record t : Type := mk {
    attachment_manager : AttachmentManager.t;
    partition_manager : PartitionManager.t;
    resources : Resources;
    field_managers : option (gmap (Shape * DType) FieldManager.t);
    destroyed : bool;
    max_field_reuse_size : Z;
    max_field_reuse_frequency : Z;
    (** the buffers bound by [attach_numpy_array], oldest first *)
    bound : list (FieldRef * (Z * Z) * bool);
  }.

Definition set_attachment_manager v (rt : t) : t :=
    mk v (partition_manager rt) (resources rt) (field_managers rt) (destroyed rt)
       (max_field_reuse_size rt) (max_field_reuse_frequency rt) (bound rt).
Definition set_partition_manager v (rt : t) : t :=
    mk (attachment_manager rt) v (resources rt) (field_managers rt) (destroyed rt)
       (max_field_reuse_size rt) (max_field_reuse_frequency rt) (bound rt).
Definition set_resources v (rt : t) : t :=
    mk (attachment_manager rt) (partition_manager rt) v (field_managers rt)
       (destroyed rt) (max_field_reuse_size rt) (max_field_reuse_frequency rt)
       (bound rt).
Definition set_field_managers v (rt : t) : t :=
    mk (attachment_manager rt) (partition_manager rt) (resources rt) v
       (destroyed rt) (max_field_reuse_size rt) (max_field_reuse_frequency rt)
       (bound rt).
Definition set_destroyed v (rt : t) : t :=
    mk (attachment_manager rt) (partition_manager rt) (resources rt)
       (field_managers rt) v (max_field_reuse_size rt)
       (max_field_reuse_frequency rt) (bound rt).
Definition set_bound v (rt : t) : t :=
    mk (attachment_manager rt) (partition_manager rt) (resources rt)
       (field_managers rt) (destroyed rt) (max_field_reuse_size rt)
       (max_field_reuse_frequency rt) v.

  (** [Runtime.__init__]: the tunables come from the core context, the
      first tree id from Legion. *)
Definition init (num_pieces min_shard_volume first_tree_id : Z) : result t :=
    match PartitionManager.init num_pieces min_shard_volume with
    | Ok pm =>
        Ok (mk AttachmentManager.init pm
               (mkResources (Some ∅) (Some ∅) [] first_tree_id [])
               (Some ∅) false 256 32 [])
    | Raise e => Raise e
    | Diverge => Diverge
    end.

  (** What [Runtime.destroy] leaves behind once it has completed. *)
Definition destroy (rt : t) : t :=
    mk (AttachmentManager.destroy (attachment_manager rt))
       (partition_manager rt)
       (set_index_spaces None (set_field_spaces None (resources rt)))
       None true (max_field_reuse_size rt) (max_field_reuse_frequency rt)
       (bound rt).

Section with_legion.
Context `{Legion}.

    (** [Runtime.allocate_field] *)
Definition allocate_field (agreed : list (Z * Z)) (shape : Shape)
        (dtype : DType) (rt : t) : t * result RegionField :=
      if destroyed rt then (rt, Raise AssertionError)
      else
        match field_managers rt with
        | None => (rt, Raise TypeError)
        | Some managers =>
            let key := (shape, dtype) in
            let created :=
              match managers !! key with
              | Some m => Ok m
              | None =>
                  FieldManager.init (max_field_reuse_size rt)
                                    (max_field_reuse_frequency rt) shape dtype
              end in
            match created with
            | Ok m =>
                let '(res, m', r) :=
                  FieldManager.allocate_field agreed (resources rt) m in
                let rt' :=
                  set_field_managers (Some (<[key := m']> managers))
                                     (set_resources res rt) in
                match r with
                | Ok (region, fid) =>
                    (rt', Ok (mkRegionField region
                                (mkField region fid dtype shape true) shape))
                | Raise e => (rt', Raise e)
                | Diverge => (rt', Diverge)
                end
            | Raise e => (rt, Raise e)
            | Diverge => (rt, Diverge)
            end
        end.

    (** Modelled from the spec: [RegionField.attach_numpy_array] binds the
        buffer to the field; the binding is recorded. *)
Definition attach_numpy_array (rf : RegionField) (array : NDArray)
        (share : bool) (rt : t) : t :=
      set_bound (bound rt ++ [((rf_region rf, field_id (rf_field rf)),
                               AttachmentManager.attachment_key array, share)]) rt.

    (** [Runtime.attach_array] *)
Definition attach_array (agreed : list (Z * Z)) (array : NDArray)
        (dtype : DType) (share : bool) (rt : t) : t * result Store :=
      let '(rt', am', r) :=
        AttachmentManager.attach_array (allocate_field agreed)
          attach_numpy_array array dtype share rt (attachment_manager rt) in
      (set_attachment_manager am' rt', r).
End with_legion.

  (** [Runtime.free_field] *)
Definition free_field (region : Region) (field_id : Z) (dtype : DType)
      (shape : Shape) (rt : t) : t * result unit :=
    if destroyed rt then (rt, Ok tt)
    else
      match field_managers rt with
      | None => (rt, Ok tt)
      | Some managers =>
          match managers !! (shape, dtype) with
          | None => (rt, Raise KeyError)
          | Some m =>
              (set_field_managers
                 (Some (<[(shape, dtype) :=
                            FieldManager.free_field m region field_id false]>
                          managers)) rt,
               Ok tt)
          end
      end.

  (** [Runtime.has_attachment] *)
Definition has_attachment (array : NDArray) (rt : t) : result bool :=
    AttachmentManager.has_attachment array (attachment_manager rt).

  (** [AttachmentManager.remove_attachment] on the runtime's registry *)
Definition remove_attachment (array : NDArray) (rt : t) : t * result unit :=
    let '(am', r) :=
      AttachmentManager.remove_attachment array (attachment_manager rt) in
    (set_attachment_manager am' rt, r).
End Runtime.

(** [Field.__del__] *)
Definition Field_del (f : Field) (rt : Runtime.t) : Runtime.t * result unit :=
  if own f then Runtime.free_field (f_region f) (field_id f) (f_dtype f) (f_shape f) rt
  else (rt, Ok tt).

(** ** A concrete Legion

    Field ids are handed out above every id in use, and the square roots
    are exact. *)
Definition exact_legion : Legion := {|
  LEGION_MAX_FIELDS := 4;
  fresh_field_id ids := 1 + foldr Z.max 0 ids;
  sqrt_floor a b := Z.sqrt (a `div` b);
  sqrt_ceil a b := Z.sqrt_up ((a + b - 1) `div` b);
|}.

(** ** AttachmentManager: the bookkeeping of detachments

    The detach operations and the futures [Runtime.dispatch] returns for
    them are Legion's; the manager only files them. *)

(** An array as [detach_array] sees it: besides what [attach_array] reads,
    whether [array.base] is [None]. *)
Record Detachable : Type := mkDetachable {
  d_array : NDArray;
  base_is_none : bool;
}.

Module Detachments.
Section with_ops.
Context {Op Future : Type} `{EqDecision Future}.

Record t : Type := mk {
    attachment_manager : AttachmentManager.t;
    next_detachment_key : Z;
    registered_detachments : list (Z * Op);
    deferred_detachments : list (Detachable * Field * Op);
    pending_detachments : list (Future * NDArray);
  }.

Definition set_attachment_manager v (s : t) : t :=
    mk v (next_detachment_key s) (registered_detachments s)
       (deferred_detachments s) (pending_detachments s).
Definition set_next_detachment_key v (s : t) : t :=
    mk (attachment_manager s) v (registered_detachments s)
       (deferred_detachments s) (pending_detachments s).
Definition set_registered_detachments v (s : t) : t :=
    mk (attachment_manager s) (next_detachment_key s) v
       (deferred_detachments s) (pending_detachments s).
Definition set_deferred_detachments v (s : t) : t :=
    mk (attachment_manager s) (next_detachment_key s) (registered_detachments s)
       v (pending_detachments s).
Definition set_pending_detachments v (s : t) : t :=
    mk (attachment_manager s) (next_detachment_key s) (registered_detachments s)
       (deferred_detachments s) v.

  (** [AttachmentManager.__init__] *)
Definition init : t := mk AttachmentManager.init 0 [] [] [].

  (** [register_detachment] *)
Definition register_detachment (detach : Op) (s : t) : t * Z :=
    let key := next_detachment_key s in
    (set_next_detachment_key (key + 1)
       (set_registered_detachments
          (dict_set key detach (registered_detachments s)) s),
     key).

  (** [remove_detachment]; the lookup of an unknown key raises. *)
Definition remove_detachment (detach_key : Z) (s : t) : t * result Op :=
    match dict_get detach_key (registered_detachments s) with
    | None => (s, Raise KeyError)
    | Some detach =>
        (set_registered_detachments
           (dict_del detach_key (registered_detachments s)) s,
         Ok detach)
    end.

Section with_runtime.
    (** [self._runtime.dispatch] and [future.is_ready] *)
Context {R : Type}
      (dispatch : Op -> R -> R * Future)
      (is_ready : Future -> R -> bool).

    (** [detach_array]; the field is only kept alive by the future. *)
Definition detach_array (array : Detachable) (field : Field) (detach : Op)
        (defer : bool) (rt : R) (s : t) : R * t * result unit :=
      if defer then
        (rt,
         set_deferred_detachments
           (deferred_detachments s ++ [(array, field, detach)]) s,
         Ok tt)
      else
        let '(rt1, future) := dispatch detach rt in
        if negb (base_is_none array) then (rt1, s, Raise AssertionError)
        else
          let '(am', r) :=
            AttachmentManager.remove_attachment (d_array array)
              (attachment_manager s) in
          let s1 := set_attachment_manager am' s in
          match r with
          | Ok _ =>
              if is_ready future rt1 then (rt1, s1, Ok tt)
              else
                (rt1,
                 set_pending_detachments
                   (dict_set future (d_array array) (pending_detachments s1)) s1,
                 Ok tt)
          | Raise e => (rt1, s1, Raise e)
          | Diverge => (rt1, s1, Diverge)
          end.

    (** [for array, field, detach in detachments: self.detach_array(...)] *)
Fixpoint detach_all (detachments : list (Detachable * Field * Op)) (rt : R)
        (s : t) : R * t * result unit :=
      match detachments with
      | [] => (rt, s, Ok tt)
      | (array, field, detach) :: rest =>
          match detach_array array field detach false rt s with
          | (rt1, s1, Ok _) => detach_all rest rt1 s1
          | out => out
          end
      end.

    (** [perform_detachments] *)
Definition perform_detachments (rt : R) (s : t) : R * t * result unit :=
      detach_all (deferred_detachments s) rt (set_deferred_detachments [] s).

    (** [for future in to_remove: del self._pending_detachments[future]] *)
Fixpoint remove_futures (to_remove : list Future)
        (pending : list (Future * NDArray))
        : list (Future * NDArray) * result unit :=
      match to_remove with
      | [] => (pending, Ok tt)
      | future :: rest =>
          if dict_mem future pending
          then remove_futures rest (dict_del future pending)
          else (pending, Raise KeyError)
      end.

    (** [prune_detachments] *)
Definition prune_detachments (rt : R) (s : t) : t * result unit :=
      let to_remove :=
        filter (fun future => is_ready future rt = true)
               (pending_detachments s).*1 in
      let '(pending, r) := remove_futures to_remove (pending_detachments s) in
      (set_pending_detachments pending s, r).
End with_runtime.
End with_ops.
Arguments t : clear implicits.
End Detachments.

(** ** Runtime: names, projection ids and the window of operations *)

Module Naming.
  (** [Runtime.get_unique_name], on the counter [_unique_id] *)
Definition get_unique_name (unique_id : Z) : Z * string :=
    (unique_id + 1, "x" +:+ pretty unique_id).

  (** The names of [n] calls in a row *)
Fixpoint get_unique_names (n : nat) (unique_id : Z) : Z * list string :=
    match n with
    | O => (unique_id, [])
    | S n' =>
        let '(unique_id1, name) := get_unique_name unique_id in
        let '(unique_id2, names) := get_unique_names n' unique_id1 in
        (unique_id2, name :: names)
    end.
End Naming.

Module Projection.
    (** [for dim, val in enumerate(mask): proj_id = proj_id | (int(val) << dim)] *)
Fixpoint mask_bits (mask : list bool) (dim : Z) (proj_id : Z) : Z :=
      match mask with
      | [] => proj_id
      | val :: rest =>
          mask_bits rest (dim + 1) (Z.lor proj_id (Z.shiftl (Z.b2z val) dim))
      end.

    (** The id [get_projection] asks the context for *)
Definition projection_code (src_dim tgt_dim : Z) (mask : list bool) : Z :=
      let proj_id := mask_bits mask 0 0 in
      Z.lor (Z.lor (Z.shiftl proj_id 8) (Z.shiftl src_dim 4)) tgt_dim.

Section with_context.
    (** [self.core_context.get_projection_id] *)
Context (get_projection_id : Z -> Z).

    (** [Runtime.get_projection] *)
Definition get_projection (src_dim tgt_dim : Z) (mask : list bool) : Z :=
      get_projection_id (projection_code src_dim tgt_dim mask).
End with_context.

    (** [math.factorial] *)
Fixpoint factorial (n : nat) : Z :=
      match n with
      | O => 1
      | S n' => Z.of_nat n * factorial n'
      end.

    (** [code = [(seq[idx + 1 :] < val).sum() for idx, val in enumerate(seq)]] *)
Fixpoint lehmer (seq : list Z) : list Z :=
      match seq with
      | [] => []
      | val :: rest =>
          Z.of_nat (length (filter (fun x => x < val) rest)) :: lehmer rest
      end.

Section with_numpy.
Context `{Numpy}.

    (** [[val * math.factorial(dim - idx - 1) for idx, val in enumerate(code)]],
        from position [idx] on; the counts are [int64] scalars. *)
Fixpoint weights (dim idx : nat) (code : list Z) : result (list Z) :=
      match code with
      | [] => Ok []
      | val :: rest =>
          match int64_mul val (factorial (dim - idx - 1)) with
          | Ok w =>
              match weights dim (S idx) rest with
              | Ok ws => Ok (w :: ws)
              | Raise e => Raise e
              | Diverge => Diverge
              end
          | Raise e => Raise e
          | Diverge => Diverge
          end
      end.

    (** [sum(...)]: from 0, left to right *)
Fixpoint py_sum (acc : Z) (l : list Z) : result Z :=
      match l with
      | [] => Ok acc
      | x :: rest =>
          match int64_add acc x with
          | Ok acc' => py_sum acc' rest
          | Raise e => Raise e
          | Diverge => Diverge
          end
      end.

    (** The factoradic number [get_transpose] computes for [seq] and then
        puts into its projection id *)
Definition factoradic (seq : list Z) : result Z :=
      match weights (length seq) 0 (lehmer seq) with
      | Ok ws => py_sum 0 ws
      | Raise e => Raise e
      | Diverge => Diverge
      end.
End with_numpy.
End Projection.

Module Window.
Section with_schedule.
    (** [self._schedule(ops)], which partitions and launches the batch *)
Context {Op R : Type} (schedule : list Op -> R -> R).

    (** [_outstanding_ops] and [_window_size] *)
Record t : Type := mk {
      outstanding_ops : list Op;
      window_size : Z;
    }.

    (** What [Runtime.__init__] sets *)
Definition init : t := mk [] 1.

    (** [Runtime.submit] *)
Definition submit (op : Op) (rt : R) (s : t) : R * t :=
      let ops := outstanding_ops s ++ [op] in
      if bool_decide (Z.of_nat (length ops) >= window_size s)
      then (schedule ops rt, mk [] (window_size s))
      else (rt, mk ops (window_size s)).

    (** Submitting the operations of a list one after the other *)
Definition submit_all (ops : list Op) (rt : R) (s : t) : R * t :=
      fold_left (fun st op => submit op st.1 st.2) ops (rt, s).
End with_schedule.
Arguments t : clear implicits.
End Window.

(** ** A concrete numpy

    Sums and products wrap round at 64 bits; a factor that is no [int64]
    is refused. *)
Definition wrap64 (x : Z) : Z := (x + 2 ^ 63) `mod` 2 ^ 64 - 2 ^ 63.

Definition wrapping_numpy : Numpy := {|
  int64_mul a b :=
    if bool_decide (- 2 ^ 63 <= b < 2 ^ 63) then Ok (wrap64 (a * b))
    else Raise OverflowError;
  int64_add a b := Ok (wrap64 (a + b));
|}.

(** * The vocabulary of the properties *)

(** [q] is the ceiling of [a / b] *)
Definition is_ceil (a b q : Z) : Prop := (q - 1) * b < a <= q * b.

(** Append [l1] to the free queue and [l2] to the freed list, where the pool
    still has them. *)
Definition requeue (l1 l2 : list FieldRef) (m : FieldManager.t) : FieldManager.t :=
  FieldManager.mk (FieldManager.shape m) (FieldManager.dtype m)
    ((fun q => q ++ l1) <$> FieldManager.free_fields m)
    ((fun l => l ++ l2) <$> FieldManager.freed_fields m)
    (FieldManager.matches m) (FieldManager.match_counter m)
    (FieldManager.match_frequency m) (FieldManager.top_regions m).

(** The ids of [pending] fit the buffers of a match. *)
Definition storable (pending : list FieldRef) : bool :=
  forallb (fun f => FieldMatch.fits_int (tree_id f.1) && FieldMatch.fits_int f.2)
          pending.

(** The fields sitting in the slots of [ordered_fields] *)
Definition filled (ordered : list (option FieldRef)) : list FieldRef :=
  omap id ordered.

(** What a pool keeps apart from its three lists *)
Definition frame (m m' : FieldManager.t) : Prop :=
  FieldManager.shape m' = FieldManager.shape m /\
  FieldManager.dtype m' = FieldManager.dtype m /\
  FieldManager.match_counter m' = FieldManager.match_counter m /\
  FieldManager.match_frequency m' = FieldManager.match_frequency m /\
  FieldManager.top_regions m' = FieldManager.top_regions m.

(** The fields a pool holds for reuse: free queue, freed list, and the
    submissions of the matches in flight. *)
Definition contents (m : FieldManager.t) : list FieldRef :=
  default [] (FieldManager.free_fields m)
  ++ default [] (FieldManager.freed_fields m)
  ++ concat (FieldMatch.fields <$> FieldManager.matches m).

(** The field, if any, that resolving the matches in flight hands out *)
Definition issued (r : result (option FieldRef)) : list FieldRef :=
  match r with Ok (Some f) => [f] | _ => [] end.

(** The reference count of the attachment registered under [key] *)
Definition attachment_count (key : Z * Z) (rt : Runtime.t) : option Z :=
  d ← AttachmentManager.attachments (Runtime.attachment_manager rt);
  Attachment.count <$> dict_get key d.

(** Every attachment is filed under its own pointer and extent. *)
Definition registry_ok (d : list ((Z * Z) * Attachment.t)) : Prop :=
  forall k a, (k, a) ∈ d -> k = (Attachment.ptr a, Attachment.extent a).

(** The number of tiles a tiling of [shape] by [tile_shape] produces: along
    each dimension the tiles cover the extent, the last one possibly only in
    part, as in [compute_tile_shape]. *)
Definition tiles_produced (shape tile_shape : Shape) : Z :=
  volume (zip_with (fun x y => (x + y - 1) `div` y) shape tile_shape).

(** The number of whole tiles of that tiling: along each dimension only
    the tiles that lie inside the extent. *)
Definition whole_tiles (shape tile_shape : Shape) : Z :=
  volume (zip_with (fun x y => x `div` y) shape tile_shape).

(** The launch shape of [shape] that gives the pruned dimensions the piece
    counts [pieces], in order, and every dimension of extent 1 one piece. *)
Fixpoint expand (shape : Shape) (pieces : list Z) : Shape :=
  match shape with
  | [] => []
  | ext :: rest =>
      if bool_decide (ext = 1) then 1 :: expand rest pieces
      else match pieces with
           | p :: pieces' => p :: expand rest pieces'
           | [] => 1 :: expand rest []
           end
  end.

(** [shape] has extent [e], not 1, in dimension [i], and 1 elsewhere. *)
Definition one_dim (shape : Shape) (i : nat) (e : Z) : Prop :=
  shape !! i = Some e /\ e <> 1 /\
  forall j x, shape !! j = Some x -> j <> i -> x = 1.

(** What a launch shape of [shape] for [n] pieces has to satisfy. *)
Definition launch_ok (n : Z) (shape r : Shape) : Prop :=
  length r = length shape /\
  Forall (fun p => 1 <= p) r /\
  volume r <= n /\
  forall i e, one_dim shape i e ->
    r = <[i := Z.min e n]> (replicate (length shape) 1).

(** The invariant of a partition manager: its factors are positive and
    every launch shape it remembers is a good one. *)
Definition pm_inv (pm : PartitionManager.t) : Prop :=
  Forall (fun f => 1 <= f) (PartitionManager.piece_factors pm) /\
  forall shape r,
    PartitionManager.launch_spaces pm !! shape = Some (Some r) ->
    launch_ok (PartitionManager.num_pieces pm) shape r.

(** A field the pool can account for: its region is one of the pool's and
    its id one of the ids of the region's field space. *)
Definition known (res : Resources) (m : FieldManager.t) (f : FieldRef) : Prop :=
  f.1 ∈ FieldManager.top_regions m /\
  f.2 ∈ FieldSpace.fields (field_space_store res !!! field_space f.1).

(** The field spaces of the runtime: every address in the dict points into
    the store, and no field space lists an id twice. *)
Definition res_wf (res : Resources) : Prop :=
  (forall d dt a, field_spaces res = Some d -> d !! dt = Some a ->
     (a < length (field_space_store res))%nat) /\
  Forall (fun fs => NoDup (FieldSpace.fields fs)) (field_space_store res).

(** The regions of a pool were created by Legion, on field spaces of the
    store. *)
Definition regions_ok (res : Resources) (m : FieldManager.t) : Prop :=
  forall r, r ∈ FieldManager.top_regions m ->
    tree_id r < next_tree_id res /\
    (field_space r < length (field_space_store res))%nat.

(** The field, if any, that a call of [allocate_field] hands out *)
Definition handed (r : result FieldRef) : list FieldRef :=
  match r with Ok f => [f] | _ => [] end.

(** What one call does to the pool: the fields it hands out ([out]) or
    keeps are fields the pool had, or new ones, each new one once and none
    of them accounted for before. *)
Definition alloc_post (res : Resources) (m : FieldManager.t)
    (res' : Resources) (m' : FieldManager.t) (out : list FieldRef) : Prop :=
  res_wf res' /\ regions_ok res' m' /\
  (forall f, known res m f -> known res' m' f) /\
  exists new : list FieldRef,
    out ++ contents m' ⊆+ contents m ++ new /\
    NoDup new /\
    forall f, f ∈ new -> known res' m' f /\ ~ known res m f.

(** Field spaces and tree ids are the same. *)
Definition same_store (res res' : Resources) : Prop :=
  field_space_store res' = field_space_store res /\
  next_tree_id res' = next_tree_id res /\
  field_spaces res' = field_spaces res.

(** The invariant of a pool and the fields [held] by its consumers: every
    field is in one place only, and the pool can account for it. *)
Definition pool_inv (res : Resources) (m : FieldManager.t)
    (held : list FieldRef) : Prop :=
  res_wf res /\ regions_ok res m /\
  NoDup (held ++ contents m) /\
  forall f, f ∈ held ++ contents m -> known res m f.

(** The numbers [PartitionManager.__init__] can factor: products of powers
    of the five primes it tries. *)
Definition smooth_product (k2 k3 k5 k7 k11 : nat) : Z :=
  2 ^ Z.of_nat k2 * 3 ^ Z.of_nat k3 * 5 ^ Z.of_nat k5 * 7 ^ Z.of_nat k7
  * 11 ^ Z.of_nat k11.

(** The registry's invariant: every attachment is filed under its own
    pointer and extent, ends where its extent says, and is referenced at
    least once; no key is listed twice; and no two entries overlap. *)
Definition registry_disjoint (d : list ((Z * Z) * Attachment.t)) : Prop :=
  (forall k a, (k, a) ∈ d ->
     k = (Attachment.ptr a, Attachment.extent a) /\
     Attachment.end_ a = Attachment.ptr a + Attachment.extent a - 1 /\
     1 <= Attachment.count a) /\
  NoDup d.*1 /\
  forall i j ka kb a b,
    i <> j -> d !! i = Some (ka, a) -> d !! j = Some (kb, b) ->
    Attachment.overlaps a b = false.

Section registries.
Context {R : Type}
  (allocate_field : Shape -> DType -> R -> R * result RegionField)
  (attach_numpy_array : RegionField -> NDArray -> bool -> R -> R).

(** The attachment managers in use: a fresh one, and what [attach_array]
    and [remove_attachment] make of one, whatever they return. *)
Inductive registered : AttachmentManager.t -> Prop :=
| registered_init : registered AttachmentManager.init
| registered_attach array dtype share rt am rt' am' r :
    registered am ->
    AttachmentManager.attach_array allocate_field attach_numpy_array
      array dtype share rt am = (rt', am', r) ->
    registered am'
| registered_remove array am am' r :
    registered am ->
    AttachmentManager.remove_attachment array am = (am', r) ->
    registered am'.
End registries.

(** The number whose digits in the factorial number system are [code],
    in exact arithmetic *)
Fixpoint mixed_radix (code : list Z) : Z :=
  match code with
  | [] => 0
  | val :: rest => val * Projection.factorial (length rest) + mixed_radix rest
  end.

(** Every key under which a detachment is registered lies below the next
    key to be handed out. *)
Definition detachment_keys_fresh {Op Future : Type}
    (s : Detachments.t Op Future) : Prop :=
  forall k, k ∈ (Detachments.registered_detachments s).*1 ->
    k < Detachments.next_detachment_key s.

Section sequences.
Context `{Legion}.

(** The partition managers a program can get hold of: a fresh one, and any
    one after further calls of [compute_launch_shape]. *)
Inductive reachable : PartitionManager.t -> Prop :=
| reachable_init n v pm :
    PartitionManager.init n v = Ok pm -> reachable pm
| reachable_step shape pm pm' r :
    reachable pm ->
    PartitionManager.compute_launch_shape shape pm = (pm', r) ->
    reachable pm'.

(** The sequences of calls on one pool: it starts fresh, on a runtime
    whose field spaces are in order; [allocate_field] may be called at any
    time, its match resolving to any [agreed] list, and what it hands out is
    then held by a consumer; [free_field] is called, on either path, with a
    field a consumer holds, which thereby gives it up.  The third component
    lists the fields held by consumers. *)
Inductive run : Resources -> FieldManager.t -> list FieldRef -> Prop :=
| run_start max_size base shape dtype res m :
    res_wf res ->
    FieldManager.init max_size base shape dtype = Ok m ->
    run res m []
| run_allocate agreed res m held res' m' r :
    run res m held ->
    FieldManager.allocate_field agreed res m = (res', m', r) ->
    run res' m' (handed r ++ held)
| run_free res m held f ordered :
    run res m held ->
    f ∈ held ->
    run res (FieldManager.free_field m f.1 f.2 ordered)
        (filter (fun g => g <> f) held).
(** A partition manager with its memo of launch shapes wiped *)
Definition uncached (pm : PartitionManager.t) : PartitionManager.t :=
  PartitionManager.set_launch_spaces ∅ pm.

(** Every launch shape the manager remembers is the one it would compute
    with an empty memo. *)
Definition cache_exact (pm : PartitionManager.t) : Prop :=
  forall shape v,
    PartitionManager.launch_spaces pm !! shape = Some v ->
    (PartitionManager.compute_launch_shape shape (uncached pm)).2 = Ok v.

End sequences.

(** ** Concrete inputs *)

Section inputs.
#[local] Existing Instance exact_legion.

Definition buffer : NDArray := mkNDArray 4096 80 [10] false.
Definition overlapping_buffer : NDArray := mkNDArray 4100 80 [10] false.
Definition float64 : DType := mkDType 12 8.

Definition pm4 : PartitionManager.t := PartitionManager.mk 4 1 ∅ [2; 2].

Definition region0 : Region := mkRegion 0 [10] 0.
Definition pool0 : FieldManager.t :=
  FieldManager.mk [10] float64 (Some []) (Some [(region0, 1)]) [] 0 1 [region0].
Definition resources0 : Resources :=
  mkResources (Some {[ [10] ]}) (Some {[ float64 := 0%nat ]})
              [FieldSpace.mk [1]] 1 [].

Definition match0 : FieldMatch.t :=
  FieldMatch.mk [(region0, 1); (region0, 2); (region0, 3)]
                [(0, 1); (0, 2); (0, 3)] (Some [(0, 3); (0, 1)]).

Definition pm8 : PartitionManager.t := PartitionManager.mk 8 1 ∅ [2; 2; 2].

Definition resources_empty : Resources := mkResources (Some ∅) (Some ∅) [] 0 [].
Definition pool10 : FieldManager.t :=
  FieldManager.mk [10] float64 (Some []) (Some []) [] 0 2 [].
Definition first_call := FieldManager.allocate_field [] resources_empty pool10.
Definition runtime0 : Runtime.t :=
  Runtime.mk AttachmentManager.init pm4 resources_empty (Some ∅) false 256 32 [].
Definition pool_with_queue : FieldManager.t :=
  FieldManager.mk [10] float64 (Some [(region0, 1); (region0, 2)]) (Some [])
                  [] 0 2 [region0].
Definition stray_match : FieldMatch.t :=
  FieldMatch.mk [(region0, 1)] [(0, 1)] (Some [(0, 7)]).
Definition detachments0 : Detachments.t nat nat := Detachments.init.
Definition pending0 : Detachments.t nat nat :=
  Detachments.mk AttachmentManager.init 0 [] [] [(1%nat, buffer); (2%nat, buffer)].

End inputs.

(** * Properties *)

(** ** The match frequency of a pool *)

Lemma ceil_div_is_ceil (a b : Z) :
  0 < b -> is_ceil a b ((a + b - 1) `div` b).
Proof.
  intros Hb. unfold is_ceil.
  pose proof (Z.div_mod (a + b - 1) b ltac:(lia)) as Hdm.
  pose proof (Z.mod_pos_bound (a + b - 1) b Hb) as Hm.
  nia.
Qed.

Lemma reduce_mul_volume (x : Z) (rest : list Z) :
  reduce_mul (x :: rest) = Ok (volume (x :: rest)).
Proof. unfold volume. simpl. by rewrite Z.mul_1_l. Qed.

(** C6. For a pool of a non-empty shape, created under a positive maximal
    reuse size and a base frequency of at least one: a footprint (volume
    times element size) of at most the maximal reuse size gets the base
    frequency; a larger one exceeds it by the factor [R], the ceiling of
    footprint over maximal size, and gets the ceiling of base frequency
    over [R], which is at least one. *)
Theorem match_frequency_scales (max_size base : Z) (shape : Shape)
    (dtype : DType) :
  0 < max_size -> 1 <= base -> shape <> [] ->
  exists m : FieldManager.t,
    FieldManager.init max_size base shape dtype = Ok m /\
    let footprint := volume shape * size dtype in
    (footprint <= max_size -> FieldManager.match_frequency m = base) /\
    (footprint > max_size ->
       exists R : Z,
         is_ceil footprint max_size R /\ 1 <= R /\
         is_ceil base R (FieldManager.match_frequency m) /\
         1 <= FieldManager.match_frequency m).
Proof.
  intros Hmax Hbase Hshape.
  destruct shape as [|x rest]; [done|].
  unfold FieldManager.init, FieldManager.compute_match_frequency.
  rewrite reduce_mul_volume.
  set (footprint := volume (x :: rest) * size dtype).
  case_bool_decide as Hbig.
  - rewrite bool_decide_eq_false_2 by lia.
    pose proof (ceil_div_is_ceil footprint max_size Hmax) as HR.
    set (R := (footprint + max_size - 1) `div` max_size) in *.
    assert (1 <= R) as HR1 by (unfold is_ceil in HR; nia).
    rewrite bool_decide_eq_true_2 by lia. simpl.
    eexists. split; [reflexivity|]. simpl. split; [lia|].
    intros _. exists R.
    pose proof (ceil_div_is_ceil base R ltac:(lia)) as HF.
    repeat split; try apply HR; try apply HF; try lia.
    unfold is_ceil in HF. nia.
  - eexists. split; [reflexivity|]. simpl. split; [done|lia].
Qed.

(** ** What resolving a match does to a pool *)

Arguments FieldManager.free_field : simpl never.

Lemma requeue_nil (m : FieldManager.t) : requeue [] [] m = m.
Proof.
  destruct m as [? ? [q|] [l|] ? ? ? ?]; unfold requeue; simpl;
    by rewrite ?app_nil_r.
Qed.

Lemma requeue_requeue (a b c d : list FieldRef) (m : FieldManager.t) :
  requeue a b (requeue c d m) = requeue (c ++ a) (d ++ b) m.
Proof.
  destruct m as [? ? [q|] [l|] ? ? ? ?]; unfold requeue; simpl;
    by rewrite ?app_assoc.
Qed.

Lemma free_field_requeue (m : FieldManager.t) (r : Region) (fid : Z) (o : bool) :
  FieldManager.free_field m r fid o
  = if o then requeue [(r, fid)] [] m else requeue [] [(r, fid)] m.
Proof.
  destruct m as [? ? [q|] [l|] ? ? ? ?], o;
    unfold requeue, FieldManager.free_field; simpl; by rewrite ?app_nil_r.
Qed.

Lemma requeue_all_requeue (sub : list FieldRef) (m : FieldManager.t) :
  FieldMatch.requeue_all FieldManager.free_field sub m = requeue [] sub m.
Proof.
  unfold FieldMatch.requeue_all. revert m.
  induction sub as [|f sub IH]; intros m; cbn [fold_left].
  - by rewrite requeue_nil.
  - rewrite IH, free_field_requeue, requeue_requeue. by destruct f.
Qed.

Lemma filled_insert (ordered : list (option FieldRef)) (idx : nat) (f : FieldRef) :
  ordered !! idx = Some None ->
  filled (<[idx := Some f]> ordered) ≡ₚ f :: filled ordered.
Proof.
  revert idx. induction ordered as [|o ordered IH]; intros [|idx] Hidx;
    simpl in *; try done.
  - by inversion Hidx.
  - unfold filled in *. simpl. destruct o as [g|]; simpl.
    + rewrite (IH idx Hidx). apply Permutation_swap.
    + by apply IH.
Qed.

Lemma filled_replicate (n : nat) : filled (replicate n None) = [].
Proof. induction n; simpl; done. Qed.

(** Every field the first loop has looked at sits in a slot or is back on
    the freed list, once. *)
Lemma place_requeue (out : list (Z * Z)) (sub : list FieldRef)
    (ord : list (option FieldRef)) (m : FieldManager.t) ord' m' r :
  FieldMatch.place FieldManager.free_field out sub ord m = (ord', m', r) ->
  exists l2 seen : list FieldRef,
    m' = requeue [] l2 m /\
    filled ord' ++ l2 ≡ₚ filled ord ++ seen /\
    seen ⊆+ sub.
Proof.
  revert ord m. induction sub as [|f sub IH]; intros ord m Hp; simpl in Hp.
  { inversion Hp; subst. exists [], []. by rewrite requeue_nil. }
  destruct (list_find _ out) as [[idx ?]|].
  - destruct (ord !! idx) as [[g|]|] eqn:Hidx.
    + inversion Hp; subst. exists [], []. rewrite requeue_nil.
      split_and!; [done..|apply submseteq_nil_l].
    + apply IH in Hp as (l2 & seen & -> & Hperm & Hsub).
      exists l2, (f :: seen). split_and!; [done| |by apply submseteq_skip].
      rewrite Hperm, (filled_insert _ _ _ Hidx). simpl.
      by rewrite <- Permutation_middle.
    + inversion Hp; subst. exists [], []. rewrite requeue_nil.
      split_and!; [done..|apply submseteq_nil_l].
  - apply IH in Hp as (l2 & seen & -> & Hperm & Hsub).
    exists (f :: l2), (f :: seen).
    rewrite free_field_requeue, requeue_requeue. destruct f as [rg fid]; simpl.
    split_and!; [done| |by apply submseteq_skip].
    by rewrite <- !Permutation_middle, Hperm.
Qed.

(** The second loop pushes the slots in order, up to the first empty one. *)
Lemma push_ordered_requeue (ord : list (option FieldRef)) (m m' : FieldManager.t) r :
  FieldMatch.push_ordered FieldManager.free_field ord m = (m', r) ->
  exists l1 : list FieldRef,
    m' = requeue l1 [] m /\ l1 ⊆+ filled ord /\
    (r = Ok tt -> ord = Some <$> l1).
Proof.
  revert m. induction ord as [|[f|] ord IH]; intros m Hp; simpl in Hp.
  - inversion Hp; subst. exists []. by rewrite requeue_nil.
  - apply IH in Hp as (l1 & -> & Hsub & Hok).
    exists (f :: l1). rewrite free_field_requeue, requeue_requeue.
    destruct f as [rg fid]; simpl.
    split_and!; [done|by apply submseteq_skip|].
    intros Hr. by rewrite (Hok Hr).
  - inversion Hp; subst. exists []. rewrite requeue_nil.
    split_and!; [done|apply submseteq_nil_l|done].
Qed.

(** Whatever its outcome, resolving a match only appends to the two lists
    of the pool, and what it appends are fields of the match, each at most
    as often as the match holds it. *)
Lemma update_free_fields_requeue (fm : FieldMatch.t) (m m' : FieldManager.t) r :
  FieldManager.update_free_fields fm m = (m', r) ->
  exists l1 l2 : list FieldRef,
    m' = requeue l1 l2 m /\ l1 ++ l2 ⊆+ FieldMatch.fields fm.
Proof.
  unfold FieldManager.update_free_fields, FieldMatch.update_free_fields.
  case_bool_decide as Hlen.
  { inversion 1; subst. exists [], []. rewrite requeue_nil.
    split; [done|apply submseteq_nil_l]. }
  destruct (FieldMatch.future fm) as [out|].
  2:{ inversion 1; subst. exists [], []. rewrite requeue_nil.
      split; [done|apply submseteq_nil_l]. }
  destruct (negb _).
  { inversion 1; subst. exists [], []. rewrite requeue_nil.
    split; [done|apply submseteq_nil_l]. }
  case_bool_decide as Hnum.
  - destruct (FieldMatch.place _ _ _ _ _) as [[ord' m1] r1] eqn:Hp.
    apply place_requeue in Hp as (l2 & seen & -> & Hperm & Hsub).
    rewrite filled_replicate in Hperm. simpl in Hperm.
    assert (forall l1, l1 ⊆+ filled ord' -> l1 ++ l2 ⊆+ FieldMatch.fields fm) as Hin.
    { intros l1 Hl1. etrans; [|exact Hsub]. rewrite <- Hperm.
      by apply submseteq_app; [|done]. }
    destruct r1 as [[]|e|].
    + intros Hq. apply push_ordered_requeue in Hq as (l1 & -> & Hl1 & _).
      exists l1, l2. rewrite requeue_requeue. simpl. rewrite app_nil_r.
      split; [done|by apply Hin].
    + inversion 1; subst. exists [], l2. split; [done|].
      apply Hin, submseteq_nil_l.
    + inversion 1; subst. exists [], l2. split; [done|].
      apply Hin, submseteq_nil_l.
  - inversion 1; subst. exists [], (FieldMatch.fields fm).
    by rewrite requeue_all_requeue.
Qed.

#[local] Instance frame_preorder : PreOrder frame.
Proof.
  split.
  - by intros m.
  - intros a b c (?&?&?&?&?) (?&?&?&?&?). unfold frame. split_and!; congruence.
Qed.

Lemma contents_requeue (l1 l2 : list FieldRef) (m : FieldManager.t) :
  contents (requeue l1 l2 m) ⊆+ l1 ++ l2 ++ contents m.
Proof.
  unfold contents, requeue. simpl.
  set (c := concat _).
  destruct (FieldManager.free_fields m) as [q|],
           (FieldManager.freed_fields m) as [l|]; simpl.
  - apply Permutation_submseteq. solve_Permutation.
  - trans (l2 ++ (q ++ l1) ++ c); [by apply submseteq_inserts_l|].
    apply Permutation_submseteq. solve_Permutation.
  - trans (l1 ++ (l ++ l2) ++ c); [by apply submseteq_inserts_l|].
    apply Permutation_submseteq. solve_Permutation.
  - by do 2 apply submseteq_inserts_l.
Qed.

(** Resolving the matches in flight moves fields between the lists of the
    pool and hands out at most one of them; nothing appears twice. *)
Lemma resolve_spec (m m' : FieldManager.t) r :
  FieldManager.resolve (FieldManager.matches m) m = (m', r) ->
  frame m m' /\ issued r ++ contents m' ⊆+ contents m.
Proof.
  remember (FieldManager.matches m) as pending eqn:Hpending.
  revert m Hpending. induction pending as [|fm rest IH]; intros m Hpending Hres;
    simpl in Hres.
  { inversion Hres; subst. done. }
  destruct (FieldManager.update_free_fields fm (FieldManager.set_matches rest m))
    as [m1 r1] eqn:Hupd.
  apply update_free_fields_requeue in Hupd as (l1 & l2 & -> & Hsub).
  set (m1 := requeue l1 l2 (FieldManager.set_matches rest m)) in *.
  assert (frame m m1) as Hframe by done.
  assert (contents m1 ⊆+ contents m) as Hcont.
  { etrans; [apply contents_requeue|].
    unfold contents at 2. rewrite <- Hpending. unfold contents. simpl.
    rewrite !app_assoc. apply submseteq_app; [|done].
    etrans; [|apply submseteq_app; [done|exact Hsub]].
    apply Permutation_submseteq. solve_Permutation. }
  destruct r1 as [[]|e|]; try (inversion Hres; subst; done).
  destruct (FieldManager.free_fields m1) as [[|f q]|] eqn:Hfree.
  - apply IH in Hres as [Hf Hc]; [|done].
    split; [by etrans|by etrans].
  - inversion Hres; subst. split; [done|].
    etrans; [|exact Hcont]. unfold contents at 2. by rewrite Hfree.
  - inversion Hres; subst. done.
Qed.

(** ** Counting allocations and dispatching matches *)

Section exchange.
Context `{Legion}.



  (** What the head of [allocate_field] does to a live pool. *)
Lemma exchange_spec (agreed : list (Z * Z)) (res : Resources)
    (m : FieldManager.t) (pending : list FieldRef) :
  FieldManager.freed_fields m = Some pending ->
  FieldManager.exchange agreed res m
  = if bool_decide (FieldManager.match_counter m + 1 = FieldManager.match_frequency m)
    then
      if storable pending then
        (set_collectives (collectives res ++ [ref_key <$> pending]) res,
         FieldManager.set_match_counter 0
           (FieldManager.set_matches
              (FieldManager.matches m
                 ++ [FieldMatch.mk pending (ref_key <$> pending) (Some agreed)])
              (FieldManager.set_freed_fields (Some [])
                 (FieldManager.set_match_counter
                    (FieldManager.match_counter m + 1) m))),
         Ok tt)
      else
        (res,
         FieldManager.set_freed_fields (Some [])
           (FieldManager.set_match_counter (FieldManager.match_counter m + 1) m),
         Raise OverflowError)
    else
      (res, FieldManager.set_match_counter (FieldManager.match_counter m + 1) m,
       Ok tt).
Proof.
  intros Hfreed. unfold FieldManager.exchange. simpl.
  case_bool_decide; [|done]. rewrite Hfreed.
  unfold FieldMatch.init, storable. by destruct (forallb _ pending).
Qed.


End exchange.

(** ** Consuming a resolved match *)

Lemma push_ordered_all (matched : list FieldRef) (m : FieldManager.t) :
  FieldMatch.push_ordered FieldManager.free_field (Some <$> matched) m
  = (requeue matched [] m, Ok tt).
Proof.
  revert m. induction matched as [|f matched IH]; intros m; simpl.
  - by rewrite requeue_nil.
  - rewrite IH, free_field_requeue, requeue_requeue. by destruct f.
Qed.

Lemma all_filled (ord : list (option FieldRef)) :
  (forall i o, ord !! i = Some o -> is_Some o) ->
  ord = Some <$> filled ord.
Proof.
  induction ord as [|o ord IH]; intros Hall; [done|].
  destruct (Hall 0%nat o eq_refl) as [f ->]. unfold filled in *. simpl.
  f_equal. apply IH. intros i o' Hi. by apply (Hall (S i)).
Qed.

(** When the submitted fields have distinct keys and the slots of the keys
    still to come are empty, the first loop fails nowhere: it fills the
    slot of every returned key that was submitted, and re-queues, in
    submission order, the fields whose key was not returned. *)
Lemma place_exact (out : list (Z * Z)) (sub : list FieldRef)
    (ord : list (option FieldRef)) (m : FieldManager.t) :
  NoDup (ref_key <$> sub) -> NoDup out ->
  (forall i k, out !! i = Some k -> k ∈ ref_key <$> sub -> ord !! i = Some None) ->
  exists ord',
    FieldMatch.place FieldManager.free_field out sub ord m
    = (ord', requeue [] (filter (fun f => ref_key f ∉ out) sub) m, Ok tt) /\
    length ord' = length ord /\
    forall i k, out !! i = Some k ->
      (forall f, f ∈ sub -> ref_key f = k -> ord' !! i = Some (Some f)) /\
      (k ∉ ref_key <$> sub -> ord' !! i = ord !! i).
Proof.
  intros Hsub Hout. revert ord m.
  induction sub as [|f sub IH]; intros ord m Hslots.
  { exists ord. simpl. rewrite requeue_nil. split_and!; [done..|].
    intros i k _. split; [by intros f ?%elem_of_nil|done]. }
  rewrite fmap_cons in Hsub. apply NoDup_cons in Hsub as [Hf Hsub].
  cbn [FieldMatch.place].
  destruct (list_find _ out) as [[idx k]|] eqn:Hfind.
  - apply list_find_Some in Hfind as (Hidx & -> & _).
    assert (ref_key f ∈ out) as Hin by (by eapply list_elem_of_lookup_2).
    rewrite (Hslots idx (ref_key f) Hidx) by (rewrite fmap_cons; left).
    destruct (IH Hsub (<[idx := Some f]> ord) m) as (ord' & Hplace & Hlen & Hord).
    { intros i k Hi Hk. rewrite list_lookup_insert_ne.
      - apply (Hslots i k Hi). rewrite fmap_cons. by right.
      - intros ->. congruence. }
    exists ord'. rewrite Hplace, length_insert in *.
    rewrite filter_cons_False by (by intros ?).
    split_and!; [done..|].
    assert (idx < length ord)%nat as Hlt.
    { eapply lookup_lt_Some, (Hslots idx); [done|]. rewrite fmap_cons. left. }
    intros i k Hi. destruct (Hord i k Hi) as [Hhit Hmiss]. split.
    + intros g [->|Hg]%elem_of_cons Hk.
      * assert (i = idx) as -> by (eapply NoDup_lookup; [done..|congruence]).
        rewrite Hmiss by congruence. by apply list_lookup_insert_eq.
      * by apply Hhit.
    + rewrite fmap_cons, not_elem_of_cons. intros [Hne Hk].
      rewrite Hmiss by done. apply list_lookup_insert_ne. intros ->. congruence.
  - apply list_find_None in Hfind.
    assert (ref_key f ∉ out) as Hnin.
    { intros Hin. eapply Forall_forall in Hfind; [|exact Hin]. done. }
    destruct (IH Hsub ord (FieldManager.free_field m f.1 f.2 false))
      as (ord' & Hplace & Hlen & Hord).
    { intros i k Hi Hk. apply (Hslots i k Hi). rewrite fmap_cons. by right. }
    exists ord'. rewrite Hplace, free_field_requeue, requeue_requeue.
    rewrite filter_cons_True by done. destruct f as [rg fid]; simpl.
    split_and!; [done..|].
    intros i k Hi. destruct (Hord i k Hi) as [Hhit Hmiss]. split.
    + intros g [->|Hg]%elem_of_cons Hk.
      * exfalso. apply Hnin. rewrite Hk. by eapply list_elem_of_lookup_2.
      * by apply Hhit.
    + rewrite ?fmap_cons, not_elem_of_cons. intros [Hne Hk]. by apply Hmiss.
Qed.

Lemma filter_all {A} (P : A -> Prop) `{forall x, Decision (P x)} (l : list A) :
  (forall x, x ∈ l -> P x) -> filter P l = l.
Proof.
  induction l as [|x l IH]; intros Hall; [done|].
  rewrite filter_cons_True by (apply Hall; left).
  f_equal. apply IH. intros y Hy. apply Hall. by right.
Qed.

(** C4. Consuming a resolved match whose agreed pairs are distinct and all
    among the (distinct) pairs this shard submitted succeeds, and it appends
    to the free queue the submitted fields found among the agreed pairs, in
    the order the match returned them, and to the pending list every
    submitted field that is not among them, in submission order; nothing
    else of the pool changes.  With no agreed pair at all, every submitted
    field goes to the pending list. *)
Theorem update_free_fields_redistributes (fm : FieldMatch.t)
    (m : FieldManager.t) (agreed : list (Z * Z)) :
  FieldMatch.future fm = Some agreed ->
  NoDup (ref_key <$> FieldMatch.fields fm) ->
  NoDup agreed ->
  (forall k, k ∈ agreed -> k ∈ ref_key <$> FieldMatch.fields fm) ->
  exists matched : list FieldRef,
    ref_key <$> matched = agreed /\
    (forall f, f ∈ matched -> f ∈ FieldMatch.fields fm) /\
    FieldManager.update_free_fields fm m
    = (requeue matched
         (filter (fun f => ref_key f ∉ agreed) (FieldMatch.fields fm)) m,
       Ok tt) /\
    (agreed = [] ->
     FieldManager.update_free_fields fm m
     = (requeue [] (FieldMatch.fields fm) m, Ok tt)).
Proof.
  intros Hfut Hsub Hagreed Hincl.
  unfold FieldManager.update_free_fields, FieldMatch.update_free_fields.
  rewrite Hfut.
  assert (length agreed <= length (FieldMatch.fields fm))%nat as Hlen.
  { rewrite <- (length_fmap ref_key (FieldMatch.fields fm)).
    by apply submseteq_length, NoDup_submseteq. }
  case_bool_decide as Hempty.
  { apply nil_length_inv in Hempty.
    assert (agreed = []) as ->.
    { destruct agreed as [|k ?]; [done|].
      specialize (Hincl k ltac:(left)). rewrite Hempty in Hincl.
      by apply elem_of_nil in Hincl. }
    exists []. rewrite Hempty, filter_nil, requeue_nil.
    split_and!; [done|by intros f ?%elem_of_nil|done..]. }
  rewrite bool_decide_eq_true_2 by done. simpl.
  case_bool_decide as Hpos.
  - destruct (place_exact agreed (FieldMatch.fields fm)
                (replicate (length agreed) None) m Hsub Hagreed)
      as (ord' & -> & Hlen' & Hord).
    { intros i k Hi _. apply lookup_replicate_2. by eapply lookup_lt_Some. }
    rewrite length_replicate in Hlen'.
    assert (forall i, (i < length agreed)%nat ->
              exists f, f ∈ FieldMatch.fields fm /\ agreed !! i = Some (ref_key f) /\
                        ord' !! i = Some (Some f)) as Hslot.
    { intros i Hi. destruct (lookup_lt_is_Some_2 agreed i Hi) as [k Hk].
      assert (k ∈ ref_key <$> FieldMatch.fields fm) as Hin
          by (by eapply Hincl, list_elem_of_lookup_2).
      apply list_elem_of_fmap in Hin as (f & -> & Hf).
      exists f. split_and!; [done..|]. by apply (Hord i (ref_key f) Hk). }
    assert (ord' = Some <$> filled ord') as Hfilled.
    { apply all_filled. intros i o Hi.
      destruct (Hslot i) as (f & _ & _ & Hf).
      - rewrite <- Hlen'. by eapply lookup_lt_Some.
      - rewrite Hf in Hi. by inversion Hi. }
    assert (length (filled ord') = length agreed) as Hlenf.
    { rewrite <- Hlen'. rewrite Hfilled at 2. by rewrite length_fmap. }
    exists (filled ord'). split_and!.
    + apply list_eq. intros i. rewrite list_lookup_fmap.
      destruct (decide (i < length agreed)%nat) as [Hi|Hi].
      * destruct (Hslot i Hi) as (f & _ & -> & Hf).
        rewrite Hfilled, list_lookup_fmap in Hf.
        destruct (filled ord' !! i); by simplify_eq/=.
      * rewrite (lookup_ge_None_2 agreed) by lia.
        by rewrite lookup_ge_None_2 by lia.
    + intros f [i Hi]%list_elem_of_lookup.
      destruct (Hslot i) as (g & Hg & _ & Hgi).
      * rewrite <- Hlenf. by eapply lookup_lt_Some.
      * rewrite Hfilled, list_lookup_fmap, Hi in Hgi. by simplify_eq/=.
    + rewrite Hfilled at 1. rewrite push_ordered_all, requeue_requeue.
      by rewrite app_nil_r.
    + intros ->. simpl in Hpos. lia.
  - assert (agreed = []) as -> by (destruct agreed; [done|simpl in Hpos; lia]).
    exists []. rewrite requeue_all_requeue.
    rewrite filter_all by (intros f _; apply not_elem_of_nil).
    split_and!; [done|by intros f ?%elem_of_nil|done..].
Qed.

(** ** Frees after the runtime is gone *)

(** C10. Once [destroy] has completed, [Runtime.free_field] raises nothing
    and changes nothing, whatever field it is given, and so does the
    finalizer of a [Field]; a pool whose lists [FieldManager.destroy] has
    cleared drops a freed field as well, on either path. *)
Theorem free_after_destroy_is_dropped (rt : Runtime.t) (m : FieldManager.t)
    (region : Region) (fid : Z) (dtype : DType) (shape : Shape)
    (f : Field) (ordered : bool) :
  Runtime.destroyed (Runtime.destroy rt) = true /\
  Runtime.free_field region fid dtype shape (Runtime.destroy rt)
  = (Runtime.destroy rt, Ok tt) /\
  Field_del f (Runtime.destroy rt) = (Runtime.destroy rt, Ok tt) /\
  FieldManager.free_field (FieldManager.destroy m) region fid ordered
  = FieldManager.destroy m.
Proof.
  split_and!; [done..| |].
  - unfold Field_del. by destruct (own f).
  - by destruct ordered.
Qed.

(** ** The registry of attachments *)

Lemma dict_get_elem_of {K V} `{EqDecision K} (k : K) (v : V) (d : list (K * V)) :
  dict_get k d = Some v -> (k, v) ∈ d.
Proof.
  induction d as [|[k' v'] d IH]; simpl; [done|].
  case_decide as Hk; [|by right; apply IH].
  intros [= ->]. subst. by left.
Qed.

Lemma dict_get_None {K V} `{EqDecision K} (k : K) (d : list (K * V)) :
  dict_get k d = None -> forall v, (k, v) ∉ d.
Proof.
  induction d as [|[k' v'] d IH]; simpl; intros Hget v.
  - apply not_elem_of_nil.
  - case_decide as Hk; [done|]. rewrite not_elem_of_cons. split.
    + congruence.
    + by apply IH.
Qed.

(** The scan for aliases stops at the first overlapping attachment, and a
    new key cannot be equal to it. *)
Lemma check_aliases_overlap (d : list ((Z * Z) * Attachment.t))
    (a : Attachment.t) :
  registry_ok d ->
  dict_get (Attachment.ptr a, Attachment.extent a) d = None ->
  (exists other, other ∈ dict_values d /\ Attachment.overlaps other a = true) ->
  AttachmentManager.check_aliases (dict_values d) a = Raise RuntimeError_aliased.
Proof.
  intros Hok Hnew (other & Hin & Hover).
  assert (forall o, o ∈ dict_values d -> Attachment.equals o a = false) as Hne.
  { unfold dict_values. intros o Ho.
    apply list_elem_of_fmap in Ho as ([k o'] & -> & Ho). simpl.
    apply Hok in Ho as Hk. unfold Attachment.equals.
    destruct (decide ((Attachment.ptr o', Attachment.extent o')
                      = (Attachment.ptr a, Attachment.extent a))) as [Heq|Hneq].
    - exfalso. apply (dict_get_None _ _ Hnew o'). by rewrite <- Heq, <- Hk.
    - apply andb_false_iff. rewrite !bool_decide_eq_false.
      destruct (decide (Attachment.ptr o' = Attachment.ptr a)); [right|by left].
      congruence. }
  induction (dict_values d) as [|o rest IH]; [by apply elem_of_nil in Hin|].
  simpl. destruct (Attachment.overlaps o a) eqn:Ho.
  - rewrite Hne; [done|by left].
  - apply elem_of_cons in Hin as [->|Hin]; [congruence|].
    apply IH; [done|]. intros o' Ho'. apply Hne. by right.
Qed.

Section attach.
Context `{Legion}.

Lemma allocate_field_keeps_registry (agreed : list (Z * Z)) (shape : Shape)
      (dtype : DType) (rt rt' : Runtime.t) r :
    Runtime.allocate_field agreed shape dtype rt = (rt', r) ->
    Runtime.attachment_manager rt' = Runtime.attachment_manager rt /\
    Runtime.bound rt' = Runtime.bound rt.
  Proof.
    unfold Runtime.allocate_field. intros Hr.
    repeat case_match; by simplify_eq/=.
  Qed.

  (** C3, as the code has it.  An [attach_array] of a buffer with a new key
      whose range overlaps that of a registered attachment first takes a
      field from the pool and binds the buffer to it; only then does it
      raise the aliasing error.  The registry of attachments is left as it
      was, the state of the pools is the one after the allocation, and the
      binding is on record. *)
Theorem attach_alias_raises_after_allocating (agreed : list (Z * Z))
      (array : NDArray) (dtype : DType) (share : bool) (rt rt1 : Runtime.t)
      (d : list ((Z * Z) * Attachment.t)) (rf : RegionField) :
    base_is_ndarray array = false ->
    AttachmentManager.attachments (Runtime.attachment_manager rt) = Some d ->
    registry_ok d ->
    dict_get (AttachmentManager.attachment_key array) d = None ->
    (exists other, other ∈ dict_values d /\
       Attachment.overlaps other
         (Attachment.init (data array) (nbytes array) (rf_region rf) (rf_field rf))
       = true) ->
    Runtime.allocate_field agreed (a_shape array) dtype rt = (rt1, Ok rf) ->
    exists rt',
      Runtime.attach_array agreed array dtype share rt
      = (rt', Raise RuntimeError_aliased) /\
      rt' = Runtime.attach_numpy_array rf array share rt1 /\
      Runtime.attachment_manager rt' = Runtime.attachment_manager rt /\
      Runtime.field_managers rt' = Runtime.field_managers rt1 /\
      Runtime.resources rt' = Runtime.resources rt1 /\
      Runtime.bound rt'
      = Runtime.bound rt
          ++ [((rf_region rf, field_id (rf_field rf)),
               AttachmentManager.attachment_key array, share)].
  Proof.
    intros Hbase Hd Hok Hnew Hover Halloc.
    unfold Runtime.attach_array, AttachmentManager.attach_array.
    rewrite Hbase, Hd, Hnew, Halloc. simpl.
    rewrite check_aliases_overlap; [|done..].
    apply allocate_field_keeps_registry in Halloc as [Ham Hb].
    eexists. split; [done|].
    destruct rt1; simpl in *. subst. done.
  Qed.
End attach.

(** ** Complete tilings *)

Lemma fold_left_mul (s : list Z) (a : Z) :
  fold_left Z.mul s a = a * fold_left Z.mul s 1.
Proof.
  revert a. induction s as [|x s IH]; intros a; simpl; [lia|].
  rewrite (IH (a * x)), (IH (1 * x)). lia.
Qed.

Lemma volume_cons (x : Z) (s : list Z) : volume (x :: s) = x * volume s.
Proof. unfold volume. simpl. rewrite fold_left_mul. lia. Qed.

Lemma volume_nil : volume [] = 1.
Proof. done. Qed.

Lemma volume_mono (l1 l2 : list Z) :
  Forall2 (fun a b => 0 <= a <= b) l1 l2 -> 0 <= volume l1 <= volume l2.
Proof.
  induction 1 as [|a b l1 l2 Hab _ IH]; [by rewrite volume_nil|].
  rewrite !volume_cons. nia.
Qed.

(** Whole tiles against all tiles, extent by extent *)
Lemma floor_le_ceil (shape tile_shape : Shape) :
  Forall2 (fun s t => 0 <= s /\ 0 < t) shape tile_shape ->
  Forall2 (fun a b => 0 <= a <= b)
    (zip_with (fun x y => x `div` y) shape tile_shape)
    (zip_with (fun x y => (x + y - 1) `div` y) shape tile_shape).
Proof.
  induction 1 as [|s t shape tile_shape [Hs Ht] _ IH]; simpl; constructor; [|done].
  split; [by apply Z.div_pos|]. apply Z.div_le_mono; lia.
Qed.

Lemma floor_eq_ceil (shape tile_shape : Shape) :
  Forall2 (fun s t => 0 < t /\ s `mod` t = 0) shape tile_shape ->
  zip_with (fun x y => x `div` y) shape tile_shape
  = zip_with (fun x y => (x + y - 1) `div` y) shape tile_shape.
Proof.
  induction 1 as [|s t shape tile_shape [Ht Hdiv] _ IH]; simpl; [done|].
  f_equal; [|done].
  pose proof (Z.div_mod s t ltac:(lia)) as Hs. rewrite Hdiv in Hs.
  replace (s + t - 1) with ((t - 1) + (s `div` t) * t) by lia.
  rewrite Z.div_add by lia. rewrite (Z.div_small (t - 1) t) by lia. lia.
Qed.

Lemma shape_floordiv_ok (shape tile_shape : Shape) :
  Forall2 (fun s t => 0 <= s /\ 0 < t) shape tile_shape ->
  shape_floordiv shape tile_shape
  = Ok (zip_with (fun x y => x `div` y) shape tile_shape).
Proof.
  intros Hall. unfold shape_floordiv.
  rewrite bool_decide_eq_false_2; [done|].
  intros Hin%elem_of_take. destruct Hin as (i & Hi & _).
  apply Forall2_flip in Hall.
  eapply Forall2_lookup_l in Hall as (s & _ & _ & Hpos); [|exact Hi]. lia.
Qed.

(** C8, as the code has it.  For a shape of non-negative extents tiled by
    tiles of positive extents, [use_complete_tiling] answers, and it says
    no exactly when the number of whole tiles, the product of the floor
    quotients extent // tile extent, is above 256 and above 16 times the
    shard count.  That number never exceeds the number of tiles the tiling
    produces, and is equal to it when every tile extent divides its extent;
    so a no means more than 256 tiles and more than 16 times the shard
    count, and a tiling of at most 256 tiles is always allowed. *)
Theorem use_complete_tiling_counts_whole_tiles (shape tile_shape : Shape)
    (pm : PartitionManager.t) :
  Forall2 (fun s t => 0 <= s /\ 0 < t) shape tile_shape ->
  exists b : bool,
    PartitionManager.use_complete_tiling shape tile_shape pm = Ok b /\
    (b = false <->
     whole_tiles shape tile_shape > 256 /\
     whole_tiles shape tile_shape > 16 * PartitionManager.num_pieces pm) /\
    0 <= whole_tiles shape tile_shape <= tiles_produced shape tile_shape /\
    (Forall2 (fun s t => 0 < t /\ s `mod` t = 0) shape tile_shape ->
     whole_tiles shape tile_shape = tiles_produced shape tile_shape) /\
    (b = false ->
     tiles_produced shape tile_shape > 256 /\
     tiles_produced shape tile_shape > 16 * PartitionManager.num_pieces pm) /\
    (tiles_produced shape tile_shape <= 256 -> b = true).
Proof.
  intros Hall. unfold PartitionManager.use_complete_tiling.
  rewrite (shape_floordiv_ok _ _ Hall).
  pose proof (volume_mono _ _ (floor_le_ceil _ _ Hall)) as Hle.
  fold (tiles_produced shape tile_shape) in Hle.
  fold (whole_tiles shape tile_shape) in Hle |- *.
  eexists. split; [done|]. split_and!.
  - rewrite negb_false_iff, andb_true_iff, !bool_decide_eq_true. done.
  - lia.
  - lia.
  - intros Hdiv. unfold whole_tiles, tiles_produced.
    by rewrite (floor_eq_ceil _ _ Hdiv).
  - intros [Ha Hb]%negb_false_iff%andb_true_iff.
    apply bool_decide_eq_true in Ha, Hb. lia.
  - intros Hsmall. apply negb_true_iff, andb_false_iff. left.
    apply bool_decide_eq_false. lia.
Qed.

(** ** Launch shapes *)

Lemma py_index_here {A} `{EqDecision A} (x : A) (l : list A) :
  py_index x (x :: l) = Some 0%nat.
Proof. unfold py_index. simpl. by rewrite decide_True. Qed.

Lemma py_index_later {A} `{EqDecision A} (x y : A) (l : list A) :
  y <> x -> py_index x (y :: l) = S <$> py_index x l.
Proof.
  intros Hne. unfold py_index. simpl. rewrite decide_False by done.
  by destruct (list_find _ l) as [[i z]|].
Qed.

Lemma py_index_None {A} `{EqDecision A} (x : A) (l : list A) :
  x ∉ l -> py_index x l = None.
Proof.
  intros Hx. unfold py_index.
  destruct (list_find _ l) as [[i z]|] eqn:Hfind; [|done].
  apply list_find_Some in Hfind as (Hi & -> & _).
  exfalso. apply Hx. by eapply list_elem_of_lookup_2.
Qed.

(** The accumulators of the pruning loop only ever grow at the end. *)
Lemma prune_acc (shape : Shape) (dim : nat) (ts0 : list Z) (td0 : list nat)
    (v0 : Z) :
  PartitionManager.prune shape dim ts0 td0 v0
  = match PartitionManager.prune shape dim [] [] 1 with
    | Ok (ts, td, v) => Ok (ts0 ++ ts, td0 ++ td, v0 * v)
    | Raise e => Raise e
    | Diverge => Diverge
    end.
Proof.
  revert dim ts0 td0 v0. induction shape as [|ext rest IH];
    intros dim ts0 td0 v0; simpl.
  { rewrite !app_nil_r. do 3 f_equal. lia. }
  destruct (negb _); [done|]. case_bool_decide; [apply IH|].
  rewrite (IH _ (ts0 ++ [ext])), (IH _ ([] ++ [ext])).
  destruct (PartitionManager.prune rest (S dim) [] [] 1) as [[[ts td] v]|e|];
    [|done..].
  replace (v0 * (1 * ext * v)) with (v0 * ext * v) by lia.
  by rewrite <- !app_assoc.
Qed.

(** What pruning keeps: the extents other than 1, all positive, their
    product, and for each the dimension it came from. *)
Lemma prune_spec (shape : Shape) (dim : nat) ts td v :
  PartitionManager.prune shape dim [] [] 1 = Ok (ts, td, v) ->
  ts = filter (fun ext => ext <> 1) shape /\
  v = volume ts /\
  Forall (fun ext => 0 < ext) shape /\
  Forall (fun d => dim <= d)%nat td /\
  forall pieces : list Z,
    (fun d => match py_index d td with
              | Some i => pieces !!! i
              | None => 1
              end) <$> seq dim (length shape)
    = expand shape pieces.
Proof.
  revert dim ts td v. induction shape as [|ext rest IH]; intros dim ts td v; simpl.
  { intros [= <- <- <-]. by split_and!; try constructor. }
  case_bool_decide as Hpos; simpl; [|done].
  case_bool_decide as Hone.
  - intros Hp. destruct (IH _ _ _ _ Hp) as (-> & -> & Hall & Htd & Hproj).
    rewrite filter_cons_False by (intros ?; done).
    split_and!; [done..|constructor; [lia|done]| |].
    + eapply Forall_impl; [exact Htd|]. simpl. lia.
    + intros pieces. f_equal; [|apply Hproj].
      rewrite py_index_None; [done|]. intros Hin.
      eapply Forall_forall in Htd; [|exact Hin]. lia.
  - rewrite prune_acc.
    destruct (PartitionManager.prune rest (S dim) [] [] 1)
      as [[[ts' td'] v']|e|] eqn:Hp; [|done..].
    intros [= <- <- <-].
    destruct (IH _ _ _ _ Hp) as (-> & -> & Hall & Htd & Hproj).
    rewrite filter_cons_True by done. simpl.
    split_and!; [done|by rewrite volume_cons; lia|constructor; [lia|done]| |].
    + constructor; [lia|]. eapply Forall_impl; [exact Htd|]. simpl. lia.
    + intros pieces. rewrite py_index_here.
      assert (forall d, d ∈ seq (S dim) (length rest) ->
                match py_index d (dim :: td') with
                | Some i => pieces !!! i
                | None => 1
                end
                = match py_index d td' with
                  | Some i => (tail pieces) !!! i
                  | None => 1
                  end) as Hext.
      { intros d Hd%elem_of_seq. rewrite py_index_later by lia.
        destruct (py_index d td') as [i|]; simpl; [|done].
        by destruct pieces. }
      destruct pieces as [|p pieces]; simpl in *.
      * rewrite <- (Hproj []). f_equal. apply list_fmap_ext. intros i d Hi.
        apply Hext. by eapply list_elem_of_lookup_2.
      * rewrite <- (Hproj pieces). f_equal. apply list_fmap_ext. intros i d Hi.
        apply Hext. by eapply list_elem_of_lookup_2.
Qed.

Lemma expand_length (shape : Shape) (pieces : list Z) :
  length (expand shape pieces) = length shape.
Proof.
  revert pieces. induction shape as [|ext rest IH]; intros pieces; simpl; [done|].
  case_bool_decide; simpl; [by rewrite IH|].
  destruct pieces; simpl; by rewrite IH.
Qed.

Lemma expand_nil (shape : Shape) : expand shape [] = replicate (length shape) 1.
Proof.
  induction shape as [|ext rest IH]; simpl; [done|].
  case_bool_decide; by rewrite IH.
Qed.

Lemma volume_replicate_1 (n : nat) : volume (replicate n 1) = 1.
Proof. induction n as [|n IH]; simpl; [done|]. rewrite volume_cons. lia. Qed.

Lemma volume_ge_1 (l : list Z) : Forall (fun p => 1 <= p) l -> 1 <= volume l.
Proof.
  induction 1 as [|p l Hp _ IH]; [by rewrite volume_nil|].
  rewrite volume_cons. nia.
Qed.

Lemma expand_Forall (shape : Shape) (pieces : list Z) :
  Forall (fun p => 1 <= p) pieces -> Forall (fun p => 1 <= p) (expand shape pieces).
Proof.
  revert pieces. induction shape as [|ext rest IH]; intros pieces Hall; simpl;
    [done|].
  case_bool_decide; [constructor; [lia|by apply IH]|].
  destruct Hall as [|p pieces Hp Hall]; constructor; try lia; by apply IH.
Qed.

Lemma expand_volume (shape : Shape) (pieces : list Z) :
  length pieces = length (filter (fun ext => ext <> 1) shape) ->
  volume (expand shape pieces) = volume pieces.
Proof.
  revert pieces. induction shape as [|ext rest IH]; intros pieces Hlen; simpl.
  { by destruct pieces. }
  case_bool_decide as Hone.
  - rewrite filter_cons_False in Hlen by (intros ?; done).
    rewrite volume_cons, IH by done. lia.
  - rewrite filter_cons_True in Hlen by done.
    destruct pieces as [|p pieces]; [done|]. simpl in Hlen.
    rewrite !volume_cons, IH by lia. done.
Qed.

Lemma all_ones (shape : Shape) :
  (forall j x, shape !! j = Some x -> x = 1) ->
  filter (fun ext => ext <> 1) shape = [] /\
  forall pieces, expand shape pieces = replicate (length shape) 1.
Proof.
  induction shape as [|ext rest IH]; intros Hall; [done|].
  assert (ext = 1) as -> by (by apply (Hall 0%nat)).
  destruct IH as [Hf He]; [intros j x Hj; by apply (Hall (S j))|].
  rewrite filter_cons_False by (intros ?; done). split; [done|].
  intros pieces. simpl. by rewrite He.
Qed.

Lemma expand_one_dim (shape : Shape) (i : nat) (e p : Z) :
  one_dim shape i e ->
  filter (fun ext => ext <> 1) shape = [e] /\
  expand shape [p] = <[i := p]> (replicate (length shape) 1).
Proof.
  revert i. induction shape as [|ext rest IH]; intros i (Hi & He & Hrest).
  { by rewrite lookup_nil in Hi. }
  destruct i as [|i]; simpl in Hi.
  - injection Hi as ->.
    destruct (all_ones rest) as [Hf Hx];
      [intros j x Hj; by apply (Hrest (S j))|].
    rewrite filter_cons_True, Hf by done. split; [done|].
    simpl. rewrite bool_decide_eq_false_2 by done. by rewrite Hx.
  - assert (ext = 1) as -> by (by apply (Hrest 0%nat)).
    destruct (IH i) as [Hf Hx].
    { split_and!; [done..|]. intros j x Hj Hne. apply (Hrest (S j)); [done|lia]. }
    rewrite filter_cons_False by (intros ?; done). split; [done|].
    simpl. by rewrite Hx.
Qed.

(** The two searches for a divisor of the number of pieces *)
Lemma search_down_spec (fuel : nat) (n n1 d : Z) :
  1 <= n1 -> PartitionManager.search_down fuel n n1 = Ok d ->
  1 <= d /\ n `mod` d = 0.
Proof.
  revert n1. induction fuel as [|fuel IH]; intros n1 Hn1; simpl; [done|].
  rewrite bool_decide_eq_false_2 by lia.
  case_bool_decide as Hdiv; [by intros [= <-]|].
  destruct (decide (n1 = 1)) as [->|Hne].
  - by rewrite Z.mod_1_r in Hdiv.
  - apply IH. lia.
Qed.

Lemma search_up_spec (fuel : nat) (n n2 d : Z) :
  0 <= n2 -> PartitionManager.search_up fuel n n2 = Ok d ->
  1 <= d /\ n `mod` d = 0.
Proof.
  revert n2. induction fuel as [|fuel IH]; intros n2 Hn2; simpl; [done|].
  case_bool_decide as Hzero; [done|].
  case_bool_decide as Hdiv; [intros [= <-]; lia|].
  apply IH. lia.
Qed.

(** The fuel of the three loops is enough: the model only says [Diverge]
    where the loop of the code does not end. *)
Lemma search_down_ends (n n1 : Z) :
  1 <= n1 -> PartitionManager.search_down (Z.to_nat n1) n n1 <> Diverge.
Proof.
  intros Hn1. remember (Z.to_nat n1) as fuel eqn:Hfuel.
  revert n1 Hn1 Hfuel. induction fuel as [|fuel IH]; intros n1 Hn1 Hfuel; [lia|].
  simpl. rewrite bool_decide_eq_false_2 by lia.
  case_bool_decide as Hdiv; [done|].
  destruct (decide (n1 = 1)) as [->|Hne]; [by rewrite Z.mod_1_r in Hdiv|].
  apply IH; lia.
Qed.

Lemma search_up_ends (n n2 : Z) :
  1 <= n2 <= n ->
  PartitionManager.search_up (Z.to_nat (n - n2 + 1)) n n2 <> Diverge.
Proof.
  intros Hn2. remember (Z.to_nat (n - n2 + 1)) as fuel eqn:Hfuel.
  revert n2 Hn2 Hfuel. induction fuel as [|fuel IH]; intros n2 Hn2 Hfuel; [lia|].
  simpl. rewrite bool_decide_eq_false_2 by lia.
  case_bool_decide as Hdiv; [done|].
  destruct (decide (n2 = n)) as [->|Hne]; [by rewrite Z.mod_same in Hdiv by lia|].
  apply IH; lia.
Qed.

Lemma search_up_never_ends (fuel : nat) (n n2 : Z) :
  0 < n < n2 -> PartitionManager.search_up fuel n n2 = Diverge.
Proof.
  revert n2. induction fuel as [|fuel IH]; intros n2 Hn2; simpl; [done|].
  rewrite bool_decide_eq_false_2 by lia.
  rewrite bool_decide_eq_false_2 by (rewrite Z.mod_small; lia).
  apply IH. lia.
Qed.

Lemma strip_ends (fuel : nat) (p pieces : Z) (factors : list Z) :
  2 <= p -> pieces <> 0 -> (Z.to_nat (Z.abs pieces) < fuel)%nat ->
  exists q fs,
    PartitionManager.strip fuel p pieces factors = Some (q, fs) /\
    q <> 0 /\ Z.abs q <= Z.abs pieces.
Proof.
  intros Hp. revert pieces factors.
  induction fuel as [|fuel IH]; intros pieces factors Hne Hfuel; [lia|].
  simpl. case_bool_decide as Hdiv; [|exists pieces, factors; split_and!; [done..|lia]].
  pose proof (Z.div_mod pieces p ltac:(lia)) as Hdm. rewrite Hdiv in Hdm.
  destruct (IH (pieces `div` p) (factors ++ [p])) as (q & fs & Hs & Hq & Hle);
    [nia|nia|].
  exists q, fs. split_and!; [done..|nia].
Qed.

Lemma strip_never_ends (fuel : nat) (p : Z) (factors : list Z) :
  PartitionManager.strip fuel p 0 factors = None.
Proof.
  revert factors. induction fuel as [|fuel IH]; intros factors; simpl; [done|].
  rewrite Zdiv_0_l. apply IH.
Qed.

Lemma init_ends (n v : Z) : n <> 0 -> PartitionManager.init n v <> Diverge.
Proof.
  intros Hn. unfold PartitionManager.init, PartitionManager.strip_all. cbv zeta.
  set (fuel := S (Z.to_nat (Z.abs n))).
  destruct (strip_ends fuel 2 n []) as (q2 & f2 & -> & ? & ?); [lia..|].
  cbn [mbind option_bind].
  destruct (strip_ends fuel 3 q2 f2) as (q3 & f3 & -> & ? & ?); [lia..|].
  cbn [mbind option_bind].
  destruct (strip_ends fuel 5 q3 f3) as (q5 & f5 & -> & ? & ?); [lia..|].
  cbn [mbind option_bind].
  destruct (strip_ends fuel 7 q5 f5) as (q7 & f7 & -> & ? & ?); [lia..|].
  cbn [mbind option_bind].
  destruct (strip_ends fuel 11 q7 f7) as (q11 & f11 & -> & ? & ?); [lia..|].
  by case_bool_decide.
Qed.

Lemma divisor_cofactor (n d : Z) :
  0 < n -> 1 <= d -> n `mod` d = 0 -> 1 <= n `div` d /\ d * (n `div` d) = n.
Proof.
  intros Hn Hd Hmod. pose proof (Z.div_mod n d ltac:(lia)) as Hdm.
  rewrite Hmod in Hdm. split; [|lia].
  destruct (decide (1 <= n `div` d)); [done|]. nia.
Qed.

Section launch.
Context `{Legion} `{!LegionSqrt}.

Lemma square_pieces_spec (n s0 s1 : Z) (tr : list Z) :
  0 < n -> 0 < s0 -> 0 < s1 ->
  PartitionManager.square_pieces n s0 s1 = Ok tr ->
  length tr = 2%nat /\ Forall (fun p => 1 <= p) tr /\ volume tr <= n.
Proof.
  intros Hn Hs0 Hs1. unfold PartitionManager.square_pieces.
  destruct (PartitionManager.search_down _ _ _) as [n1| |] eqn:Hdown; [|done..].
  apply search_down_spec in Hdown as [Hn1 Hd1]; [|lia].
  destruct (PartitionManager.search_up _ _ _) as [n2| |] eqn:Hup; [|done..].
  apply search_up_spec in Hup as [Hn2 Hd2]; [|apply sqrt_ceil_nonneg].
  set (px := if bool_decide _ then n1 else n2).
  assert (1 <= px /\ n `mod` px = 0) as [Hpx Hdx]
      by (unfold px; by case_bool_decide).
  destruct (divisor_cofactor n px Hn Hpx Hdx) as [Hpy Hprod].
  set (py := n `div` px) in *.
  destruct (bool_decide (s0 > s1)); intros [= <-];
    (split; [done|]); (split; [repeat constructor; lia|]);
    rewrite !volume_cons, volume_nil; nia.
Qed.

Lemma scale_spec (i : nat) (factor : Z) (tr : list Z) :
  1 <= factor -> Forall (fun p => 1 <= p) tr ->
  Forall (fun p => 1 <= p) (PartitionManager.scale i factor tr) /\
  volume (PartitionManager.scale i factor tr) <= factor * volume tr /\
  length (PartitionManager.scale i factor tr) = length tr.
Proof.
  intros Hf Hall. unfold PartitionManager.scale. revert i.
  induction Hall as [|p tr Hp Hall IH]; intros i.
  { destruct i; simpl; rewrite volume_nil; (split_and!; [done|lia|done]). }
  pose proof (volume_ge_1 tr Hall) as Hv.
  destruct i as [|i]; simpl.
  - rewrite !volume_cons. split_and!; [constructor; [nia|done]|nia|done].
  - destruct (IH i) as (Ha & Hb & Hc).
    change (list_alter (fun r => r * factor) i tr)
      with (alter (fun r => r * factor) i tr).
    rewrite !volume_cons. split_and!; [by constructor|nia|by rewrite Hc].
Qed.

Lemma spread_spec (factors : list Z) (n : Z) (ts : list Z) (fp : Z)
    (tr tr' : list Z) :
  Forall (fun f => 1 <= f) factors -> Forall (fun p => 1 <= p) tr ->
  volume tr <= fp -> 1 <= fp <= n ->
  PartitionManager.spread factors n ts fp tr = Ok tr' ->
  Forall (fun p => 1 <= p) tr' /\ volume tr' <= n /\ length tr' = length tr.
Proof.
  intros Hfac. revert fp tr.
  induction Hfac as [|f factors Hf Hfac IH]; intros fp tr Hall Hvol Hfp; simpl.
  { intros [= <-]. split_and!; [done|lia|done]. }
  case_bool_decide as Hbreak; [intros [= <-]; split_and!; [done|lia|done]|].
  destruct (PartitionManager.choose_dim f ts tr) as [i| |]; [|done..].
  destruct (scale_spec i f tr Hf Hall) as (Ha & Hb & Hc).
  intros Hs. apply IH in Hs as (? & ? & ?); [|done|..].
  - split_and!; [done..|congruence].
  - pose proof (volume_ge_1 tr Hall). nia.
  - nia.
Qed.

Lemma split_spec (pm : PartitionManager.t) (n : Z) (ts tr : list Z) :
  Forall (fun f => 1 <= f) (PartitionManager.piece_factors pm) ->
  2 <= n -> Forall (fun ext => 0 < ext) ts ->
  PartitionManager.split pm n (volume ts) ts = Ok tr ->
  Forall (fun p => 1 <= p) tr /\ volume tr <= n.
Proof.
  intros Hfac Hn Hts. unfold PartitionManager.split.
  destruct ts as [|s0 [|s1 [|s2 ts]]].
  - intros [= <-]. rewrite volume_nil. split; [done|lia].
  - apply Forall_cons in Hts as [Hs0 _]. intros [= <-].
    rewrite volume_cons, volume_nil. split; [repeat constructor; lia|lia].
  - case_bool_decide as Hsmall.
    + intros [= <-]. split; [|lia]. eapply Forall_impl; [exact Hts|]. simpl. lia.
    + apply Forall_cons in Hts as [Hs0 [Hs1 _]%Forall_cons]. intros Hsq.
      apply square_pieces_spec in Hsq as (_ & ? & ?); [done|lia..].
  - intros Hsp. apply spread_spec in Hsp as (? & ? & _); [done|done|..].
    + apply Forall_replicate. lia.
    + rewrite volume_replicate_1. lia.
    + lia.
Qed.
End launch.

Lemma strip_factors (fuel : nat) (p pieces : Z) (factors : list Z) q fs :
  1 <= p -> Forall (fun f => 1 <= f) factors ->
  PartitionManager.strip fuel p pieces factors = Some (q, fs) ->
  Forall (fun f => 1 <= f) fs.
Proof.
  intros Hp. revert pieces factors.
  induction fuel as [|fuel IH]; intros pieces factors Hall; simpl; [done|].
  case_bool_decide; [|by intros [= <- <-]].
  apply IH. apply Forall_app. split; [done|]. by constructor.
Qed.

Lemma init_spec (n v : Z) (pm : PartitionManager.t) :
  PartitionManager.init n v = Ok pm ->
  PartitionManager.num_pieces pm = n /\
  PartitionManager.min_shard_volume pm = v /\
  PartitionManager.launch_spaces pm = ∅ /\
  Forall (fun f => 1 <= f) (PartitionManager.piece_factors pm).
Proof.
  unfold PartitionManager.init, PartitionManager.strip_all. cbv zeta.
  generalize (S (Z.to_nat (Z.abs n))). intros fuel.
  destruct (PartitionManager.strip _ 2 _ _) as [[q2 f2]|] eqn:H2; simpl; [|done].
  destruct (PartitionManager.strip _ 3 _ _) as [[q3 f3]|] eqn:H3; simpl; [|done].
  destruct (PartitionManager.strip _ 5 _ _) as [[q5 f5]|] eqn:H5; simpl; [|done].
  destruct (PartitionManager.strip _ 7 _ _) as [[q7 f7]|] eqn:H7; simpl; [|done].
  destruct (PartitionManager.strip _ 11 _ _) as [[q11 f11]|] eqn:H11; simpl; [|done].
  case_bool_decide; [done|]. intros [= <-]. simpl. split_and!; [done..|].
  apply Forall_reverse.
  apply strip_factors in H2; [|lia|done]. apply strip_factors in H3; [|lia|done].
  apply strip_factors in H5; [|lia|done]. apply strip_factors in H7; [|lia|done].
  by apply strip_factors in H11; [|lia|].
Qed.

Section planner.
Context `{Legion} `{!LegionSqrt}.

Lemma compute_launch_shape_inv (shape : Shape) (pm pm' : PartitionManager.t) res :
  pm_inv pm ->
  PartitionManager.compute_launch_shape shape pm = (pm', res) ->
  pm_inv pm' /\
  forall r, res = Ok (Some r) -> launch_ok (PartitionManager.num_pieces pm) shape r.
Proof.
  intros [Hfac Hcache]. unfold PartitionManager.compute_launch_shape.
  case_bool_decide as Hpos; simpl; [|by intros [= <- <-]].
  case_bool_decide as Hone; [by intros [= <- <-]|].
  destruct (forallb _ shape); [by intros [= <- <-]|].
  destruct (PartitionManager.launch_spaces pm !! shape) as [cached|] eqn:Hhit.
  { intros [= <- <-]. split; [done|]. intros r [= ->]. by apply Hcache. }
  destruct (PartitionManager.prune shape 0 [] [] 1) as [[[ts td] vol]|e|] eqn:Hp;
    [|by intros [= <- <-]..].
  apply prune_spec in Hp as (Hts & -> & Hall & _ & Hproj).
  case_bool_decide; [by intros [= <- <-]|].
  case_bool_decide; simpl; [|by intros [= <- <-]].
  case_bool_decide.
  { intros [= <- <-]. split; [|done]. split; [done|]. simpl.
    intros shape' r. rewrite lookup_insert. case_decide; [done|]. apply Hcache. }
  assert (Forall (fun ext => 0 < ext) ts) as Hts_pos.
  { rewrite Hts. apply Forall_forall. intros x [_ Hx]%list_elem_of_filter.
    by eapply Forall_forall in Hall. }
  destruct ts as [|t0 ts'] eqn:Hts_eq.
  { intros [= <- <-]. split; [done|]. intros r [= <-]. split_and!.
    - apply length_replicate.
    - apply Forall_replicate. lia.
    - rewrite volume_replicate_1. lia.
    - intros i e [Hf _]%(expand_one_dim _ _ _ 0). congruence. }
  rewrite <- Hts_eq in *. clear Hts_eq.
  destruct (PartitionManager.split _ _ _ _) as [tr|e|] eqn:Hsplit;
    [|by intros [= <- <-]..].
  case_bool_decide as Hlen; simpl; [|by intros [= <- <-]].
  apply split_spec in Hsplit as Hok; [|done|lia|done]. destruct Hok as [Htr Hvol].
  assert (launch_ok (PartitionManager.num_pieces pm) shape
            (PartitionManager.project (length shape) td tr)) as Hgood.
  { unfold PartitionManager.project. rewrite Hproj. split_and!.
    - apply expand_length.
    - by apply expand_Forall.
    - rewrite expand_volume; [done|]. by rewrite Hlen, Hts.
    - intros i e Hdim.
      destruct (expand_one_dim shape i e (Z.min e (PartitionManager.num_pieces pm)) Hdim)
        as [Hf <-].
      rewrite Hf in Hts. subst ts. simpl in Hsplit. by injection Hsplit as <-. }
  intros [= <- <-]. split; [|by intros r [= <-]].
  split; [done|]. simpl. intros shape' r. rewrite lookup_insert.
  case_decide as Hs; [|apply Hcache]. intros [= <-]. by subst.
Qed.

Lemma compute_launch_shape_pieces (shape : Shape) (pm pm' : PartitionManager.t) res :
  PartitionManager.compute_launch_shape shape pm = (pm', res) ->
  PartitionManager.num_pieces pm' = PartitionManager.num_pieces pm.
Proof.
  unfold PartitionManager.compute_launch_shape. intros Hc.
  repeat case_match; by simplify_eq/=.
Qed.

Lemma reachable_inv (pm : PartitionManager.t) : reachable pm -> pm_inv pm.
Proof.
  induction 1 as [n v pm Hinit|shape pm pm' r _ IH Hstep].
  - apply init_spec in Hinit as (_ & _ & Hempty & Hfac). split; [done|].
    intros shape r. by rewrite Hempty, lookup_empty.
  - by apply (compute_launch_shape_inv _ _ _ _ IH) in Hstep as [? _].
Qed.

(** C7. On a partition manager reached from a fresh one, a shape that has
    one dimension [i] of extent [e] other than 1 and for which
    [compute_launch_shape] answers with a launch shape gets
    [min e num_pieces] pieces along [i] and one piece along every other
    dimension.  With 8 pieces, shape (1000,) gets (8,) and shape (3,) gets
    (3,). *)
Theorem one_dimension_launch_shape (shape r : Shape)
    (pm pm' : PartitionManager.t) (i : nat) (e : Z) :
  reachable pm ->
  one_dim shape i e ->
  PartitionManager.compute_launch_shape shape pm = (pm', Ok (Some r)) ->
  r !! i = Some (Z.min e (PartitionManager.num_pieces pm)) /\
  r = <[i := Z.min e (PartitionManager.num_pieces pm)]> (replicate (length shape) 1) /\
  (PartitionManager.num_pieces pm = 8 -> shape = [1000] -> r = [8]) /\
  (PartitionManager.num_pieces pm = 8 -> shape = [3] -> r = [3]).
Proof.
  intros Hreach Hdim Hc.
  apply (compute_launch_shape_inv _ _ _ _ (reachable_inv _ Hreach)) in Hc as [_ Hok].
  destruct (Hok r eq_refl) as (_ & _ & _ & Hone).
  specialize (Hone i e Hdim). split_and!.
  - rewrite Hone. apply list_lookup_insert_eq. rewrite length_replicate.
    destruct Hdim as [Hi _]. by eapply lookup_lt_Some.
  - done.
  - intros Hn ->. destruct Hdim as (Hi & _).
    destruct i; simpl in Hi; [|by rewrite lookup_nil in Hi].
    injection Hi as <-. rewrite Hone, Hn. done.
  - intros Hn ->. destruct Hdim as (Hi & _).
    destruct i; simpl in Hi; [|by rewrite lookup_nil in Hi].
    injection Hi as <-. rewrite Hone, Hn. done.
Qed.

(** C9. On a partition manager reached from a fresh one, every launch
    shape [compute_launch_shape] answers with, for a shape of positive
    extents, has at least one piece along each dimension, as many
    dimensions as the shape, and no more pieces in all than the number of
    pieces the manager was configured with. *)
Theorem launch_shape_within_pieces (shape r : Shape)
    (pm pm' : PartitionManager.t) :
  reachable pm ->
  Forall (fun ext => 0 < ext) shape ->
  PartitionManager.compute_launch_shape shape pm = (pm', Ok (Some r)) ->
  length r = length shape /\
  Forall (fun p => 1 <= p) r /\
  volume r <= PartitionManager.num_pieces pm.
Proof.
  intros Hreach _ Hc.
  apply (compute_launch_shape_inv _ _ _ _ (reachable_inv _ Hreach)) in Hc as [_ Hok].
  by destruct (Hok r eq_refl) as (? & ? & ? & _).
Qed.
End planner.

(** ** No field is handed out twice *)

Lemma submseteq_NoDup {A} (l k : list A) : l ⊆+ k -> NoDup k -> NoDup l.
Proof.
  intros [k' Hk]%submseteq_Permutation Hnd. rewrite Hk in Hnd.
  by apply NoDup_app in Hnd as [? _].
Qed.

Lemma post_recycle (res res' : Resources) (m m' : FieldManager.t)
    (out : list FieldRef) :
  res_wf res -> regions_ok res m -> same_store res res' ->
  FieldManager.top_regions m' = FieldManager.top_regions m ->
  out ++ contents m' ⊆+ contents m ->
  alloc_post res m res' m' out.
Proof.
  intros [Hd Hs] Hreg (Hstore & Hnext & Hfs) Htop Hsub.
  unfold alloc_post, res_wf, regions_ok, known.
  rewrite Hstore, Hnext, Hfs, Htop. split_and!; [done..|].
  exists []. rewrite app_nil_r. split_and!; [done|constructor|].
  by intros f ?%elem_of_nil.
Qed.

Lemma exchange_contents (agreed : list (Z * Z)) (res res1 : Resources)
    (m m1 : FieldManager.t) r :
  FieldManager.exchange agreed res m = (res1, m1, r) ->
  same_store res res1 /\
  FieldManager.top_regions m1 = FieldManager.top_regions m /\
  contents m1 ⊆+ contents m.
Proof.
  unfold FieldManager.exchange, FieldManager.dispatch. simpl.
  case_bool_decide; [|by intros [= <- <- <-]].
  destruct (FieldManager.freed_fields m) as [l|] eqn:Hl; simpl.
  - unfold FieldMatch.init. destruct (forallb _ l); simpl.
    + intros [= <- <- <-]. split_and!; [done..|].
      unfold contents. simpl. rewrite Hl. simpl.
      rewrite fmap_app, concat_app. simpl. rewrite app_nil_r.
      apply Permutation_submseteq. solve_Permutation.
    + intros [= <- <- <-]. split_and!; [done..|].
      unfold contents. simpl. rewrite Hl. simpl.
      apply submseteq_app; [done|]. by apply submseteq_inserts_l.
  - intros [= <- <- <-]. split_and!; [done..|].
    unfold contents. simpl. by rewrite Hl.
Qed.

Section pool.
Context `{Legion} `{!LegionFresh}.

Lemma allocate_in_spec (a : nat) (res res' : Resources) (fid : Z) :
  (a < length (field_space_store res))%nat -> res_wf res ->
  FieldManager.allocate_in a res = (res', fid) ->
  res_wf res' /\
  length (field_space_store res') = length (field_space_store res) /\
  next_tree_id res' = next_tree_id res /\
  (fid ∉ FieldSpace.fields (field_space_store res !!! a)) /\
  (fid ∈ FieldSpace.fields (field_space_store res' !!! a)) /\
  forall b x, x ∈ FieldSpace.fields (field_space_store res !!! b) ->
              x ∈ FieldSpace.fields (field_space_store res' !!! b).
Proof.
  intros Ha [Hd Hs]. unfold FieldManager.allocate_in, FieldSpace.allocate_field.
  intros [= <- <-]. simpl.
  set (ids := FieldSpace.fields (field_space_store res !!! a)).
  assert (NoDup ids) as Hids.
  { eapply Forall_forall in Hs; [exact Hs|].
    eapply list_elem_of_lookup_2, list_lookup_lookup_total_lt. done. }
  pose proof (fresh_field_id_fresh ids) as Hfresh.
  split_and!.
  - split.
    + intros d dt b Hfs Hb. simpl in *. rewrite length_insert. by eapply Hd.
    + apply Forall_insert; [done|]. simpl.
      apply NoDup_app. split_and!; [done| |apply NoDup_singleton].
      intros x Hx ->%list_elem_of_singleton. done.
  - by rewrite length_insert.
  - done.
  - done.
  - rewrite list_lookup_total_insert_eq by done. simpl.
    apply elem_of_app. right. by apply list_elem_of_singleton.
  - intros b x Hx. rewrite list_lookup_total_insert.
    case_decide as Hb; [|done]. destruct Hb as [<- _]. simpl.
    apply elem_of_app. by left.
Qed.
Lemma find_or_create_index_space_spec (bounds : Shape) (res res' : Resources) r :
  find_or_create_index_space bounds res = (res', r) ->
  same_store res res' /\ collectives res' = collectives res.
Proof.
  unfold find_or_create_index_space.
  destruct (index_spaces res); [|by intros [= <- <-]].
  case_bool_decide; by intros [= <- <-].
Qed.

Lemma find_or_create_field_space_spec (dt : DType) (res res' : Resources) r :
  res_wf res ->
  find_or_create_field_space dt res = (res', r) ->
  res_wf res' /\
  next_tree_id res' = next_tree_id res /\
  (length (field_space_store res) <= length (field_space_store res'))%nat /\
  (forall b, (b < length (field_space_store res))%nat ->
     field_space_store res' !!! b = field_space_store res !!! b) /\
  (forall a, r = Ok a -> (a < length (field_space_store res'))%nat) /\
  (forall e, r = Raise e -> res' = res) /\ r <> Diverge.
Proof.
  intros Hwf. pose proof Hwf as [Hd Hs]. unfold find_or_create_field_space.
  destruct (field_spaces res) as [d|] eqn:Hfs.
  2:{ intros [= <- <-]. split_and!; done. }
  destruct (d !! dt) as [a|] eqn:Ha.
  - intros [= <- <-]. split_and!; try done.
    intros a' [= <-]. by eapply Hd.
  - intros [= <- <-]. simpl. rewrite length_app. simpl. split_and!; try done.
    + split; simpl.
      * intros d' dt' a [= <-]. rewrite length_app. simpl.
        rewrite lookup_insert. case_decide; [intros [= <-]; lia|].
        intros Hdt. specialize (Hd d dt' a eq_refl Hdt). lia.
      * apply Forall_app. split; [done|]. repeat constructor.
    + lia.
    + intros b Hb. by apply lookup_total_app_l.
    + intros a [= <-]. lia.
Qed.

(** Assembling the outcome of a call that may have made a region. *)
Lemma post_grow (res res' : Resources) (m m' : FieldManager.t)
    (out new : list FieldRef) (tops : list Region) :
  res_wf res' -> regions_ok res m ->
  FieldManager.top_regions m' = FieldManager.top_regions m ++ tops ->
  (forall r, r ∈ tops ->
     tree_id r = next_tree_id res /\ next_tree_id res < next_tree_id res' /\
     (field_space r < length (field_space_store res'))%nat) ->
  next_tree_id res <= next_tree_id res' ->
  (length (field_space_store res) <= length (field_space_store res'))%nat ->
  (forall b x, (b < length (field_space_store res))%nat ->
     x ∈ FieldSpace.fields (field_space_store res !!! b) ->
     x ∈ FieldSpace.fields (field_space_store res' !!! b)) ->
  out ++ contents m' ⊆+ contents m ++ new ->
  NoDup new ->
  (forall f, f ∈ new -> known res' m' f /\ ~ known res m f) ->
  alloc_post res m res' m' out.
Proof.
  intros Hwf Hreg Htop Htops Hnext Hlen Hmono Hsub Hnew Hfresh.
  split_and!; [done| | |by exists new].
  - intros r. rewrite Htop. intros [Hr|Hr]%elem_of_app.
    + destruct (Hreg r Hr). split; lia.
    + destruct (Htops r Hr) as (-> & ? & ?). done.
  - intros f [Hf1 Hf2]. split.
    + rewrite Htop. apply elem_of_app. by left.
    + apply Hmono; [|done]. by apply Hreg.
Qed.

Lemma handed_new {A} (f : A) (l : list A) : [f] ++ l ⊆+ l ++ [f].
Proof. apply Permutation_submseteq, Permutation_app_comm. Qed.

Lemma same_store_wf (res res' : Resources) (m : FieldManager.t) :
  same_store res res' -> res_wf res -> regions_ok res m ->
  res_wf res' /\ regions_ok res' m.
Proof.
  intros (Hs & Hn & Hf) Hwf Hreg. unfold res_wf, regions_ok.
  by rewrite Hs, Hn, Hf.
Qed.

#[local] Instance pair_with_inj (region : Region) :
  Inj (=) (=) (fun i : Z => (region, i)).
Proof. by intros i j [= ->]. Qed.

(** Making a new region: its fields are new to the pool, whichever of
    them the call hands out or puts on the free queue. *)
Lemma allocate_new_region_post (res res' : Resources) (m m' : FieldManager.t) r :
  res_wf res -> regions_ok res m ->
  FieldManager.allocate_new_region res m = (res', m', r) ->
  alloc_post res m res' m' (handed r).
Proof.
  intros Hwf Hreg. unfold FieldManager.allocate_new_region.
  destruct (find_or_create_index_space _ res) as [res1 r1] eqn:H1.
  apply find_or_create_index_space_spec in H1 as [Hsame1 _].
  destruct (same_store_wf _ _ m Hsame1 Hwf Hreg) as [Hwf1 Hreg1].
  destruct r1 as [ispace|e|];
    [|intros [= <- <- <-]; by apply post_recycle..].
  destruct (find_or_create_field_space _ res1) as [res2 r2] eqn:H2.
  apply (find_or_create_field_space_spec _ _ _ _ Hwf1) in H2
    as (Hwf2 & Hn2 & Hlen2 & Hsame2 & Ha & Hraise & Hnd).
  destruct r2 as [a|e|]; [| |done].
  2:{ rewrite (Hraise e eq_refl). intros [= <- <- <-]. by apply post_recycle. }
  specialize (Ha a eq_refl). clear Hraise Hnd.
  destruct Hsame1 as (Hs1 & Hn1 & Hf1).
  unfold create_region.
  set (region := mkRegion (next_tree_id res2) ispace a).
  set (res3 := set_next_tree_id (next_tree_id res2 + 1) res2).
  assert (res_wf res3) as Hwf3 by done.
  assert (region ∉ FieldManager.top_regions m) as Hregion.
  { intros Hin. destruct (Hreg _ Hin) as [Hlt _]. simpl in Hlt. lia. }
  assert (forall i, ~ known res m (region, i)) as Hunknown.
  { intros i [Hin _]. by apply Hregion. }
  assert (forall b x, (b < length (field_space_store res))%nat ->
            x ∈ FieldSpace.fields (field_space_store res !!! b) ->
            x ∈ FieldSpace.fields (field_space_store res2 !!! b)) as Hmono.
  { intros b x Hb Hx. rewrite Hsame2 by (by rewrite Hs1). by rewrite Hs1. }
  assert (length (field_space_store res) <= length (field_space_store res2))%nat
    as Hlen by (by rewrite <- Hs1).
  assert (forall r0, r0 ∈ [region] ->
            tree_id r0 = next_tree_id res /\
            next_tree_id res < next_tree_id res3 /\
            (field_space r0 < length (field_space_store res3))%nat) as Htops.
  { intros r0 ->%list_elem_of_singleton. simpl. split_and!; [lia|lia|done]. }
  cbv zeta. cbn [FieldManager.top_regions FieldManager.set_top_regions
                 FieldManager.free_fields].
  destruct (FieldSpace.fields (field_space_store res3 !!! a)) as [|fid others]
    eqn:Hids.
  - destruct (FieldManager.allocate_in a res3) as [res4 fid] eqn:Hin.
    apply allocate_in_spec in Hin as (Hwf4 & Hlen4 & Hn4 & _ & Hfid & Hmono4);
      [|done..].
    intros [= <- <- <-].
    apply (post_grow _ _ _ _ _ [(region, fid)] [region]); try done.
    + intros r0 Hr0. destruct (Htops r0 Hr0) as (? & ? & ?).
      rewrite Hn4, Hlen4. done.
    + rewrite Hn4. simpl. lia.
    + by rewrite Hlen4.
    + intros b x Hb Hx. by apply Hmono4, Hmono.
    + exact (handed_new _ (contents m)).
    + apply NoDup_singleton.
    + intros f ->%list_elem_of_singleton. split; [|done]. split; simpl.
      * apply elem_of_app. right. by apply list_elem_of_singleton.
      * done.
  - assert (NoDup (fid :: others)) as Hnd.
    { rewrite <- Hids. destruct Hwf3 as [_ Hs3].
      eapply Forall_forall in Hs3; [exact Hs3|].
      by eapply list_elem_of_lookup_2, list_lookup_lookup_total_lt. }
    assert (forall i, i ∈ fid :: others ->
              known res3 (FieldManager.set_top_regions
                            (FieldManager.top_regions m ++ [region]) m)
                    (region, i)) as Hknown.
    { intros i Hi. split.
      - apply elem_of_app. right. by apply list_elem_of_singleton.
      - change (i ∈ FieldSpace.fields (field_space_store res3 !!! a)).
        by rewrite Hids. }
    destruct (FieldManager.free_fields m) as [q|] eqn:Hq.
    + intros [= <- <- <-].
      apply (post_grow _ _ _ _ _ ((fun i => (region, i)) <$> fid :: others)
               [region]); try done.
      * simpl. lia.
      * unfold contents. simpl. rewrite Hq. simpl.
        apply Permutation_submseteq. solve_Permutation.
      * apply (NoDup_fmap_2 (fun i : Z => (region, i))). exact Hnd.
      * intros f (i & -> & Hi)%list_elem_of_fmap. split; [|done].
        destruct (Hknown i Hi) as [? ?]. by split.
    + destruct others as [|other others].
      * intros [= <- <- <-].
        apply (post_grow _ _ _ _ _ [(region, fid)] [region]); try done.
        -- simpl. lia.
        -- exact (handed_new _ (contents m)).
        -- apply NoDup_singleton.
        -- intros f ->%list_elem_of_singleton. split; [|done].
           apply Hknown. by left.
      * intros [= <- <- <-].
        apply (post_grow _ _ _ _ _ [] [region]); try done.
        -- simpl. lia.
        -- rewrite app_nil_r. by change (contents m ⊆+ contents m).
        -- constructor.
        -- by intros f ?%elem_of_nil.
Qed.

Lemma post_rebase (res res1 res' : Resources) (m m1 m' : FieldManager.t)
    (out : list FieldRef) :
  same_store res res1 ->
  FieldManager.top_regions m1 = FieldManager.top_regions m ->
  contents m1 ⊆+ contents m ->
  alloc_post res1 m1 res' m' out -> alloc_post res m res' m' out.
Proof.
  intros (Hs & Hn & Hf) Htop Hsub (Hwf & Hreg & Hmono & new & Hnew & Hnd & Hfresh).
  assert (forall f, known res m f <-> known res1 m1 f) as Hknown.
  { intros f. unfold known. by rewrite Hs, Htop. }
  split_and!; [done..| |].
  - intros f Hf1%Hknown. by apply Hmono.
  - exists new. split_and!; [|done|].
    + etrans; [exact Hnew|]. by apply submseteq_app.
    + intros f Hin. destruct (Hfresh f Hin) as [? Hn1]. split; [done|].
      by rewrite Hknown.
Qed.

(** One [allocate_field], whatever its outcome. *)
Lemma allocate_field_post (agreed : list (Z * Z)) (res res' : Resources)
    (m m' : FieldManager.t) r :
  res_wf res -> regions_ok res m ->
  FieldManager.allocate_field agreed res m = (res', m', r) ->
  alloc_post res m res' m' (handed r).
Proof.
  intros Hwf Hreg. unfold FieldManager.allocate_field, FieldManager.serve.
  destruct (FieldManager.exchange agreed res m) as [[res1 m1] r1] eqn:Hex.
  apply exchange_contents in Hex as (Hsame & Htop1 & Hc1).
  destruct r1 as [[]|e|]; [|intros [= <- <- <-]; by apply post_recycle..].
  destruct (FieldManager.free_fields m1) as [[|f q]|] eqn:Hfree.
  2:{ intros [= <- <- <-]. apply post_recycle; [done..|].
      etrans; [|exact Hc1]. unfold contents at 2. by rewrite Hfree. }
  2:{ intros [= <- <- <-]. by apply post_recycle. }
  destruct (FieldManager.resolve _ m1) as [m2 r2] eqn:Hres.
  apply resolve_spec in Hres as [(_ & _ & _ & _ & Htop2) Hc2].
  assert (FieldManager.top_regions m2 = FieldManager.top_regions m) as Htop
      by congruence.
  destruct r2 as [[f|]|e|].
  - intros [= <- <- <-]. apply post_recycle; [done..|]. by etrans.
  - simpl in Hc2.
    destruct (same_store_wf _ _ m Hsame Hwf Hreg) as [Hwf1 Hreg1].
    assert (regions_ok res1 m2) as Hreg2.
    { unfold regions_ok. by rewrite Htop. }
    intros Heq. apply (post_rebase res res1 _ m m2); [done..|by etrans|].
    revert Heq.
    destruct (FieldManager.find_region_with_space _ _) as [reg|] eqn:Hfind.
    + apply find_some in Hfind as [Hin%list_elem_of_In _].
      destruct (Hreg2 reg Hin) as [_ Ha].
      destruct (FieldManager.allocate_in _ _) as [res2 fid] eqn:Hal.
      apply allocate_in_spec in Hal
        as (Hwf2 & Hlen2 & Hn2 & Hfresh & Hfid & Hmono2); [|done..].
      intros [= <- <- <-].
      apply (post_grow _ _ _ _ _ [(reg, fid)] []); try done.
      * by rewrite app_nil_r.
      * by intros r0 ?%elem_of_nil.
      * lia.
      * lia.
      * intros b x _. apply Hmono2.
      * apply handed_new.
      * apply NoDup_singleton.
      * intros g ->%list_elem_of_singleton. split; [by split|].
        by intros [_ Hg].
    + by apply allocate_new_region_post.
  - intros [= <- <- <-]. apply post_recycle; [done..|]. by etrans.
  - intros [= <- <- <-]. apply post_recycle; [done..|]. by etrans.
Qed.

Lemma take_out {A} `{EqDecision A} (f : A) (l : list A) :
  NoDup l -> f ∈ l -> l ≡ₚ f :: filter (fun g => g <> f) l.
Proof.
  induction l as [|x l IH]; intros Hnd Hin; [by apply elem_of_nil in Hin|].
  apply NoDup_cons in Hnd as [Hx Hnd].
  destruct (decide (x = f)) as [->|Hne].
  - rewrite filter_cons_False by (intros ?; done). f_equiv.
    rewrite filter_all; [done|]. intros g Hg ->. done.
  - rewrite filter_cons_True by done.
    apply elem_of_cons in Hin as [->|Hin]; [done|].
    rewrite (IH Hnd Hin) at 1. apply Permutation_swap.
Qed.

Lemma run_inv (res : Resources) (m : FieldManager.t) (held : list FieldRef) :
  run res m held -> pool_inv res m held.
Proof.
  induction 1 as [max_size base shape dtype res m Hwf Hinit
                 |agreed res m held res' m' r _ IH Halloc
                 |res m held f ordered _ IH Hheld].
  - unfold FieldManager.init in Hinit.
    destruct (FieldManager.compute_match_frequency _ _ _ _); [|done..].
    injection Hinit as <-. split_and!; [done| |constructor|].
    + by intros r ?%elem_of_nil.
    + by intros f ?%elem_of_nil.
  - destruct IH as (Hwf & Hreg & Hnd & Hknown).
    apply allocate_field_post in Halloc
      as (Hwf' & Hreg' & Hmono & new & Hsub & Hnew & Hfresh); [|done..].
    assert ((handed r ++ held) ++ contents m' ⊆+ (held ++ contents m) ++ new)
      as Hall.
    { trans (held ++ handed r ++ contents m').
      - apply Permutation_submseteq. solve_Permutation.
      - rewrite <- app_assoc. by apply submseteq_skips_l. }
    split_and!; [done..| |].
    + eapply submseteq_NoDup; [exact Hall|].
      apply NoDup_app. split_and!; [done| |done].
      intros f Hf Hin. destruct (Hfresh f Hin) as [_ Hn]. by apply Hn, Hknown.
    + intros f Hf. eapply elem_of_submseteq in Hf; [|exact Hall].
      apply elem_of_app in Hf as [Hf|Hf]; [by apply Hmono, Hknown|].
      by apply Hfresh.
  - destruct IH as (Hwf & Hreg & Hnd & Hknown).
    assert (NoDup held) as Hnd_held by (by apply NoDup_app in Hnd as [? _]).
    pose proof (take_out f held Hnd_held Hheld) as Hperm.
    set (held' := filter (fun g => g <> f) held) in *.
    assert (exists l1 l2, FieldManager.free_field m f.1 f.2 ordered
                          = requeue l1 l2 m /\ l1 ++ l2 = [f])
      as (l1 & l2 & -> & Hl).
    { rewrite free_field_requeue. destruct f as [rg fid], ordered; simpl.
      - by exists [(rg, fid)], [].
      - by exists [], [(rg, fid)]. }
    assert (held' ++ contents (requeue l1 l2 m) ⊆+ held ++ contents m) as Hall.
    { rewrite Hperm. trans (held' ++ [f] ++ contents m).
      - apply submseteq_skips_l. rewrite <- Hl, <- app_assoc.
        apply contents_requeue.
      - apply Permutation_submseteq. solve_Permutation. }
    split_and!; [done|done| |].
    + by eapply submseteq_NoDup.
    + intros g Hg. eapply elem_of_submseteq in Hg; [|exact Hall].
      by apply Hknown in Hg.
Qed.

(** C1. Along every sequence of [allocate_field] and [free_field] calls on
    one pool, with or without matches in flight, no field is held twice; a
    field a consumer holds is neither on the free queue nor on the pending
    list (nor in a match in flight) until it is freed; and the field the
    next [allocate_field] returns is not one a consumer still holds. *)
Theorem no_double_issue (res : Resources) (m : FieldManager.t)
    (held : list FieldRef) :
  run res m held ->
  NoDup held /\
  (forall f, f ∈ held ->
     (f ∉ default [] (FieldManager.free_fields m)) /\
     (f ∉ default [] (FieldManager.freed_fields m)) /\
     (f ∉ concat (FieldMatch.fields <$> FieldManager.matches m))) /\
  (forall agreed res' m' f,
     FieldManager.allocate_field agreed res m = (res', m', Ok f) ->
     f ∉ held).
Proof.
  intros Hrun. pose proof (run_inv _ _ _ Hrun) as (_ & _ & Hnd & _).
  apply NoDup_app in Hnd as (Hheld & Hdisj & _). split_and!; [done| |].
  - intros f Hf. specialize (Hdisj f Hf). unfold contents in Hdisj.
    rewrite !not_elem_of_app in Hdisj. tauto.
  - intros agreed res' m' f Halloc.
    pose proof (run_inv _ _ _ (run_allocate _ _ _ _ _ _ _ Hrun Halloc))
      as (_ & _ & Hnd' & _).
    simpl in Hnd'. by apply NoDup_cons in Hnd' as [[? _]%not_elem_of_app _].
Qed.
End pool.

(** ** The memo of launch shapes *)

Section memo.
Context `{Legion}.

(** With nothing remembered for [shape], the answer is the one of a manager
    with an empty memo. *)
Lemma compute_launch_shape_miss (shape : Shape) (pm : PartitionManager.t) :
  PartitionManager.launch_spaces pm !! shape = None ->
  (PartitionManager.compute_launch_shape shape pm).2
  = (PartitionManager.compute_launch_shape shape (uncached pm)).2.
Proof.
  intros Hmiss. unfold PartitionManager.compute_launch_shape, uncached. simpl.
  rewrite Hmiss, lookup_empty.
  change (PartitionManager.split (PartitionManager.set_launch_spaces ∅ pm))
    with (PartitionManager.split pm).
  repeat case_match; simplify_eq/=; done.
Qed.

Lemma compute_launch_shape_exact (shape : Shape) (pm pm' : PartitionManager.t) r :
  cache_exact pm ->
  PartitionManager.compute_launch_shape shape pm = (pm', r) ->
  r = (PartitionManager.compute_launch_shape shape (uncached pm)).2 /\
  uncached pm' = uncached pm /\
  cache_exact pm'.
Proof.
  intros Hexact Hc.
  assert (uncached pm' = uncached pm) as Hsame.
  { revert Hc. unfold PartitionManager.compute_launch_shape, uncached.
    intros Hc. repeat case_match; by simplify_eq/=. }
  assert (r = (PartitionManager.compute_launch_shape shape (uncached pm)).2) as Hr.
  { destruct (PartitionManager.launch_spaces pm !! shape) as [v|] eqn:Hhit.
    - rewrite (Hexact _ _ Hhit). revert Hc.
      unfold PartitionManager.compute_launch_shape. rewrite Hhit.
      intros Hc. repeat case_match; simplify_eq/=; try done.
      all: pose proof (Hexact _ _ Hhit) as Hv;
        unfold PartitionManager.compute_launch_shape, uncached in Hv;
        simpl in Hv; repeat case_match; simplify_eq/=; done.
    - rewrite <- compute_launch_shape_miss by done. by rewrite Hc. }
  split_and!; [done..|].
  intros shape' v Hv. rewrite Hsame.
  destruct (decide (shape' = shape)) as [->|Hne].
  - destruct (PartitionManager.launch_spaces pm !! shape) as [v0|] eqn:Hhit.
    + revert Hc Hv. unfold PartitionManager.compute_launch_shape.
      rewrite Hhit. intros Hc Hv. apply Hexact.
      repeat case_match; by simplify_eq/=.
    + rewrite <- Hr. revert Hc Hv. unfold PartitionManager.compute_launch_shape.
      rewrite Hhit. intros Hc Hv.
      repeat case_match; simplify_eq/=;
        rewrite ?lookup_insert_eq in Hv; by simplify_eq/=.
  - apply Hexact. revert Hc Hv. unfold PartitionManager.compute_launch_shape.
    intros Hc Hv.
    repeat case_match; simplify_eq/=;
      rewrite ?lookup_insert_ne in Hv by done; done.
Qed.

Lemma reachable_exact (pm : PartitionManager.t) :
  reachable pm ->
  cache_exact pm /\ exists n v, PartitionManager.init n v = Ok (uncached pm).
Proof.
  induction 1 as [n v pm Hinit|shape pm pm' r _ [IH (n & v & Hinit)] Hstep].
  - pose proof (init_spec _ _ _ Hinit) as (_ & _ & Hempty & _). split.
    + intros shape v0. by rewrite Hempty, lookup_empty.
    + exists n, v. rewrite Hinit. f_equal. destruct pm. simpl in *. by subst.
  - apply (compute_launch_shape_exact _ _ _ _ IH) in Hstep as (_ & Hsame & Hex).
    split; [done|]. exists n, v. by rewrite Hsame.
Qed.

(** X1. The memo never changes an answer: whatever calls came before, a
    partition manager reached from [__init__] answers
    [compute_launch_shape] as the freshly initialised manager does. *)
Theorem launch_shape_memo_transparent (shape : Shape)
    (pm pm' : PartitionManager.t) r :
  reachable pm ->
  PartitionManager.compute_launch_shape shape pm = (pm', r) ->
  exists n v,
    PartitionManager.init n v = Ok (uncached pm) /\
    (PartitionManager.compute_launch_shape shape (uncached pm)).2 = r.
Proof.
  intros [Hexact (n & v & Hinit)]%reachable_exact Hc.
  exists n, v. split; [done|].
  by apply (compute_launch_shape_exact _ _ _ _ Hexact) in Hc as (-> & _ & _).
Qed.

(** X2. Asking again gives the same answer and, from the second call on,
    leaves the manager as it is. *)
Theorem launch_shape_memo_idempotent (shape : Shape) (pm : PartitionManager.t) :
  PartitionManager.compute_launch_shape shape
    (PartitionManager.compute_launch_shape shape pm).1
  = PartitionManager.compute_launch_shape shape pm.
Proof.
  destruct (PartitionManager.compute_launch_shape shape pm) as [pm' r] eqn:Hc.
  simpl. unfold PartitionManager.compute_launch_shape in Hc.
  repeat match type of Hc with
         | context [match ?x with _ => _ end] => destruct x eqn:?
         end;
    simplify_eq; unfold PartitionManager.compute_launch_shape;
    cbn -[PartitionManager.split PartitionManager.prune];
    repeat match goal with
           | Heq : ?x = _ |- context [?x] => rewrite Heq
           end;
    rewrite ?lookup_insert_eq; done.
Qed.

(** How a launch shape comes about when nothing is remembered for the
    shape. *)
Lemma compute_launch_shape_fresh (shape r : Shape) (pm : PartitionManager.t) :
  PartitionManager.launch_spaces pm !! shape = None ->
  (PartitionManager.compute_launch_shape shape pm).2 = Ok (Some r) ->
  2 <= PartitionManager.num_pieces pm /\
  exists ts td,
    PartitionManager.prune shape 0 [] [] 1 = Ok (ts, td, volume ts) /\
    ((ts = [] /\ r = replicate (length shape) 1) \/
     (ts <> [] /\
      exists tr,
        PartitionManager.split pm (PartitionManager.num_pieces pm) (volume ts) ts
        = Ok tr /\
        length tr = length ts /\ r = expand shape tr)).
Proof.
  intros Hmiss. unfold PartitionManager.compute_launch_shape. rewrite Hmiss.
  case_bool_decide as Hpos; simpl; [|done].
  case_bool_decide as Hone; [done|].
  destruct (forallb _ shape); [done|].
  destruct (PartitionManager.prune shape 0 [] [] 1) as [[[ts td] vol]|e|] eqn:Hp;
    [|done..].
  pose proof (prune_spec _ _ _ _ _ Hp) as (_ & -> & _ & _ & Hproj).
  case_bool_decide; [done|]. case_bool_decide; simpl; [|done].
  case_bool_decide; [done|].
  intros Hr. split; [lia|]. exists ts, td. split; [done|]. revert Hr.
  destruct ts as [|t0 ts'] eqn:Hts.
  { intros [= <-]. by left. }
  rewrite <- Hts in *. right. split; [by rewrite Hts|]. revert Hr.
  destruct (PartitionManager.split _ _ _ _) as [tr|e|] eqn:Hsplit; [|done..].
  case_bool_decide as Hlen; simpl; [|done]. intros [= <-].
  exists tr. split_and!; [done..|]. unfold PartitionManager.project. apply Hproj.
Qed.
End memo.

(** ** What the planner's launch shapes are good for *)

Section planner.
Context `{Legion} `{!LegionSqrt}.

Lemma filter_keeps_Forall {A} (P Q : A -> Prop) `{!forall x, Decision (Q x)}
    (l : list A) :
  Forall P l -> Forall P (filter Q l).
Proof.
  rewrite !Forall_forall. intros Hall x [_ Hin]%list_elem_of_filter. by apply Hall.
Qed.

(** A launch shape handed out by a manager in use comes from the computation
    on the pruned shape, also when it is read off the memo. *)
Lemma reachable_launch (shape r : Shape) (pm : PartitionManager.t) :
  reachable pm ->
  (PartitionManager.compute_launch_shape shape pm).2 = Ok (Some r) ->
  2 <= PartitionManager.num_pieces pm /\
  Forall (fun ext => 0 < ext) shape /\
  exists tr,
    PartitionManager.split pm (PartitionManager.num_pieces pm)
      (volume (filter (fun ext => ext <> 1) shape))
      (filter (fun ext => ext <> 1) shape) = Ok tr /\
    length tr = length (filter (fun ext => ext <> 1) shape) /\
    r = expand shape tr /\
    Forall (fun p => 1 <= p) tr /\
    volume tr <= PartitionManager.num_pieces pm.
Proof.
  intros Hreach Hr.
  pose proof (reachable_inv _ Hreach) as [Hfac _].
  destruct (reachable_exact _ Hreach) as [Hexact _].
  destruct (PartitionManager.compute_launch_shape shape pm) as [pm' res] eqn:Hc.
  destruct (compute_launch_shape_exact _ _ _ _ Hexact Hc) as (Hres & _ & _).
  simpl in Hr. rewrite Hr in Hres. symmetry in Hres.
  apply compute_launch_shape_fresh in Hres as (Hn & ts & td & Hp & Hcase);
    [|apply lookup_empty].
  change (PartitionManager.num_pieces (uncached pm))
    with (PartitionManager.num_pieces pm) in *.
  pose proof (prune_spec _ _ _ _ _ Hp) as (Hts & _ & Hpos & _ & _).
  rewrite <- Hts. split_and!; [done..|].
  destruct Hcase as [[-> ->]|(_ & tr & Hsplit & Hlen & ->)].
  - exists []. rewrite expand_nil, volume_nil. split_and!; [done..|lia].
  - change (PartitionManager.split (uncached pm))
      with (PartitionManager.split pm) in Hsplit.
    exists tr. split_and!; [done..| |];
      eapply split_spec; try exact Hsplit; try done;
      rewrite Hts; by apply filter_keeps_Forall.
Qed.

Lemma square_pieces_within (n s0 s1 : Z) (tr : list Z) :
  PartitionManager.square_pieces n s0 s1 = Ok tr ->
  exists a b, tr = [Z.min a s0; Z.min b s1].
Proof.
  unfold PartitionManager.square_pieces.
  destruct (PartitionManager.search_down _ _ _); [|done..].
  destruct (PartitionManager.search_up _ _ _); [|done..].
  destruct (bool_decide (s0 > s1)); intros [= <-]; eauto.
Qed.

Lemma split_within (pm : PartitionManager.t) (n : Z) (ts tr : list Z) :
  (length ts <= 2)%nat ->
  Forall (fun ext => 0 < ext) ts ->
  PartitionManager.split pm n (volume ts) ts = Ok tr ->
  Forall2 (fun p e => p <= e) tr ts.
Proof.
  intros Hlen Hpos. unfold PartitionManager.split.
  destruct ts as [|s0 [|s1 [|s2 ts]]]; simpl in Hlen; [| | |lia].
  - by intros [= <-].
  - intros [= <-]. repeat constructor. lia.
  - case_bool_decide.
    + intros [= <-]. repeat constructor; lia.
    + intros (a & b & ->)%square_pieces_within. repeat constructor; lia.
Qed.

Lemma expand_within (shape tr : list Z) :
  Forall (fun ext => 0 < ext) shape ->
  Forall2 (fun p e => 1 <= p <= e) tr (filter (fun ext => ext <> 1) shape) ->
  Forall2 (fun p e => 1 <= p <= e) (expand shape tr) shape.
Proof.
  intros Hpos. revert tr.
  induction Hpos as [|ext rest Hext _ IH]; intros tr Hall; simpl; [done|].
  case_bool_decide as Hone.
  - rewrite filter_cons_False in Hall by (intros ?; done).
    constructor; [lia|by apply IH].
  - rewrite filter_cons_True in Hall by done.
    inversion Hall as [|p e tr' ts' Hp Hall']; subst.
    constructor; [done|by apply IH].
Qed.

(** X3. With at most two extents other than 1 no dimension gets more
    pieces than it has elements: the launch shape lies between 1 and the
    extent in every dimension. *)
Theorem launch_shape_within_extents (shape r : Shape) (pm : PartitionManager.t) :
  reachable pm ->
  (length (filter (fun ext : Z => ext <> 1%Z) shape) <= 2)%nat ->
  (PartitionManager.compute_launch_shape shape pm).2 = Ok (Some r) ->
  Forall2 (fun p e => 1 <= p <= e) r shape.
Proof.
  intros Hreach Hdims Hr.
  destruct (reachable_launch _ _ _ Hreach Hr)
    as (Hn & Hpos & tr & Hsplit & Hlen & -> & Hge & _).
  apply expand_within; [done|].
  apply split_within in Hsplit; [|done|by apply filter_keeps_Forall].
  clear Hr Hlen Hdims. revert Hge Hsplit.
  generalize (filter (fun ext => ext <> 1) shape).
  intros ts Hge Hle. induction Hle as [|p e tr ts Hpe _ IH]; [done|].
  apply Forall_cons in Hge as [? ?]. constructor; [lia|by apply IH].
Qed.

Lemma launch_shape_pieces_positive (shape r : Shape) (pm : PartitionManager.t) :
  reachable pm ->
  (PartitionManager.compute_launch_shape shape pm).2 = Ok (Some r) ->
  length r = length shape /\ Forall (fun p => 1 <= p) r /\
  Forall (fun ext => 0 < ext) shape /\
  volume r <= PartitionManager.num_pieces pm /\
  1 <= PartitionManager.num_pieces pm.
Proof.
  intros Hreach Hr.
  destruct (reachable_launch _ _ _ Hreach Hr)
    as (Hn & Hpos & tr & _ & Hlen & -> & Hge & Hvol).
  split_and!; [apply expand_length|by apply expand_Forall|done| |lia].
  by rewrite expand_volume.
Qed.

(** X4. The tile shape for a launch shape of the planner always exists
    and, dimension by dimension, has at least one element per tile and just
    enough tiles: the pieces cover the extent, one piece less would not. *)
Theorem tile_shape_covers (shape r : Shape) (pm : PartitionManager.t) :
  reachable pm ->
  (PartitionManager.compute_launch_shape shape pm).2 = Ok (Some r) ->
  exists tile,
    PartitionManager.compute_tile_shape shape r = Ok tile /\
    length tile = length shape /\
    forall i s p t,
      shape !! i = Some s -> r !! i = Some p -> tile !! i = Some t ->
      1 <= t /\ is_ceil s p t.
Proof.
  intros Hreach Hr.
  destruct (launch_shape_pieces_positive _ _ _ Hreach Hr)
    as (Hlen & Hge & Hpos & _ & _).
  unfold PartitionManager.compute_tile_shape.
  rewrite bool_decide_eq_true_2 by done. simpl.
  rewrite bool_decide_eq_false_2; last first.
  { intros Hin. rewrite Forall_forall in Hge. apply Hge in Hin. lia. }
  eexists. split; [done|]. split.
  { rewrite length_zip_with. lia. }
  intros i s p t Hs Hp. rewrite lookup_zip_with, Hs, Hp. simpl. intros [= <-].
  rewrite Forall_lookup in Hge. apply Hge in Hp.
  rewrite Forall_lookup in Hpos. apply Hpos in Hs.
  pose proof (ceil_div_is_ceil s p ltac:(lia)) as Hceil.
  split; [|done]. unfold is_ceil in Hceil. nia.
Qed.

(** X5. A tiling that comes from the planner is always a complete tiling:
    [use_complete_tiling] answers [True] for the tile shape computed from a
    launch shape of the same manager. *)
Theorem planner_tiling_is_complete (shape r tile : Shape)
    (pm : PartitionManager.t) :
  reachable pm ->
  (PartitionManager.compute_launch_shape shape pm).2 = Ok (Some r) ->
  PartitionManager.compute_tile_shape shape r = Ok tile ->
  PartitionManager.use_complete_tiling shape tile pm = Ok true.
Proof.
  intros Hreach Hr.
  destruct (launch_shape_pieces_positive _ _ _ Hreach Hr)
    as (Hlen & Hge & Hpos & Hvol & Hn).
  unfold PartitionManager.compute_tile_shape.
  rewrite bool_decide_eq_true_2 by done. simpl.
  case_bool_decide; [done|]. intros [= <-].
  assert (Forall2 (fun s p => 0 < s /\ 1 <= p) shape r) as Hall.
  { apply Forall2_same_length_lookup_2; [done|]. intros i s p Hs Hp.
    rewrite Forall_lookup in Hge. rewrite Forall_lookup in Hpos. eauto. }
  clear Hlen Hge Hpos Hr.
  assert (Forall2 (fun s t => 0 <= s /\ 0 < t) shape
            (zip_with (fun x y => (x + y - 1) `div` y) shape r) /\
          Forall2 (fun a b => 0 <= a <= b)
            (zip_with (fun x y => x `div` y) shape
               (zip_with (fun x y => (x + y - 1) `div` y) shape r)) r)
    as [Hdiv Hle].
  { clear -Hall.
    induction Hall as [|s p shape r [Hs Hp] _ [IH1 IH2]]; [done|]. simpl.
    pose proof (ceil_div_is_ceil s p ltac:(lia)) as Hceil. unfold is_ceil in Hceil.
    assert (0 < (s + p - 1) `div` p) by nia.
    split; constructor; try done.
    - lia.
    - split; [apply Z.div_pos; lia|]. apply Z.div_le_upper_bound; lia. }
  unfold PartitionManager.use_complete_tiling.
  rewrite shape_floordiv_ok by done.
  apply volume_mono in Hle. do 2 f_equal.
  rewrite (bool_decide_eq_false_2 (_ > 16 * _)) by lia.
  by rewrite andb_false_r.
Qed.

Lemma prune_rejects (shape : Shape) (dim : nat) ts td v :
  Exists (fun ext => ext <= 0) shape ->
  PartitionManager.prune shape dim ts td v = Raise AssertionError.
Proof.
  intros Hex. revert dim ts td v.
  induction shape as [|ext rest IH]; intros dim ts td v; [by inversion Hex|].
  simpl. case_bool_decide as Hpos; simpl; [|done].
  apply Exists_cons in Hex as [?|Hex]; [lia|].
  case_bool_decide; by apply IH.
Qed.

(** X6. An empty dimension beside a parallel one stops the planner: on a
    manager with more than one piece, a shape with an extent above 1 and an
    extent of 0 or less that is not in the memo raises [AssertionError] and
    leaves the manager as it was. *)
Theorem launch_shape_rejects_empty_extent (shape : Shape)
    (pm : PartitionManager.t) :
  1 < PartitionManager.num_pieces pm ->
  PartitionManager.launch_spaces pm !! shape = None ->
  Exists (fun ext => 1 < ext) shape ->
  Exists (fun ext => ext <= 0) shape ->
  PartitionManager.compute_launch_shape shape pm = (pm, Raise AssertionError).
Proof.
  intros Hn Hmiss Hbig Hempty. unfold PartitionManager.compute_launch_shape.
  rewrite bool_decide_eq_true_2 by lia. simpl.
  rewrite bool_decide_eq_false_2 by lia.
  replace (forallb _ shape) with false; last first.
  { symmetry. apply not_true_is_false. intros Hall.
    rewrite forallb_forall in Hall. apply Exists_exists in Hbig as (e & Hin & He).
    apply list_elem_of_In, Hall, bool_decide_eq_true in Hin. lia. }
  rewrite Hmiss. by rewrite prune_rejects.
Qed.
End planner.

(** ** The factors of the number of pieces *)

Lemma coprime_small_prime (q p : Z) :
  p ∈ [2; 3; 5; 7; 11] -> q `mod` p <> 0 -> Z.gcd q p = 1.
Proof.
  intros Hp Hmod. rewrite <- Z.gcd_mod_l.
  assert (0 < p <= 11) as Hrange.
  { rewrite !elem_of_cons, elem_of_nil in Hp. lia. }
  pose proof (Z.mod_pos_bound q p ltac:(lia)) as Hr.
  revert Hmod Hr. generalize (q `mod` p). intros r Hmod Hr.
  assert (r = 1 \/ r = 2 \/ r = 3 \/ r = 4 \/ r = 5 \/ r = 6 \/ r = 7 \/
          r = 8 \/ r = 9 \/ r = 10) as Hc by lia.
  rewrite !elem_of_cons, elem_of_nil in Hp.
  destruct Hp as [->|[->|[->|[->|[->|[]]]]]];
    repeat (destruct Hc as [->|Hc]; [first [lia|done]|]);
    subst r; first [lia|done].
Qed.

Lemma coprime_to_smooth (q : Z) k2 k3 k5 k7 k11 :
  Forall (fun p => q `mod` p <> 0) [2; 3; 5; 7; 11] ->
  Z.gcd q (smooth_product k2 k3 k5 k7 k11) = 1.
Proof.
  intros Hall. rewrite Forall_forall in Hall.
  assert (forall p (k : nat), p ∈ [2; 3; 5; 7; 11] ->
            Z.coprime q (p ^ Z.of_nat k)) as Hp.
  { intros p k Hin. apply Z.coprime_pow_r; [lia|].
    apply coprime_small_prime; [done|by apply Hall]. }
  unfold smooth_product.
  repeat apply Z.coprime_mul_r; apply Hp; rewrite !elem_of_cons; tauto.
Qed.

Lemma smooth_product_pos k2 k3 k5 k7 k11 : 0 < smooth_product k2 k3 k5 k7 k11.
Proof.
  unfold smooth_product. repeat apply Z.mul_pos_pos; apply Z.pow_pos_nonneg; lia.
Qed.

Lemma coprime_divisor_of_smooth (q : Z) k2 k3 k5 k7 k11 j2 j3 j5 j7 j11 :
  1 <= q ->
  Forall (fun p => q `mod` p <> 0) [2; 3; 5; 7; 11] ->
  q * smooth_product k2 k3 k5 k7 k11 = smooth_product j2 j3 j5 j7 j11 ->
  q = 1.
Proof.
  intros Hq Hall Heq.
  assert (q | smooth_product j2 j3 j5 j7 j11 * 1) as Hdiv.
  { rewrite Z.mul_1_r, <- Heq. by apply Z.divide_mul_l. }
  apply Z.gauss in Hdiv; [|by apply coprime_to_smooth].
  apply Z.divide_1_r_nonneg in Hdiv; lia.
Qed.

Lemma mod_of_factor (p a b : Z) : (a * b) `mod` p <> 0 -> a `mod` p <> 0.
Proof.
  intros Hab Ha. apply Hab. rewrite <- Zmult_mod_idemp_l, Ha. apply Zmod_0_l.
Qed.

(** One loop of the constructor divides out a power of [p], and all of it. *)
Lemma strip_spec (fuel : nat) (p pieces : Z) (factors : list Z) q fs :
  p <> 0 ->
  PartitionManager.strip fuel p pieces factors = Some (q, fs) ->
  exists k : nat,
    fs = factors ++ replicate k p /\ pieces = q * p ^ Z.of_nat k /\
    q `mod` p <> 0.
Proof.
  intros Hp. revert pieces factors.
  induction fuel as [|fuel IH]; intros pieces factors; simpl; [done|].
  case_bool_decide as Hdiv.
  - intros (k & -> & Hq & Hmod)%IH. exists (S k). split_and!; [|  |done].
    + by rewrite <- app_assoc.
    + pose proof (Z.div_mod pieces p Hp) as Hdm. rewrite Hdiv in Hdm.
      rewrite Nat2Z.inj_succ, Z.pow_succ_r by lia. lia.
  - intros [= <- <-]. exists 0%nat. simpl. rewrite app_nil_r.
    split_and!; [done|lia|done].
Qed.

Lemma strip_all_spec (n q : Z) (fs : list Z) :
  PartitionManager.strip_all n = Some (q, fs) ->
  exists k2 k3 k5 k7 k11 : nat,
    fs = replicate k2 2 ++ replicate k3 3 ++ replicate k5 5
         ++ replicate k7 7 ++ replicate k11 11 /\
    n = q * smooth_product k2 k3 k5 k7 k11 /\
    Forall (fun p => q `mod` p <> 0) [2; 3; 5; 7; 11].
Proof.
  unfold PartitionManager.strip_all. cbv zeta.
  generalize (S (Z.to_nat (Z.abs n))). intros fuel.
  destruct (PartitionManager.strip _ 2 _ _) as [[q2 f2]|] eqn:H2; simpl; [|done].
  destruct (PartitionManager.strip _ 3 _ _) as [[q3 f3]|] eqn:H3; simpl; [|done].
  destruct (PartitionManager.strip _ 5 _ _) as [[q5 f5]|] eqn:H5; simpl; [|done].
  destruct (PartitionManager.strip _ 7 _ _) as [[q7 f7]|] eqn:H7; simpl; [|done].
  intros H11.
  apply strip_spec in H2 as (k2 & -> & -> & M2); [|done].
  apply strip_spec in H3 as (k3 & -> & -> & M3); [|done].
  apply strip_spec in H5 as (k5 & -> & -> & M5); [|done].
  apply strip_spec in H7 as (k7 & -> & -> & M7); [|done].
  apply strip_spec in H11 as (k11 & -> & -> & M11); [|done].
  exists k2, k3, k5, k7, k11. split_and!.
  - simpl. by rewrite <- !app_assoc.
  - unfold smooth_product. lia.
  - repeat constructor; try done.
    + do 4 apply mod_of_factor in M2. done.
    + do 3 apply mod_of_factor in M3. done.
    + do 2 apply mod_of_factor in M5. done.
    + by apply mod_of_factor in M7.
Qed.

(** X7. For a positive number of pieces the constructor, when it returns,
    has written the number as a product of powers of 2, 3, 5, 7 and 11 and
    keeps the factors largest first; the memo starts empty. *)
Theorem init_factors (n v : Z) (pm : PartitionManager.t) :
  1 <= n ->
  PartitionManager.init n v = Ok pm ->
  exists k2 k3 k5 k7 k11 : nat,
    n = smooth_product k2 k3 k5 k7 k11 /\
    pm = PartitionManager.mk n v ∅
           (replicate k11 11 ++ replicate k7 7 ++ replicate k5 5
            ++ replicate k3 3 ++ replicate k2 2).
Proof.
  intros Hn. unfold PartitionManager.init.
  destruct (PartitionManager.strip_all n) as [[q fs]|] eqn:Hs; [|done].
  apply strip_all_spec in Hs as (k2 & k3 & k5 & k7 & k11 & -> & Hq & _).
  case_bool_decide as Hbig; [done|]. intros [= <-].
  exists k2, k3, k5, k7, k11.
  pose proof (smooth_product_pos k2 k3 k5 k7 k11) as Hpos.
  assert (q = 1) as -> by nia. split; [lia|].
  by rewrite !reverse_app, !reverse_replicate, <- !app_assoc.
Qed.

(** X8. A positive number of pieces is accepted exactly when it has no
    prime factor above 11: products of powers of 2, 3, 5, 7 and 11 give a
    manager, every other number raises [ValueError]. *)
Theorem init_accepts_small_primes_only (n v : Z) :
  1 <= n ->
  ((exists k2 k3 k5 k7 k11, n = smooth_product k2 k3 k5 k7 k11) ->
   exists pm, PartitionManager.init n v = Ok pm) /\
  (~ (exists k2 k3 k5 k7 k11, n = smooth_product k2 k3 k5 k7 k11) ->
   PartitionManager.init n v = Raise ValueError).
Proof.
  intros Hn. pose proof (init_ends n v ltac:(lia)) as Hends.
  unfold PartitionManager.init in *.
  destruct (PartitionManager.strip_all n) as [[q fs]|] eqn:Hs; [|done].
  apply strip_all_spec in Hs as (k2 & k3 & k5 & k7 & k11 & _ & Hq & Hmods).
  pose proof (smooth_product_pos k2 k3 k5 k7 k11) as Hpos.
  split.
  - intros (j2 & j3 & j5 & j7 & j11 & Hj). rewrite Hj in Hq. symmetry in Hq.
    apply coprime_divisor_of_smooth in Hq as ->; [|nia|done].
    rewrite bool_decide_eq_false_2 by lia. eauto.
  - intros Hnot. case_bool_decide as Hbig; [done|]. destruct Hnot.
    exists k2, k3, k5, k7, k11. assert (q = 1) as -> by nia. lia.
Qed.

(** X9. The constructor fails to return for exactly one number of pieces,
    0: there its first loop never ends, however long it runs. *)
Theorem init_hangs_only_on_zero (n v : Z) :
  (PartitionManager.init n v = Diverge <-> n = 0) /\
  forall fuel, PartitionManager.strip fuel 2 0 [] = None.
Proof.
  split; [|intros fuel; apply strip_never_ends]. split.
  - intros Hd. destruct (decide (n = 0)) as [|Hne]; [done|].
    by apply (init_ends n v) in Hne.
  - intros ->. unfold PartitionManager.init, PartitionManager.strip_all.
    cbv zeta. by rewrite strip_never_ends.
Qed.

(** ** The registry of attachments in use *)

Lemma dict_get_set {K V} `{EqDecision K} (k k' : K) (v : V) (d : list (K * V)) :
  dict_get k' (dict_set k v d) = if decide (k' = k) then Some v else dict_get k' d.
Proof.
  induction d as [|[k0 v0] d IH]; simpl.
  - by repeat case_decide.
  - repeat (case_decide; simpl; simplify_eq); try done.
    all: rewrite IH; by repeat case_decide.
Qed.

Lemma dict_set_new {K V} `{EqDecision K} (k : K) (v : V) (d : list (K * V)) :
  dict_get k d = None -> dict_set k v d = d ++ [(k, v)].
Proof.
  induction d as [|[k0 v0] d IH]; simpl; [done|].
  case_decide; [done|]. intros Hd. by rewrite IH.
Qed.

Lemma dict_set_known {K V} `{EqDecision K} (k : K) (v v' : V) (d : list (K * V)) :
  dict_get k d = Some v ->
  exists i, d !! i = Some (k, v) /\ dict_set k v' d = <[i := (k, v')]> d.
Proof.
  induction d as [|[k0 v0] d IH]; simpl; [done|].
  case_decide as Hk.
  - intros [= ->]. subst. by exists 0%nat.
  - intros (i & Hi & ->)%IH. by exists (S i).
Qed.

Lemma dict_get_not_in {K V} `{EqDecision K} (k : K) (d : list (K * V)) :
  dict_get k d = None -> k ∉ d.*1.
Proof.
  intros Hget (kv & -> & Hin)%list_elem_of_fmap. destruct kv as [k v].
  by apply (dict_get_None _ _ Hget v).
Qed.

Lemma overlaps_sym (a b : Attachment.t) :
  Attachment.overlaps a b = Attachment.overlaps b a.
Proof. unfold Attachment.overlaps. by rewrite orb_comm. Qed.

Lemma overlaps_span (a a' b b' : Attachment.t) :
  Attachment.ptr a' = Attachment.ptr a -> Attachment.end_ a' = Attachment.end_ a ->
  Attachment.ptr b' = Attachment.ptr b -> Attachment.end_ b' = Attachment.end_ b ->
  Attachment.overlaps a' b' = Attachment.overlaps a b.
Proof. unfold Attachment.overlaps. by intros -> -> -> ->. Qed.

Lemma check_aliases_apart (others : list Attachment.t) (a : Attachment.t) :
  AttachmentManager.check_aliases others a = Ok tt ->
  Forall (fun o => Attachment.overlaps o a = false) others.
Proof.
  induction others as [|o others IH]; simpl; [done|].
  destruct (Attachment.overlaps o a) eqn:Ho; [by destruct (Attachment.equals o a)|].
  intros Hrest. constructor; [done|by apply IH].
Qed.

(** A new attachment that overlaps none of the registered ones keeps the
    invariant. *)
Lemma registry_disjoint_new (d : list ((Z * Z) * Attachment.t))
    (ptr extent : Z) (region : Region) (field : Field) :
  registry_disjoint d ->
  dict_get (ptr, extent) d = None ->
  Forall (fun o => Attachment.overlaps o (Attachment.init ptr extent region field) = false)
         (dict_values d) ->
  registry_disjoint (d ++ [((ptr, extent), Attachment.init ptr extent region field)]).
Proof.
  intros (Hok & Hnd & Hapart) Hnew Hall.
  set (a := Attachment.init ptr extent region field) in *. split_and!.
  - intros k b [Hin|Hin%list_elem_of_singleton]%elem_of_app; [by apply Hok|].
    simplify_eq. simpl. split_and!; [done|lia|lia].
  - rewrite fmap_app. apply NoDup_app. split_and!; [done| |apply NoDup_singleton].
    intros k Hk ->%list_elem_of_singleton. by apply dict_get_not_in in Hnew.
  - assert (forall i k b, d !! i = Some (k, b) -> Attachment.overlaps b a = false)
      as Hold.
    { intros i k b Hi. rewrite Forall_forall in Hall. apply Hall.
      unfold dict_values. apply list_elem_of_fmap. exists (k, b).
      split; [done|]. by apply list_elem_of_lookup_2 in Hi. }
    intros i j ka kb x y Hij Hi Hj.
    apply lookup_app_Some in Hi as [Hi|[Hli Hi]];
      apply lookup_app_Some in Hj as [Hj|[Hlj Hj]].
    + by apply (Hapart i j ka kb).
    + apply list_lookup_singleton_Some in Hj as [_ [= <- <-]]. by apply (Hold i ka).
    + apply list_lookup_singleton_Some in Hi as [_ [= <- <-]].
      rewrite overlaps_sym. by apply (Hold j kb).
    + apply list_lookup_singleton_Some in Hi as [? _].
      apply list_lookup_singleton_Some in Hj as [? _]. lia.
Qed.

(** Changing the reference count of an entry keeps the invariant. *)
Lemma registry_disjoint_count (d : list ((Z * Z) * Attachment.t)) (i : nat)
    (k : Z * Z) (a : Attachment.t) (c : Z) :
  registry_disjoint d -> d !! i = Some (k, a) -> 1 <= c ->
  registry_disjoint (<[i := (k, Attachment.set_count c a)]> d).
Proof.
  intros (Hok & Hnd & Hapart) Hi Hc.
  assert (forall j kb b,
            <[i := (k, Attachment.set_count c a)]> d !! j = Some (kb, b) ->
            exists b0, d !! j = Some (kb, b0) /\
              Attachment.ptr b = Attachment.ptr b0 /\
              Attachment.extent b = Attachment.extent b0 /\
              Attachment.end_ b = Attachment.end_ b0 /\
              (1 <= Attachment.count b0 -> 1 <= Attachment.count b)) as Hold.
  { intros j kb b Hj. destruct (decide (j = i)) as [->|Hne].
    - rewrite list_lookup_insert_eq in Hj by (by eapply lookup_lt_Some).
      injection Hj as <- <-. exists a. by split_and!.
    - rewrite list_lookup_insert_ne in Hj by done. exists b. by split_and!. }
  split_and!.
  - intros kb b Hin. apply list_elem_of_lookup_1 in Hin as [j Hj].
    apply Hold in Hj as (b0 & Hj & Hp & He & Hend & Hcount).
    apply list_elem_of_lookup_2, Hok in Hj as (-> & ? & ?).
    split_and!; [congruence|lia|by apply Hcount].
  - rewrite list_fmap_insert. simpl. rewrite list_insert_id; [done|].
    by rewrite list_lookup_fmap, Hi.
  - intros j l ka kb x y Hjl Hj Hl.
    apply Hold in Hj as (x0 & Hj & ? & _ & ? & _).
    apply Hold in Hl as (y0 & Hl & ? & _ & ? & _).
    rewrite (overlaps_span x0 x y0 y) by done. by apply (Hapart j l ka kb).
Qed.

Section registry.
Context {R : Type}
  (allocate_field : Shape -> DType -> R -> R * result RegionField)
  (attach_numpy_array : RegionField -> NDArray -> bool -> R -> R).

(** X10. However the arrays are attached and removed, and whatever the
    calls return, the registry stays a dict of pairwise disjoint buffers:
    each attachment is filed under its own pointer and extent, once, with a
    reference count of at least 1, and no two registered buffers overlap. *)
Theorem registry_stays_disjoint (am : AttachmentManager.t) :
  registered allocate_field attach_numpy_array am ->
  exists d, AttachmentManager.attachments am = Some d /\ registry_disjoint d.
Proof.
  induction 1 as [|array dtype share rt am rt' am' r _ (d & Hd & Hinv) Hatt
                  |array am am' r _ (d & Hd & Hinv) Hrem].
  - exists []. split; [done|]. split_and!; [|constructor|]; intros *;
      [by intros ?%elem_of_nil|by rewrite lookup_nil].
  - unfold AttachmentManager.attach_array in Hatt. rewrite Hd in Hatt.
    destruct (base_is_ndarray array); [simplify_eq; eauto|].
    destruct (dict_get _ d) as [a|] eqn:Hget.
    + injection Hatt as <- <- <-. eexists. split; [done|].
      destruct (dict_set_known _ a (Attachment.add_reference a) d Hget)
        as (i & Hi & ->).
      apply registry_disjoint_count; [done..|].
      destruct Hinv as (Hok & _). apply list_elem_of_lookup_2, Hok in Hi. lia.
    + destruct (allocate_field _ _ _) as [rt1 [rf|e|]]; [|simplify_eq; eauto..].
      destruct (AttachmentManager.check_aliases _ _) as [[]|e|] eqn:Hscan;
        [|simplify_eq; eauto..].
      injection Hatt as <- <- <-. eexists. split; [done|].
      rewrite dict_set_new by done.
      apply registry_disjoint_new; [done..|]. by apply check_aliases_apart.
  - unfold AttachmentManager.remove_attachment in Hrem. rewrite Hd in Hrem.
    destruct (dict_get _ d) as [a|] eqn:Hget; [|simplify_eq; eauto].
    unfold Attachment.remove_reference, Attachment.collectible in Hrem.
    case_bool_decide as Hpos; simpl in Hrem; [|simplify_eq; eauto].
    rewrite bool_decide_eq_false_2 in Hrem by lia.
    injection Hrem as <- <-. eexists. split; [done|].
    destruct (dict_set_known _ a
                (Attachment.set_count (Attachment.count a + 1) a) d Hget)
      as (i & Hi & ->).
    apply registry_disjoint_count; [done..|lia].
Qed.

(** X12. Attaching a buffer whose key has just been attached takes no
    field and binds nothing: the runtime is left as it is, and the store
    that comes back sits on the region and field of the first one, with the
    shape and element type of the second call. *)
Theorem attach_again_shares_storage (array array' : NDArray)
    (dtype dtype' : DType) (share share' : bool) (rt rt1 : R)
    (am am1 : AttachmentManager.t) (s : Store) :
  AttachmentManager.attach_array allocate_field attach_numpy_array
    array dtype share rt am = (rt1, am1, Ok s) ->
  AttachmentManager.attachment_key array' = AttachmentManager.attachment_key array ->
  base_is_ndarray array' = false ->
  exists am2,
    AttachmentManager.attach_array allocate_field attach_numpy_array
      array' dtype' share' rt1 am1
    = (rt1, am2,
       Ok (mkStore (a_shape array') dtype'
             (mkRegionField (rf_region (storage s)) (rf_field (storage s))
                            (a_shape array')))) /\
    AttachmentManager.has_attachment array am2 = Ok true.
Proof.
  intros Hatt Hkey Hbase.
  assert (exists d a,
            am1 = AttachmentManager.mk (Some d) /\
            dict_get (AttachmentManager.attachment_key array) d = Some a /\
            Attachment.region a = rf_region (storage s) /\
            Attachment.field a = rf_field (storage s)) as (d & a & -> & Hget & Hr & Hf).
  { unfold AttachmentManager.attach_array in Hatt.
    destruct (base_is_ndarray array); [done|].
    destruct (AttachmentManager.attachments am) as [d|]; [|done].
    destruct (dict_get _ d) as [a|] eqn:Hget.
    - injection Hatt as <- <- <-. eexists _, _. split; [done|].
      rewrite dict_get_set, decide_True by done. done.
    - destruct (allocate_field _ _ _) as [rt0 [rf|e|]]; [|done..].
      destruct (AttachmentManager.check_aliases _ _) as [[]|e|]; [|done..].
      injection Hatt as <- <- <-. eexists _, _. split; [done|].
      rewrite dict_get_set, decide_True by done. done. }
  unfold AttachmentManager.attach_array, AttachmentManager.has_attachment.
  rewrite Hbase, Hkey. simpl. rewrite Hget. eexists. split.
  - simpl. by rewrite Hr, Hf.
  - simpl. unfold dict_mem. rewrite dict_get_set, decide_True by done.
    by rewrite bool_decide_eq_true_2 by eauto.
Qed.
End registry.

Lemma dict_get_absent {K V} `{EqDecision K} (k : K) (d : list (K * V)) :
  k ∉ d.*1 -> dict_get k d = None.
Proof.
  induction d as [|[k' v'] d IH]; simpl; [done|].
  rewrite not_elem_of_cons. intros [Hne Hin]. by rewrite decide_False, IH.
Qed.

Lemma dict_del_set_new {K V} `{EqDecision K} (k : K) (v : V) (d : list (K * V)) :
  dict_get k d = None -> dict_del k (dict_set k v d) = d.
Proof.
  induction d as [|[k' v'] d IH]; simpl; [by rewrite decide_True|].
  case_decide; [done|]. intros Hd. simpl. by rewrite decide_False, IH.
Qed.

Lemma dict_set_keys {K V} `{EqDecision K} (k : K) (v : V) (d : list (K * V)) :
  (dict_set k v d).*1 = if dict_mem k d then d.*1 else d.*1 ++ [k].
Proof.
  unfold dict_mem. induction d as [|[k' v'] d IH]; simpl; [done|].
  case_decide as Hk; simpl.
  - subst. first [done|by rewrite bool_decide_eq_true_2 by eauto].
  - revert IH. destruct (bool_decide _); intros IH; f_equal; exact IH.
Qed.

Lemma dict_mem_keys {K V} `{EqDecision K} (k : K) (d : list (K * V)) :
  dict_mem k d = bool_decide (k ∈ d.*1).
Proof.
  unfold dict_mem. destruct (dict_get k d) as [v|] eqn:Hget.
  - apply dict_get_elem_of in Hget.
    rewrite !bool_decide_eq_true_2; [done| |by eauto].
    apply list_elem_of_fmap. by exists (k, v).
  - apply dict_get_not_in in Hget.
    rewrite !bool_decide_eq_false_2; [done..|]. by intros [? ?].
Qed.

(** [remove_attachment] leaves the keys of the registry as they are. *)
Lemma remove_attachment_keys (array : NDArray) (am : AttachmentManager.t) :
  (fun d => d.*1) <$>
    AttachmentManager.attachments (AttachmentManager.remove_attachment array am).1
  = (fun d => d.*1) <$> AttachmentManager.attachments am.
Proof.
  unfold AttachmentManager.remove_attachment.
  destruct (AttachmentManager.attachments am) as [d|] eqn:Hd;
    [|by simpl; rewrite Hd].
  destruct (dict_get _ d) as [a|] eqn:Hget; [|by simpl; rewrite Hd].
  unfold Attachment.remove_reference, Attachment.collectible.
  case_bool_decide as Hpos; simpl; [|by rewrite Hd].
  rewrite bool_decide_eq_false_2 by lia. simpl.
  rewrite dict_set_keys. unfold dict_mem. rewrite Hget.
  by rewrite bool_decide_eq_true_2 by eauto.
Qed.

Lemma has_attachment_keys (array : NDArray) (am am' : AttachmentManager.t) :
  (fun d => d.*1) <$> AttachmentManager.attachments am'
  = (fun d => d.*1) <$> AttachmentManager.attachments am ->
  AttachmentManager.has_attachment array am'
  = AttachmentManager.has_attachment array am.
Proof.
  unfold AttachmentManager.has_attachment.
  destruct (AttachmentManager.attachments am'), (AttachmentManager.attachments am);
    simpl; intros [= Hkeys] || intros _; try done.
  by rewrite !dict_mem_keys, Hkeys.
Qed.

(** X11. [remove_attachment] never takes an attachment off the registry:
    whatever it is called with and whatever it returns, [has_attachment]
    answers afterwards as it did before. *)
Theorem remove_attachment_never_unregisters (array array' : NDArray)
    (am : AttachmentManager.t) :
  AttachmentManager.has_attachment array'
    (AttachmentManager.remove_attachment array am).1
  = AttachmentManager.has_attachment array' am.
Proof. apply has_attachment_keys, remove_attachment_keys. Qed.

(** ** More on the pools *)

Section pools.
Context `{Legion}.

(** X13. While the free queue holds a field, an [allocate_field] that
    does not fail at building a match (the call is not the
    [match_frequency]-th one, or the ids of the pending list fit the
    buffers of a match) hands out the oldest field of the queue and nothing
    else happens to the fields: the rest of the queue stays in order, no
    region is made and no field space is touched. *)
Theorem free_queue_served_first (agreed : list (Z * Z)) (res : Resources)
    (m : FieldManager.t) (f : FieldRef) (q pending : list FieldRef) :
  FieldManager.free_fields m = Some (f :: q) ->
  FieldManager.freed_fields m = Some pending ->
  FieldManager.match_counter m + 1 <> FieldManager.match_frequency m \/
    storable pending = true ->
  exists res' m',
    FieldManager.allocate_field agreed res m = (res', m', Ok f) /\
    FieldManager.free_fields m' = Some q /\
    FieldManager.top_regions m' = FieldManager.top_regions m /\
    field_space_store res' = field_space_store res.
Proof.
  intros Hfree Hfreed Hfits.
  unfold FieldManager.allocate_field.
  rewrite (exchange_spec agreed res m pending Hfreed).
  case_bool_decide as Hnth.
  - destruct Hfits as [?| ->]; [done|]. unfold FieldManager.serve. simpl.
    rewrite Hfree. eexists _, _. by split_and!.
  - unfold FieldManager.serve. simpl. rewrite Hfree. eexists _, _. by split_and!.
Qed.

Lemma push_ordered_hole (ord : list (option FieldRef)) (i : nat)
    (m : FieldManager.t) :
  ord !! i = Some None ->
  (FieldMatch.push_ordered FieldManager.free_field ord m).2 = Raise TypeError.
Proof.
  revert i m. induction ord as [|[f|] ord IH]; intros i m Hi; simpl; [done| |done].
  destruct i as [|i]; [done|]. by apply (IH i).
Qed.

(** X14. When the answer of the consensus match is no longer than the
    list of submitted fields, and neither the submitted keys nor the answer
    have duplicates, a pair in the answer that belongs to none of the
    submitted fields breaks [update_free_fields]: its slot in
    [ordered_fields] stays [None], and unpacking it raises [TypeError]. *)
Theorem update_free_fields_stray_pair (fm : FieldMatch.t) (m : FieldManager.t)
    (agreed : list (Z * Z)) (k : Z * Z) :
  FieldMatch.future fm = Some agreed ->
  (length agreed <= length (FieldMatch.fields fm))%nat ->
  NoDup (ref_key <$> FieldMatch.fields fm) ->
  NoDup agreed ->
  k ∈ agreed ->
  k ∉ ref_key <$> FieldMatch.fields fm ->
  (FieldManager.update_free_fields fm m).2 = Raise TypeError.
Proof.
  intros Hfut Hlen Hsub Hout Hk Hstray.
  apply list_elem_of_lookup_1 in Hk as [i Hi].
  pose proof (lookup_lt_Some _ _ _ Hi) as Hlt.
  unfold FieldManager.update_free_fields, FieldMatch.update_free_fields.
  rewrite bool_decide_eq_false_2 by lia. rewrite Hfut.
  rewrite bool_decide_eq_true_2 by done. simpl.
  rewrite bool_decide_eq_true_2 by lia.
  destruct (place_exact agreed (FieldMatch.fields fm)
              (replicate (length agreed) None) m Hsub Hout)
    as (ord' & -> & _ & Hslots).
  { intros j kj Hj _. apply lookup_replicate_2. by eapply lookup_lt_Some. }
  apply (push_ordered_hole _ i).
  destruct (Hslots i k Hi) as [_ Hkeep]. rewrite Hkeep by done.
  by apply lookup_replicate_2.
Qed.

(** X15. The finalizer of a field that [Runtime.allocate_field] has handed
    out always finds the pool it came from: it does not raise, it appends
    the field to the unordered list of the pool of its shape and element
    type, and it leaves every other pool alone. *)
Theorem field_returns_to_its_pool (agreed : list (Z * Z)) (shape : Shape)
    (dtype : DType) (rt rt1 : Runtime.t) (rf : RegionField) :
  Runtime.allocate_field agreed shape dtype rt = (rt1, Ok rf) ->
  exists managers m,
    Runtime.field_managers rt1 = Some managers /\
    managers !! (shape, dtype) = Some m /\
    Field_del (rf_field rf) rt1
    = (Runtime.set_field_managers
         (Some (<[(shape, dtype) :=
                    requeue [] [(rf_region rf, field_id (rf_field rf))] m]>
                  managers)) rt1,
       Ok tt).
Proof.
  unfold Runtime.allocate_field.
  destruct (Runtime.destroyed rt) eqn:Hd; [done|].
  destruct (Runtime.field_managers rt) as [managers|]; [|done].
  destruct (match managers !! (shape, dtype) with
            | Some m => Ok m
            | None => _
            end) as [m0|e|]; [|done..].
  destruct (FieldManager.allocate_field agreed (Runtime.resources rt) m0)
    as [[res m'] [[region fid]|e|]]; [|done..].
  intros [= <- <-]. exists (<[(shape, dtype) := m']> managers), m'.
  split_and!; [done|apply lookup_insert_eq|].
  unfold Field_del, Runtime.free_field. simpl. rewrite Hd, lookup_insert_eq.
  by rewrite free_field_requeue.
Qed.

(** X16. Field spaces are made once per element type: asking again for the
    same type gives the same field space and changes nothing, and the store
    of field spaces grows by at most one, at its end. *)
Theorem field_space_made_once (dtype : DType) (r : Resources) :
  find_or_create_field_space dtype (find_or_create_field_space dtype r).1
  = find_or_create_field_space dtype r /\
  exists new,
    field_space_store (find_or_create_field_space dtype r).1
    = field_space_store r ++ new /\ (length new <= 1)%nat.
Proof.
  unfold find_or_create_field_space.
  destruct (field_spaces r) as [known|] eqn:Hknown; simpl.
  - destruct (known !! dtype) as [a|] eqn:Ha; simpl.
    + rewrite Hknown, Ha. split; [done|]. exists [].
      split; [by rewrite app_nil_r|simpl; lia].
    + rewrite lookup_insert_eq. split; [done|]. eexists [_].
      split; [done|simpl; lia].
  - rewrite Hknown. split; [done|]. exists [].
    split; [by rewrite app_nil_r|simpl; lia].
Qed.
End pools.

(** ** The bookkeeping of detachments *)

Section detachments.
Context {Op Future R : Type} `{EqDecision Future}
  (dispatch : Op -> R -> R * Future)
  (is_ready : Future -> R -> bool).

(** X17. Detachments are registered under keys that were never in use:
    the key handed out is new, taking the detachment out again under that
    key gives it back and leaves the dict as it was before, and a second
    removal raises [KeyError]. *)
Theorem detachment_round_trip (detach : Op) (s : Detachments.t Op Future) :
  detachment_keys_fresh s ->
  exists s1 k,
    Detachments.register_detachment detach s = (s1, k) /\
    (k ∉ (Detachments.registered_detachments s).*1) /\
    detachment_keys_fresh s1 /\
    Detachments.remove_detachment k s1
    = (Detachments.set_next_detachment_key (k + 1) s, Ok detach) /\
    Detachments.remove_detachment k
      (Detachments.set_next_detachment_key (k + 1) s)
    = (Detachments.set_next_detachment_key (k + 1) s, Raise KeyError).
Proof.
  intros Hfresh. eexists _, _. split; [done|].
  assert (Detachments.next_detachment_key s
          ∉ (Detachments.registered_detachments s).*1) as Hnew.
  { intros Hin%Hfresh. lia. }
  pose proof (dict_get_absent _ _ Hnew) as Hget.
  split_and!; [done| | |].
  - intros k. simpl. rewrite dict_set_keys, dict_mem_keys.
    rewrite bool_decide_eq_false_2 by done.
    intros [Hin%Hfresh| ->%list_elem_of_singleton]%elem_of_app; lia.
  - unfold Detachments.remove_detachment. simpl.
    rewrite dict_get_set, decide_True by done.
    by rewrite dict_del_set_new.
  - unfold Detachments.remove_detachment. simpl. by rewrite Hget.
Qed.

Lemma detach_all_keeps (l : list (Detachable * Field * Op)) (rt : R)
    (s : Detachments.t Op Future) :
  let out := Detachments.detach_all dispatch is_ready l rt s in
  Detachments.deferred_detachments out.1.2 = Detachments.deferred_detachments s /\
  Detachments.registered_detachments out.1.2
  = Detachments.registered_detachments s /\
  (fun d => d.*1) <$>
    AttachmentManager.attachments (Detachments.attachment_manager out.1.2)
  = (fun d => d.*1) <$>
    AttachmentManager.attachments (Detachments.attachment_manager s).
Proof.
  revert rt s. induction l as [|[[array field] detach] l IH]; intros rt s; [done|].
  cbn [Detachments.detach_all].
  destruct (Detachments.detach_array _ _ _ _ _ _ _ _) as [[rt1 s1] r] eqn:Hd.
  assert (Detachments.deferred_detachments s1 = Detachments.deferred_detachments s /\
          Detachments.registered_detachments s1
          = Detachments.registered_detachments s /\
          (fun d => d.*1) <$>
            AttachmentManager.attachments (Detachments.attachment_manager s1)
          = (fun d => d.*1) <$>
            AttachmentManager.attachments (Detachments.attachment_manager s))
    as (Hdef & Hreg & Hkeys).
  { unfold Detachments.detach_array in Hd. simpl in Hd.
    destruct (dispatch detach rt) as [rt0 future].
    destruct (base_is_none array); simpl in Hd; [|by simplify_eq].
    pose proof (remove_attachment_keys (d_array array)
                  (Detachments.attachment_manager s)) as Hk.
    destruct (AttachmentManager.remove_attachment _ _) as [am' [[]|e|]];
      [destruct (is_ready future rt0)|..]; by simplify_eq. }
  destruct r as [[]|e|]; [|done..].
  specialize (IH rt1 s1). simpl in IH. destruct IH as (-> & -> & ->). done.
Qed.

(** X18. [perform_detachments] always leaves the list of deferred
    detachments empty, also when one of them fails and the ones behind it
    are dropped; and however many arrays it detaches, it takes none of them
    off the registry of attachments. *)
Theorem perform_detachments_unregisters_nothing (rt : R)
    (s : Detachments.t Op Future) (array : NDArray) :
  Detachments.deferred_detachments
    (Detachments.perform_detachments dispatch is_ready rt s).1.2 = [] /\
  AttachmentManager.has_attachment array
    (Detachments.attachment_manager
       (Detachments.perform_detachments dispatch is_ready rt s).1.2)
  = AttachmentManager.has_attachment array (Detachments.attachment_manager s).
Proof.
  unfold Detachments.perform_detachments.
  destruct (detach_all_keeps (Detachments.deferred_detachments s) rt
              (Detachments.set_deferred_detachments [] s)) as (Hdef & _ & Hkeys).
  split; [done|]. by apply has_attachment_keys.
Qed.

Lemma remove_futures_skip (ks : list Future) (k : Future) (v : NDArray)
    (d : list (Future * NDArray)) :
  k ∉ ks ->
  Detachments.remove_futures ks ((k, v) :: d)
  = ((k, v) :: (Detachments.remove_futures ks d).1,
     (Detachments.remove_futures ks d).2).
Proof.
  revert d. induction ks as [|k' ks IH]; intros d Hk; [done|].
  apply not_elem_of_cons in Hk as [Hne Hk].
  cbn [Detachments.remove_futures]. unfold dict_mem. simpl.
  rewrite !decide_False by congruence.
  destruct (bool_decide (is_Some (dict_get k' d))); [|done]. by apply IH.
Qed.

(** X19. [prune_detachments] never fails and keeps, in their order, exactly
    the pending detachments whose future is not ready yet. *)
Theorem prune_detachments_keeps_unfinished (rt : R)
    (s : Detachments.t Op Future) :
  NoDup (Detachments.pending_detachments s).*1 ->
  Detachments.prune_detachments is_ready rt s
  = (Detachments.set_pending_detachments
       (filter (fun fa => is_ready fa.1 rt = false)
               (Detachments.pending_detachments s)) s,
     Ok tt).
Proof.
  intros Hnd. unfold Detachments.prune_detachments.
  assert (Detachments.remove_futures
            (filter (fun future => is_ready future rt = true)
                    (Detachments.pending_detachments s).*1)
            (Detachments.pending_detachments s)
          = (filter (fun fa => is_ready fa.1 rt = false)
                    (Detachments.pending_detachments s), Ok tt)) as ->; [|done].
  induction (Detachments.pending_detachments s) as [|[k v] d IH]; [done|].
  rewrite fmap_cons in Hnd. apply NoDup_cons in Hnd as [Hk Hnd]. simpl in Hk.
  rewrite fmap_cons. simpl. destruct (is_ready k rt) eqn:Hready.
  - rewrite filter_cons_True by done. rewrite filter_cons_False by (simpl; congruence).
    cbn [Detachments.remove_futures]. unfold dict_mem. simpl.
    rewrite !decide_True by done. rewrite bool_decide_eq_true_2 by eauto.
    by apply IH.
  - rewrite filter_cons_False by congruence. rewrite filter_cons_True by done.
    rewrite remove_futures_skip, IH; [done|done|].
    intros [_ Hin]%list_elem_of_filter. done.
Qed.
End detachments.

(** ** Names, projection ids and the window of operations *)

Lemma get_unique_names_spec (n : nat) (unique_id : Z) :
  Naming.get_unique_names n unique_id
  = (unique_id + Z.of_nat n,
     (fun i => "x" +:+ pretty i) <$> seqZ unique_id (Z.of_nat n)).
Proof.
  revert unique_id. induction n as [|n IH]; intros unique_id.
  { simpl. f_equal. lia. }
  cbn [Naming.get_unique_names]. unfold Naming.get_unique_name.
  rewrite IH. rewrite (seqZ_cons unique_id) by lia. rewrite fmap_cons.
  replace (Z.pred (Z.of_nat (S n))) with (Z.of_nat n) by lia.
  replace (Z.succ unique_id) with (unique_id + 1) by lia.
  f_equal. lia.
Qed.

(** X20. [get_unique_name] never gives the same name twice: the names of
    any number of calls in a row are pairwise different, and the counter
    has moved on by the number of calls. *)
Theorem unique_names_never_repeat (n : nat) (unique_id : Z) :
  NoDup (Naming.get_unique_names n unique_id).2 /\
  (Naming.get_unique_names n unique_id).1 = unique_id + Z.of_nat n.
Proof.
  rewrite get_unique_names_spec. split; [|done]. simpl.
  apply NoDup_fmap_2; [|apply NoDup_seqZ].
  intros i j Heq. simpl in Heq. injection Heq as Heq. by apply (inj pretty).
Qed.

Lemma testbit_b2z (b : bool) (m : Z) :
  Z.testbit (Z.b2z b) m = b && bool_decide (m = 0).
Proof.
  destruct m as [|p|p].
  - rewrite Z.b2z_bit0. by rewrite andb_true_r.
  - rewrite andb_false_r. destruct b; simpl; [by destruct p|done].
  - by rewrite andb_false_r.
Qed.

Lemma testbit_small (x m : Z) : 0 <= x < 16 -> 4 <= m -> Z.testbit x m = false.
Proof.
  intros Hx Hm. apply Z.testbit_false; [lia|].
  rewrite Z.div_small; [done|]. split; [lia|].
  apply Z.lt_le_trans with (2 ^ 4); [lia|]. apply Z.pow_le_mono_r; lia.
Qed.

Lemma mask_bits_spec (mask : list bool) (dim proj_id n : Z) :
  0 <= dim -> 0 <= n ->
  Z.testbit (Projection.mask_bits mask dim proj_id) n
  = Z.testbit proj_id n
    || (bool_decide (dim <= n) && default false (mask !! Z.to_nat (n - dim))).
Proof.
  revert dim proj_id. induction mask as [|val rest IH]; intros dim proj_id Hd Hn.
  { simpl. by rewrite andb_false_r, orb_false_r. }
  cbn [Projection.mask_bits]. rewrite IH by lia.
  rewrite Z.lor_spec, Z.shiftl_spec, testbit_b2z by lia.
  rewrite <- orb_assoc. f_equal.
  destruct (decide (n = dim)) as [->|Hne].
  - rewrite Z.sub_diag. simpl.
    rewrite (bool_decide_eq_true_2 (dim <= dim)),
      (bool_decide_eq_false_2 (dim + 1 <= dim)) by lia.
    by destruct val.
  - rewrite (bool_decide_eq_false_2 (n - dim = 0)) by lia. rewrite andb_false_r.
    simpl. destruct (decide (dim + 1 <= n)) as [Hle|Hgt].
    + rewrite !bool_decide_eq_true_2 by lia.
      replace (Z.to_nat (n - dim)) with (S (Z.to_nat (n - (dim + 1)))) by lia.
      done.
    + by rewrite !bool_decide_eq_false_2 by lia.
Qed.

(** The bits of a projection id: the target dimension in the lowest four,
    the source dimension in the next four, the mask from bit 8 on. *)
Lemma projection_code_bits (src_dim tgt_dim : Z) (mask : list bool) (n : Z) :
  0 <= src_dim < 16 -> 0 <= tgt_dim < 16 -> 0 <= n ->
  Z.testbit (Projection.projection_code src_dim tgt_dim mask) n
  = if decide (n < 4) then Z.testbit tgt_dim n
    else if decide (n < 8) then Z.testbit src_dim (n - 4)
    else default false (mask !! Z.to_nat (n - 8)).
Proof.
  intros Hs Ht Hn. unfold Projection.projection_code.
  rewrite !Z.lor_spec, !Z.shiftl_spec by done.
  repeat case_decide.
  - rewrite !Z.testbit_neg_r by lia. done.
  - rewrite Z.testbit_neg_r by lia. rewrite (testbit_small tgt_dim) by lia.
    by rewrite orb_false_r.
  - rewrite mask_bits_spec by lia. rewrite Z.bits_0. simpl.
    rewrite bool_decide_eq_true_2 by lia. rewrite Z.sub_0_r.
    rewrite (testbit_small src_dim), (testbit_small tgt_dim) by lia.
    by rewrite !orb_false_r.
Qed.

(** X21. Projection ids keep their three arguments apart: for source and
    target dimensions below 16 and masks of one length, two calls of
    [get_projection] ask the context for the same id only if they agree in
    source, target and mask. *)
Theorem projection_code_injective (src_dim tgt_dim src_dim' tgt_dim' : Z)
    (mask mask' : list bool) :
  0 <= src_dim < 16 -> 0 <= tgt_dim < 16 ->
  0 <= src_dim' < 16 -> 0 <= tgt_dim' < 16 ->
  length mask = length mask' ->
  Projection.projection_code src_dim tgt_dim mask
  = Projection.projection_code src_dim' tgt_dim' mask' ->
  src_dim = src_dim' /\ tgt_dim = tgt_dim' /\ mask = mask'.
Proof.
  intros Hs Ht Hs' Ht' Hlen Heq.
  assert (forall n, 0 <= n ->
            (if decide (n < 4) then Z.testbit tgt_dim n
             else if decide (n < 8) then Z.testbit src_dim (n - 4)
             else default false (mask !! Z.to_nat (n - 8)))
            = (if decide (n < 4) then Z.testbit tgt_dim' n
               else if decide (n < 8) then Z.testbit src_dim' (n - 4)
               else default false (mask' !! Z.to_nat (n - 8)))) as Hbits.
  { intros n Hn. rewrite <- !projection_code_bits by done. by rewrite Heq. }
  split_and!.
  - apply Z.bits_inj'. intros n Hn. destruct (decide (n < 4)) as [Hlt|Hge].
    + specialize (Hbits (n + 4) ltac:(lia)).
      repeat case_decide; try lia.
      by replace (n + 4 - 4) with n in Hbits by lia.
    + by rewrite !testbit_small by lia.
  - apply Z.bits_inj'. intros n Hn. destruct (decide (n < 4)) as [Hlt|Hge].
    + specialize (Hbits n Hn). by repeat case_decide; try lia.
    + by rewrite !testbit_small by lia.
  - apply list_eq. intros i.
    specialize (Hbits (8 + Z.of_nat i) ltac:(lia)).
    repeat case_decide; try lia.
    replace (Z.to_nat (8 + Z.of_nat i - 8)) with i in Hbits by lia.
    destruct (decide (i < length mask)%nat) as [Hlt|Hge].
    + destruct (lookup_lt_is_Some_2 mask i Hlt) as [b Hb].
      destruct (lookup_lt_is_Some_2 mask' i ltac:(lia)) as [b' Hb'].
      rewrite Hb, Hb' in *. simpl in Hbits. by rewrite Hbits.
    + rewrite !lookup_ge_None_2 by lia. done.
Qed.

Lemma factorial_pos (n : nat) : 0 < Projection.factorial n.
Proof. induction n as [|n IH]; [done|]. cbn [Projection.factorial]. nia. Qed.

Lemma factorial_mono (n m : nat) :
  (n <= m)%nat -> Projection.factorial n <= Projection.factorial m.
Proof.
  induction 1 as [|m _ IH]; [done|].
  pose proof (factorial_pos m). cbn [Projection.factorial]. nia.
Qed.

Lemma factorial_20 : Projection.factorial 20 < 2 ^ 63.
Proof. by vm_compute. Qed.

Lemma lehmer_length (seq : list Z) : length (Projection.lehmer seq) = length seq.
Proof. induction seq as [|val rest IH]; simpl; [done|]. by rewrite IH. Qed.

(** The Lehmer code is a number in the factorial number system: every digit
    is at most its place, so the number is below the factorial of the
    length. *)
Lemma mixed_radix_lehmer_bound (seq : list Z) :
  0 <= mixed_radix (Projection.lehmer seq) < Projection.factorial (length seq).
Proof.
  induction seq as [|val rest IH]; [done|].
  cbn [Projection.lehmer mixed_radix length Projection.factorial].
  rewrite lehmer_length.
  pose proof (length_filter (fun x => x < val) rest) as Hc.
  pose proof (factorial_pos (length rest)) as Hf.
  nia.
Qed.





Section transposes.
Context `{Numpy} `{!NumpyExact}.

Lemma weights_lehmer (seq : list Z) (dim idx : nat) :
  dim = (idx + length seq)%nat -> (dim <= 20)%nat ->
  exists ws,
    Projection.weights dim idx (Projection.lehmer seq) = Ok ws /\
    Forall (fun w => 0 <= w) ws /\
    foldr Z.add 0 ws = mixed_radix (Projection.lehmer seq).
Proof.
  revert idx. induction seq as [|val rest IH]; intros idx Hdim Hle.
  { by exists []. }
  simpl in Hdim.
  destruct (IH (S idx) ltac:(lia) Hle) as (ws & Hws & Hpos & Hsum).
  cbn [Projection.lehmer Projection.weights mixed_radix].
  replace (dim - idx - 1)%nat with (length rest) by lia.
  rewrite lehmer_length.
  pose proof (length_filter (fun x => x < val) rest) as Hc.
  pose proof (factorial_pos (length rest)) as Hf.
  pose proof (factorial_mono (S (length rest)) 20 ltac:(lia)) as Hm.
  cbn [Projection.factorial] in Hm.
  pose proof factorial_20 as H20.
  rewrite int64_mul_exact; [|unfold fits_int64; nia..].
  rewrite Hws. eexists. split; [done|]. split.
  - constructor; [nia|done].
  - simpl. by rewrite Hsum.
Qed.

Lemma py_sum_exact (ws : list Z) (acc : Z) :
  0 <= acc -> Forall (fun w => 0 <= w) ws -> acc + foldr Z.add 0 ws < 2 ^ 63 ->
  Projection.py_sum acc ws = Ok (acc + foldr Z.add 0 ws).
Proof.
  intros Hacc Hpos. revert acc Hacc.
  induction Hpos as [|w ws Hw Hpos IH]; intros acc Hacc Hsum; simpl in *.
  { f_equal. lia. }
  assert (0 <= foldr Z.add 0 ws) as Hrest.
  { clear -Hpos. induction Hpos; simpl; lia. }
  rewrite int64_add_exact; [|unfold fits_int64; lia..].
  rewrite IH by lia. f_equal. lia.
Qed.

(** Up to twenty entries nothing leaves 64 bits, and the number computed
    is the exact one. *)
Lemma factoradic_exact (seq : list Z) :
  (length seq <= 20)%nat ->
  Projection.factoradic seq = Ok (mixed_radix (Projection.lehmer seq)).
Proof.
  intros Hlen. unfold Projection.factoradic.
  destruct (weights_lehmer seq (length seq) 0 eq_refl Hlen)
    as (ws & -> & Hpos & Hsum).
  pose proof (mixed_radix_lehmer_bound seq) as Hb.
  pose proof (factorial_mono (length seq) 20 Hlen) as Hm.
  pose proof factorial_20 as H20.
  rewrite py_sum_exact; [by rewrite Hsum|done..|lia].
Qed.

(** X22. For a sequence of up to twenty entries, the factoradic number
    [get_transpose] computes from the Lehmer code lies between 0 and
    [dim!], the number of permutations of [dim] entries. *)
Theorem transpose_number_below_factorial (seq : list Z) :
  (length seq <= 20)%nat ->
  exists v,
    Projection.factoradic seq = Ok v /\
    0 <= v < Projection.factorial (length seq).
Proof.
  intros Hlen. rewrite (factoradic_exact seq Hlen). eexists. split; [done|].
  apply mixed_radix_lehmer_bound.
Qed.

End transposes.

Section window.
Context {Op R : Type} (schedule : list Op -> R -> R).

Lemma submit_all_fills (ops : list Op) (rt : R) (pre : list Op) (w : Z) :
  ops <> [] -> Z.of_nat (length (pre ++ ops)) = w ->
  Window.submit_all schedule ops rt (Window.mk pre w)
  = (schedule (pre ++ ops) rt, Window.mk [] w).
Proof.
  revert pre. induction ops as [|op ops IH]; intros pre Hne Hlen; [done|].
  unfold Window.submit_all. cbn [fold_left]. unfold Window.submit at 2. simpl.
  destruct ops as [|op2 ops].
  - rewrite bool_decide_eq_true_2 by lia. done.
  - rewrite bool_decide_eq_false_2
      by (rewrite length_app in *; simpl in *; lia).
    replace (pre ++ op :: op2 :: ops) with ((pre ++ [op]) ++ op2 :: ops) in *
      by (by rewrite <- app_assoc).
    by apply IH.
Qed.

(** X24. The window fills before anything is scheduled: from an empty
    window of size [w >= 1], submitting [w] operations schedules them
    once, all together and in the order they were submitted, and leaves
    the window empty again. *)
Theorem submit_schedules_full_window (ops : list Op) (rt : R)
    (s : Window.t Op) :
  Window.outstanding_ops s = [] ->
  1 <= Window.window_size s ->
  Z.of_nat (length ops) = Window.window_size s ->
  Window.submit_all schedule ops rt s = (schedule ops rt, s).
Proof.
  destruct s as [pre w]. simpl. intros -> Hw Hlen.
  apply (submit_all_fills ops rt [] w); [|done].
  intros ->. simpl in Hlen. lia.
Qed.
End window.

(** ** Concrete runs *)

Section runs.
#[local] Existing Instance exact_legion.

Lemma exact_legion_fresh : LegionFresh.
  Proof.
    intros ids Hin. simpl in Hin.
    assert (forall x, x ∈ ids -> x <= foldr Z.max 0 ids) as Hmax.
    { clear Hin. induction ids as [|y ids IH]; intros x Hx.
      - by apply elem_of_nil in Hx.
      - apply elem_of_cons in Hx as [->|Hx]; simpl; [lia|].
        specialize (IH x Hx). lia. }
    specialize (Hmax _ Hin). lia.
  Defined.

Lemma wrap64_fits (x : Z) : fits_int64 x -> wrap64 x = x.
Proof.
  unfold fits_int64, wrap64. intros Hx. rewrite Z.mod_small; lia.
Defined.

Lemma wrapping_numpy_exact : @NumpyExact wrapping_numpy.
Proof.
  split; intros a b Ha Hb Hab; simpl.
  - rewrite bool_decide_eq_true_2 by exact Hb. by rewrite wrap64_fits.
  - by rewrite wrap64_fits.
Defined.

Lemma exact_legion_sqrt : LegionSqrt.
  Proof. intros a b. simpl. apply Z.sqrt_up_nonneg. Defined.

  (** C2, on the code.  The same buffer is attached twice: one attachment,
      count 2, both stores on the same region and field.  It is then
      removed twice: both removals succeed, yet the count has gone up to 4
      and the attachment is still registered. *)
Theorem attach_twice_remove_twice_stays_registered :
    exists rt0 rt1 rt2 rt3 rt4 s1 s2,
      Runtime.init 4 1 0 = Ok rt0 /\
      Runtime.attach_array [] buffer float64 true rt0 = (rt1, Ok s1) /\
      Runtime.attach_array [] buffer float64 true rt1 = (rt2, Ok s2) /\
      rf_region (storage s1) = rf_region (storage s2) /\
      field_id (rf_field (storage s1)) = field_id (rf_field (storage s2)) /\
      attachment_count (4096, 80) rt1 = Some 1 /\
      attachment_count (4096, 80) rt2 = Some 2 /\
      Runtime.remove_attachment buffer rt2 = (rt3, Ok tt) /\
      Runtime.remove_attachment buffer rt3 = (rt4, Ok tt) /\
      attachment_count (4096, 80) rt3 = Some 3 /\
      attachment_count (4096, 80) rt4 = Some 4 /\
      Runtime.has_attachment buffer rt4 = Ok true.
  Proof.
    do 7 eexists. split_and!; try reflexivity.
  Qed.

(** C3, as stated, fails.  With [buffer] attached, attaching a buffer that
    starts inside it raises the aliasing error; the registry keeps its one
    entry, but by then the pool has counted a second allocation, a second
    field id exists in the field space, and the new buffer is bound to
    it: the runtime is not the one before the call. *)
Lemma attach_alias_commits_a_field :
  exists rt0 rt1 rt2 s1,
    Runtime.init 4 1 0 = Ok rt0 /\
    Runtime.attach_array [] buffer float64 true rt0 = (rt1, Ok s1) /\
    Runtime.attach_array [] overlapping_buffer float64 true rt1
    = (rt2, Raise RuntimeError_aliased) /\
    Runtime.attachment_manager rt2 = Runtime.attachment_manager rt1 /\
    FieldSpace.fields <$> field_space_store (Runtime.resources rt1) = [[1]] /\
    FieldSpace.fields <$> field_space_store (Runtime.resources rt2) = [[1; 2]] /\
    length (Runtime.bound rt1) = 1%nat /\
    length (Runtime.bound rt2) = 2%nat /\
    rt2 <> rt1.
Proof.
  do 4 eexists. split_and!; try reflexivity.
  intros Heq. apply (f_equal (fun rt => length (Runtime.bound rt))) in Heq.
  vm_compute in Heq. discriminate.
Qed.

(** C8, as stated, fails.  Cutting 1027 elements into tiles of 4 produces
    257 tiles, more than 256 and more than 16 times 4 shards, yet the
    tiling is allowed: only the 256 whole tiles are counted. *)
Lemma use_complete_tiling_misses_partial_tile :
  PartitionManager.init 4 1 = Ok pm4 /\
  tiles_produced [1027] [4] = 257 /\
  257 > 256 /\ 257 > 16 * PartitionManager.num_pieces pm4 /\
  PartitionManager.use_complete_tiling [1027] [4] pm4 = Ok true.
Proof. split_and!; (reflexivity || lia). Qed.

Lemma use_complete_tiling_counts_whole_tiles_witness :
  exists b : bool,
    PartitionManager.use_complete_tiling [10001] [4] pm4 = Ok b /\
    (b = false <->
     whole_tiles [10001] [4] > 256 /\
     whole_tiles [10001] [4] > 16 * PartitionManager.num_pieces pm4) /\
    0 <= whole_tiles [10001] [4] <= tiles_produced [10001] [4] /\
    (Forall2 (fun s t => 0 < t /\ s `mod` t = 0) [10001] [4] ->
     whole_tiles [10001] [4] = tiles_produced [10001] [4]) /\
    (b = false ->
     tiles_produced [10001] [4] > 256 /\
     tiles_produced [10001] [4] > 16 * PartitionManager.num_pieces pm4) /\
    (tiles_produced [10001] [4] <= 256 -> b = true).
Proof.
  apply (use_complete_tiling_counts_whole_tiles [10001] [4] pm4).
  repeat constructor; lia.
Defined.

(** A tile that does not divide the extent is refused as well, once there
    are enough whole tiles; and sixteen tiles on four shards are allowed. *)
Example use_complete_tiling_refuses_many_whole_tiles :
  PartitionManager.use_complete_tiling [10001] [4] pm4 = Ok false /\
  PartitionManager.use_complete_tiling [64] [4] pm4 = Ok true.
Proof. split; reflexivity. Qed.

Lemma match_frequency_scales_witness :
  exists m : FieldManager.t,
    FieldManager.init 256 32 [100; 100] float64 = Ok m /\
    let footprint := volume [100; 100] * size float64 in
    (footprint <= 256 -> FieldManager.match_frequency m = 32) /\
    (footprint > 256 ->
       exists R : Z,
         is_ceil footprint 256 R /\ 1 <= R /\
         is_ceil 32 R (FieldManager.match_frequency m) /\
         1 <= FieldManager.match_frequency m).
Proof.
  apply (match_frequency_scales 256 32 [100; 100] float64); [lia|lia|discriminate].
Defined.



(** That call dispatches the one pending field and gets it back at once. *)
Example allocate_dispatches_and_reuses :
  FieldManager.allocate_field [(0, 1)] resources0 pool0
  = (set_collectives [[(0, 1)]] resources0,
     FieldManager.mk [10] float64 (Some []) (Some []) [] 0 1 [region0],
     Ok (region0, 1)).
Proof. reflexivity. Qed.

Lemma update_free_fields_redistributes_witness :
  exists matched : list FieldRef,
    ref_key <$> matched = [(0, 3); (0, 1)] /\
    (forall f, f ∈ matched -> f ∈ FieldMatch.fields match0) /\
    FieldManager.update_free_fields match0 pool0
    = (requeue matched
         (filter (fun f => ref_key f ∉ [(0, 3); (0, 1)]) (FieldMatch.fields match0))
         pool0,
       Ok tt) /\
    ([(0, 3); (0, 1)] = [] ->
     FieldManager.update_free_fields match0 pool0
     = (requeue [] (FieldMatch.fields match0) pool0, Ok tt)).
Proof.
  apply (update_free_fields_redistributes match0 pool0 [(0, 3); (0, 1)]).
  - reflexivity.
  - compute_done.
  - compute_done.
  - intros k Hk.
    apply elem_of_cons in Hk as [->|Hk]; [compute_done|].
    apply elem_of_cons in Hk as [->|Hk]; [compute_done|].
    by apply elem_of_nil in Hk.
Defined.

Lemma attach_alias_raises_after_allocating_witness :
  exists rt0 rt1 s1 rt2 rf,
    Runtime.init 4 1 0 = Ok rt0 /\
    Runtime.attach_array [] buffer float64 true rt0 = (rt1, Ok s1) /\
    Runtime.allocate_field [] (a_shape overlapping_buffer) float64 rt1 = (rt2, Ok rf) /\
    exists rt',
      Runtime.attach_array [] overlapping_buffer float64 true rt1
      = (rt', Raise RuntimeError_aliased) /\
      rt' = Runtime.attach_numpy_array rf overlapping_buffer true rt2 /\
      Runtime.attachment_manager rt' = Runtime.attachment_manager rt1 /\
      Runtime.field_managers rt' = Runtime.field_managers rt2 /\
      Runtime.resources rt' = Runtime.resources rt2 /\
      Runtime.bound rt'
      = Runtime.bound rt1
          ++ [((rf_region rf, field_id (rf_field rf)),
               AttachmentManager.attachment_key overlapping_buffer, true)].
Proof.
  do 5 eexists. split_and!; [reflexivity..|].
  eapply (attach_alias_raises_after_allocating [] overlapping_buffer float64 true).
  - reflexivity.
  - reflexivity.
  - intros k a Hka. apply list_elem_of_singleton in Hka. by simplify_eq.
  - reflexivity.
  - eexists. split; [by apply list_elem_of_singleton|]. reflexivity.
  - reflexivity.
Defined.

Lemma pm8_reachable : reachable pm8.
Proof. by apply (reachable_init 8 1). Defined.

Lemma pm4_reachable : reachable pm4.
Proof. by apply (reachable_init 4 1). Defined.

Lemma one_dimension_launch_shape_witness :
  [8] !! 0%nat = Some (Z.min 1000 (PartitionManager.num_pieces pm8)) /\
  [8] = <[0%nat := Z.min 1000 (PartitionManager.num_pieces pm8)]>
          (replicate (length [1000]) 1) /\
  (PartitionManager.num_pieces pm8 = 8 -> [1000] = [1000] -> [8] = [8]) /\
  (PartitionManager.num_pieces pm8 = 8 -> [1000] = [3] -> [8] = [3]).
Proof.
  apply (one_dimension_launch_shape (H0 := exact_legion_sqrt)
           [1000] [8] pm8
           (PartitionManager.compute_launch_shape [1000] pm8).1 0 1000).
  - exact pm8_reachable.
  - split_and!; [reflexivity|lia|].
    intros [|j] x Hj Hne; [done|]. by rewrite lookup_cons, lookup_nil in Hj.
  - reflexivity.
Defined.

(** The other shape of C7: three elements on eight pieces. *)
Example launch_shape_clamped :
  (PartitionManager.compute_launch_shape [3] pm8).2 = Ok (Some [3]).
Proof. reflexivity. Qed.

Lemma launch_shape_within_pieces_witness :
  length [2; 2] = length [100; 100] /\
  Forall (fun p => 1 <= p) [2; 2] /\
  volume [2; 2] <= PartitionManager.num_pieces pm4.
Proof.
  apply (launch_shape_within_pieces (H0 := exact_legion_sqrt)
           [100; 100] [2; 2] pm4
           (PartitionManager.compute_launch_shape [100; 100] pm4).1).
  - exact pm4_reachable.
  - repeat constructor; lia.
  - reflexivity.
Defined.

(** Three dimensions: the factors of 8 go round the dimensions. *)
Example launch_shape_cube :
  (PartitionManager.compute_launch_shape [64; 64; 64] pm8).2 = Ok (Some [2; 2; 2]).
Proof. reflexivity. Qed.

Lemma resources_empty_wf : res_wf resources_empty.
Proof.
  split; [|constructor]. intros d dt a [= <-]. by rewrite lookup_empty.
Defined.

Lemma no_double_issue_witness :
  NoDup (handed first_call.2 ++ []) /\
  (forall f, f ∈ handed first_call.2 ++ [] ->
     (f ∉ default [] (FieldManager.free_fields first_call.1.2)) /\
     (f ∉ default [] (FieldManager.freed_fields first_call.1.2)) /\
     (f ∉ concat (FieldMatch.fields <$> FieldManager.matches first_call.1.2))) /\
  (forall agreed res' m' f,
     FieldManager.allocate_field agreed first_call.1.1 first_call.1.2
     = (res', m', Ok f) ->
     f ∉ handed first_call.2 ++ []).
Proof.
  apply (no_double_issue (H0 := exact_legion_fresh)).
  apply (run_allocate [] resources_empty pool10 []).
  - apply (run_start 256 2 [10] float64); [exact resources_empty_wf|reflexivity].
  - reflexivity.
Defined.

(** The first call makes a region and hands out its first field. *)
Example first_call_hands_out :
  first_call.2 = Ok (mkRegion 0 [10] 0, 1).
Proof. reflexivity. Qed.
(** *** The further properties, on concrete inputs *)

Lemma pm8_in_use :
  reachable (PartitionManager.compute_launch_shape [1000] pm8).1.
Proof.
  apply (reachable_step [1000] pm8 _
           (PartitionManager.compute_launch_shape [1000] pm8).2).
  - exact pm8_reachable.
  - reflexivity.
Defined.

Lemma launch_shape_memo_transparent_witness :
  exists n v,
    PartitionManager.init n v
    = Ok (uncached (PartitionManager.compute_launch_shape [1000] pm8).1) /\
    (PartitionManager.compute_launch_shape [1000]
       (uncached (PartitionManager.compute_launch_shape [1000] pm8).1)).2
    = Ok (Some [8]).
Proof.
  apply (launch_shape_memo_transparent [1000]
           (PartitionManager.compute_launch_shape [1000] pm8).1
           (PartitionManager.compute_launch_shape [1000] pm8).1
           (Ok (Some [8]))).
  - exact pm8_in_use.
  - reflexivity.
Defined.

Lemma launch_shape_within_extents_witness :
  Forall2 (fun p e => 1 <= p <= e) [2; 2] [100; 100].
Proof.
  apply (launch_shape_within_extents (H0 := exact_legion_sqrt)
           [100; 100] [2; 2] pm4).
  - exact pm4_reachable.
  - simpl. lia.
  - reflexivity.
Defined.

(** Not so in three dimensions: eight elements on sixty-four pieces. *)
Example launch_shape_beyond_extents :
  exists pm64,
    PartitionManager.init 64 1 = Ok pm64 /\
    (PartitionManager.compute_launch_shape [2; 2; 2] pm64).2
    = Ok (Some [16; 2; 2]).
Proof. eexists. split; reflexivity. Qed.

Lemma tile_shape_covers_witness :
  exists tile,
    PartitionManager.compute_tile_shape [100; 100] [2; 2] = Ok tile /\
    length tile = length [100; 100] /\
    forall i s p t,
      [100; 100] !! i = Some s -> [2; 2] !! i = Some p -> tile !! i = Some t ->
      1 <= t /\ is_ceil s p t.
Proof.
  apply (tile_shape_covers (H0 := exact_legion_sqrt) [100; 100] [2; 2] pm4).
  - exact pm4_reachable.
  - reflexivity.
Defined.

Lemma planner_tiling_is_complete_witness :
  PartitionManager.use_complete_tiling [100; 100] [50; 50] pm4 = Ok true.
Proof.
  apply (planner_tiling_is_complete (H0 := exact_legion_sqrt)
           [100; 100] [2; 2] [50; 50] pm4).
  - exact pm4_reachable.
  - reflexivity.
  - reflexivity.
Defined.

Lemma launch_shape_rejects_empty_extent_witness :
  PartitionManager.compute_launch_shape [0; 5] pm4 = (pm4, Raise AssertionError).
Proof.
  apply (launch_shape_rejects_empty_extent [0; 5] pm4).
  - simpl. lia.
  - reflexivity.
  - apply Exists_cons_tl, Exists_cons_hd. lia.
  - apply Exists_cons_hd. lia.
Defined.

Lemma init_factors_witness :
  exists k2 k3 k5 k7 k11 : nat,
    8 = smooth_product k2 k3 k5 k7 k11 /\
    pm8 = PartitionManager.mk 8 1 ∅
            (replicate k11 11 ++ replicate k7 7 ++ replicate k5 5
             ++ replicate k3 3 ++ replicate k2 2).
Proof.
  apply (init_factors 8 1 pm8).
  - lia.
  - reflexivity.
Defined.

Lemma init_accepts_small_primes_only_witness :
  ((exists k2 k3 k5 k7 k11, 26 = smooth_product k2 k3 k5 k7 k11) ->
   exists pm, PartitionManager.init 26 1 = Ok pm) /\
  (~ (exists k2 k3 k5 k7 k11, 26 = smooth_product k2 k3 k5 k7 k11) ->
   PartitionManager.init 26 1 = Raise ValueError).
Proof. apply (init_accepts_small_primes_only 26 1). lia. Defined.

(** Twenty-six pieces: the factor 13 is refused. *)
Example init_refuses_thirteen : PartitionManager.init 26 1 = Raise ValueError.
Proof. reflexivity. Qed.

Lemma registry_stays_disjoint_witness :
  exists d,
    AttachmentManager.attachments
      (AttachmentManager.attach_array (Runtime.allocate_field [])
         Runtime.attach_numpy_array buffer float64 true runtime0
         AttachmentManager.init).1.2 = Some d /\
    registry_disjoint d.
Proof.
  apply (registry_stays_disjoint (Runtime.allocate_field [])
           Runtime.attach_numpy_array).
  eapply (registered_attach _ _ buffer float64 true runtime0
            AttachmentManager.init).
  - apply registered_init.
  - reflexivity.
Defined.

Lemma attach_again_shares_storage_witness :
  exists rt1 am1 s,
    AttachmentManager.attach_array (Runtime.allocate_field [])
      Runtime.attach_numpy_array buffer float64 true runtime0
      AttachmentManager.init = (rt1, am1, Ok s) /\
    exists am2,
      AttachmentManager.attach_array (Runtime.allocate_field [])
        Runtime.attach_numpy_array buffer float64 false rt1 am1
      = (rt1, am2,
         Ok (mkStore (a_shape buffer) float64
               (mkRegionField (rf_region (storage s)) (rf_field (storage s))
                              (a_shape buffer)))) /\
      AttachmentManager.has_attachment buffer am2 = Ok true.
Proof.
  do 3 eexists. split; [reflexivity|].
  eapply (attach_again_shares_storage (Runtime.allocate_field [])
            Runtime.attach_numpy_array buffer buffer float64 float64 true false
            runtime0 _ AttachmentManager.init).
  - reflexivity.
  - reflexivity.
  - reflexivity.
Defined.

Lemma free_queue_served_first_witness :
  exists res' m',
    FieldManager.allocate_field [] resources0 pool_with_queue
    = (res', m', Ok (region0, 1)) /\
    FieldManager.free_fields m' = Some [(region0, 2)] /\
    FieldManager.top_regions m' = FieldManager.top_regions pool_with_queue /\
    field_space_store res' = field_space_store resources0.
Proof.
  apply (free_queue_served_first [] resources0 pool_with_queue
           (region0, 1) [(region0, 2)] []).
  - reflexivity.
  - reflexivity.
  - left. simpl. lia.
Defined.

Lemma update_free_fields_stray_pair_witness :
  (FieldManager.update_free_fields stray_match pool0).2 = Raise TypeError.
Proof.
  apply (update_free_fields_stray_pair stray_match pool0 [(0, 7)] (0, 7)).
  - reflexivity.
  - simpl. lia.
  - compute_done.
  - compute_done.
  - by apply list_elem_of_singleton.
  - intros Hin. apply list_elem_of_singleton in Hin. discriminate.
Defined.

Lemma field_returns_to_its_pool_witness :
  exists rt1 rf,
    Runtime.allocate_field [] [10] float64 runtime0 = (rt1, Ok rf) /\
    exists managers m,
      Runtime.field_managers rt1 = Some managers /\
      managers !! ([10], float64) = Some m /\
      Field_del (rf_field rf) rt1
      = (Runtime.set_field_managers
           (Some (<[([10], float64) :=
                      requeue [] [(rf_region rf, field_id (rf_field rf))] m]>
                    managers)) rt1,
         Ok tt).
Proof.
  do 2 eexists. split; [reflexivity|].
  eapply (field_returns_to_its_pool [] [10] float64 runtime0).
  reflexivity.
Defined.

Lemma detachment_round_trip_witness :
  exists s1 k,
    Detachments.register_detachment 5%nat detachments0 = (s1, k) /\
    (k ∉ (Detachments.registered_detachments detachments0).*1) /\
    detachment_keys_fresh s1 /\
    Detachments.remove_detachment k s1
    = (Detachments.set_next_detachment_key (k + 1) detachments0, Ok 5%nat) /\
    Detachments.remove_detachment k
      (Detachments.set_next_detachment_key (k + 1) detachments0)
    = (Detachments.set_next_detachment_key (k + 1) detachments0,
       Raise KeyError).
Proof.
  apply (detachment_round_trip 5%nat detachments0).
  intros k Hk. simpl in Hk. by apply elem_of_nil in Hk.
Defined.

Lemma prune_detachments_keeps_unfinished_witness :
  Detachments.prune_detachments
    (fun (future : nat) (_ : unit) => bool_decide (future = 1%nat)) tt pending0
  = (Detachments.set_pending_detachments
       (filter (fun fa => bool_decide (fa.1 = 1%nat) = false)
               (Detachments.pending_detachments pending0)) pending0,
     Ok tt).
Proof.
  apply (prune_detachments_keeps_unfinished
           (fun (future : nat) (_ : unit) => bool_decide (future = 1%nat))
           tt pending0).
  compute_done.
Defined.

Lemma projection_code_injective_witness :
  2 = 2 /\ 1 = 1 /\ [true; false] = [true; false].
Proof.
  apply (projection_code_injective 2 1 2 1 [true; false] [true; false]);
    (lia || reflexivity).
Defined.

(** The id of the projection from two dimensions to one that keeps the
    first: mask bit 0, source 2, target 1. *)
Example projection_code_example :
  Projection.projection_code 2 1 [true; false] = 289.
Proof. reflexivity. Qed.

Lemma transpose_number_below_factorial_witness :
  exists v,
    Projection.factoradic (H := wrapping_numpy) [2; 0; 1] = Ok v /\
    0 <= v < Projection.factorial (length [2; 0; 1]).
Proof.
  apply (transpose_number_below_factorial (H0 := wrapping_numpy_exact) [2; 0; 1]).
  simpl. lia.
Defined.


(** The six transposes of three dimensions get the numbers 0 to 5. *)
Example transpose_numbers_of_three :
  Projection.factoradic (H := wrapping_numpy)
    <$> [[0; 1; 2]; [0; 2; 1]; [1; 0; 2]; [1; 2; 0]; [2; 0; 1]; [2; 1; 0]]
  = Ok <$> [0; 1; 2; 3; 4; 5].
Proof. reflexivity. Qed.

Lemma submit_schedules_full_window_witness :
  Window.submit_all (fun (ops : list nat) log => log ++ [ops])
    [1; 2; 3]%nat [] (Window.mk [] 3)
  = ([[1; 2; 3]%nat], Window.mk [] 3).
Proof.
  apply (submit_schedules_full_window
           (fun (ops : list nat) log => log ++ [ops]) [1; 2; 3]%nat []
           (Window.mk [] 3)).
  - reflexivity.
  - simpl. lia.
  - reflexivity.
Defined.

End runs.
